(** * STT provider evaluation harness ([scripts/stt-eval.py])

    A shallow embedding of the evaluation core of the script: the similarity
    scorer (a wrapper around [difflib.SequenceMatcher]), the three provider
    adapters, the orchestrator [run_eval], the consensus engine
    [compute_consensus] and the summary table of [generate_report].

    Conventions of the embedding.
    - Python [str] is [string]; [list] is [list]; a [dict] whose iteration
      order is observable is an association list in insertion order.
    - A Python [float] is the rational number [Q] that it is, so that
      floats compare as these numbers do.  Where the consensus engine
      rounds (a ratio, a sum of ratios), the rounding and the summation are
      parameters, with binary64 as an instance.  Clock readings are
      rationals, and the means of the report are computed exactly.
    - A transcript is the JSON value that the provider's body held: the
      code never checks that it is a [str].
    - [str.lower] is a parameter [lower] of the development: every theorem
      holds for an arbitrary lower-casing function. *)

From Stdlib Require Import Ascii String QArith Lqa.
From stdpp Require Import base list strings gmap pretty.

Local Open Scope nat_scope.

(** ** difflib.SequenceMatcher

    The matcher as [similarity] uses it: [SequenceMatcher(None, a, b)], that
    is [isjunk = None] and [autojunk = True].  Sequences are lists over any
    type with decidable equality. *)

Module Difflib.

(** [Match(a, b, size)] *)
Record Match := mkMatch { m_a : nat; m_b : nat; m_size : nat }.

Section SequenceMatcher.
Context {A : Type} `{EqDecision A}.

(** *** [__chain_b] *)

(** The index list that [b2j] holds for [elt] before purging: the positions
    of [elt] in [b], ascending. *)
Fixpoint indices_from (elt : A) (i : nat) (b : list A) : list nat :=
  match b with
  | [] => []
  | x :: b' =>
      if decide (x = elt) then i :: indices_from elt (S i) b'
      else indices_from elt (S i) b'
  end.

Definition indices (elt : A) (b : list A) : list nat := indices_from elt 0 b.

(** [autojunk]: with [n >= 200], an element with more than [n // 100 + 1]
    occurrences is popular and is deleted from [b2j]. *)
Definition popular (b : list A) (elt : A) : bool :=
  (200 <=? length b) && (length b / 100 + 1 <? length (indices elt b)).

(** [b2j.get(elt, nothing)] *)
Definition b2j (b : list A) (elt : A) : list nat :=
  if popular b elt then [] else indices elt b.

(** [isbjunk = self.bjunk.__contains__]; [bjunk] is empty as [isjunk] is
    [None]. *)
Definition isbjunk (_ : A) : bool := false.

(** *** [find_longest_match] *)

(** [j2len.get(j-1, 0)]: no key is negative, so the lookup at [j = 0]
    yields the default. *)
Definition j2lenget_pred (j2len : gmap nat nat) (j : nat) : nat :=
  match j with
  | 0 => 0
  | S j' => default 0 (j2len !! j')
  end.

(** The inner loop [for j in b2j.get(a[i], nothing)], with its [continue]
    and [break].  [i - k + 1] is written [i + 1 - k]. *)
Fixpoint scan_row (i blo bhi : nat) (j2len : gmap nat nat) (js : list nat)
    (newj2len : gmap nat nat) (best : Match) : gmap nat nat * Match :=
  match js with
  | [] => (newj2len, best)
  | j :: js' =>
      if j <? blo then scan_row i blo bhi j2len js' newj2len best
      else if bhi <=? j then (newj2len, best)
      else
        let k := j2lenget_pred j2len j + 1 in
        let newj2len := <[j := k]> newj2len in
        let best :=
          if m_size best <? k then mkMatch (i + 1 - k) (j + 1 - k) k
          else best in
        scan_row i blo bhi j2len js' newj2len best
  end.

(** The outer loop [for i in range(alo, ahi)], over the rows still to do. *)
Fixpoint main_loop (a b : list A) (rows : list nat) (blo bhi : nat)
    (j2len : gmap nat nat) (best : Match) : Match :=
  match rows with
  | [] => best
  | i :: rows' =>
      let js := match a !! i with Some x => b2j b x | None => [] end in
      let '(newj2len, best') := scan_row i blo bhi j2len js ∅ best in
      main_loop a b rows' blo bhi newj2len best'
  end.

(** The test shared by the four extension loops, [junk] telling whether the
    loop wants junk ([isbjunk(y)]) or non-junk ([not isbjunk(y)]). *)
Definition extends (a b : list A) (junk : bool) (i j : nat) : bool :=
  match a !! i, b !! j with
  | Some x, Some y =>
      (if junk then isbjunk y else negb (isbjunk y)) && bool_decide (x = y)
  | _, _ => false
  end.

(** [while besti > alo and bestj > blo and ... a[besti-1] == b[bestj-1]].
    The loop runs at most [besti] times, which is the initial [n]. *)
Fixpoint extend_left (a b : list A) (junk : bool) (alo blo : nat) (n : nat)
    (m : Match) : Match :=
  match n with
  | 0 => m
  | S n' =>
      if (alo <? m_a m) && (blo <? m_b m)
         && extends a b junk (m_a m - 1) (m_b m - 1)
      then extend_left a b junk alo blo n'
             (mkMatch (m_a m - 1) (m_b m - 1) (m_size m + 1))
      else m
  end.

(** [while besti+bestsize < ahi and bestj+bestsize < bhi and ...].  The loop
    runs at most [ahi - (besti + bestsize)] times, the initial [n]. *)
Fixpoint extend_right (a b : list A) (junk : bool) (ahi bhi : nat) (n : nat)
    (m : Match) : Match :=
  match n with
  | 0 => m
  | S n' =>
      if (m_a m + m_size m <? ahi) && (m_b m + m_size m <? bhi)
         && extends a b junk (m_a m + m_size m) (m_b m + m_size m)
      then extend_right a b junk ahi bhi n'
             (mkMatch (m_a m) (m_b m) (m_size m + 1))
      else m
  end.

Definition find_longest_match (a b : list A) (alo ahi blo bhi : nat) : Match :=
  let best := main_loop a b (seq alo (ahi - alo)) blo bhi ∅ (mkMatch alo blo 0) in
  let best := extend_left a b false alo blo (m_a best) best in
  let best := extend_right a b false ahi bhi (ahi - (m_a best + m_size best)) best in
  let best := extend_left a b true alo blo (m_a best) best in
  let best := extend_right a b true ahi bhi (ahi - (m_a best + m_size best)) best in
  best.

(** *** [get_matching_blocks] *)

(** The [while queue] loop.  The Python list [queue] is used as a stack
    ([append] / [pop]); its top is the head of the list here.  [None] means
    that [fuel] ran out with work left. *)
Fixpoint blocks_loop (a b : list A) (fuel : nat)
    (queue : list (nat * nat * nat * nat)) (matching_blocks : list Match)
    : option (list Match) :=
  match queue with
  | [] => Some matching_blocks
  | (alo, ahi, blo, bhi) :: queue =>
      match fuel with
      | 0 => None
      | S fuel' =>
          let x := find_longest_match a b alo ahi blo bhi in
          let i := m_a x in
          let j := m_b x in
          let k := m_size x in
          if k =? 0 then blocks_loop a b fuel' queue matching_blocks
          else
            let matching_blocks := matching_blocks ++ [x] in
            let queue :=
              if (alo <? i) && (blo <? j) then (alo, i, blo, j) :: queue
              else queue in
            let queue :=
              if (i + k <? ahi) && (j + k <? bhi)
              then (i + k, ahi, j + k, bhi) :: queue
              else queue in
            blocks_loop a b fuel' queue matching_blocks
      end
  end.

(** Tuple comparison, as [matching_blocks.sort()] uses it. *)
Definition match_leb (x y : Match) : bool :=
  (m_a x <? m_a y)
  || ((m_a x =? m_a y)
      && ((m_b x <? m_b y) || ((m_b x =? m_b y) && (m_size x <=? m_size y)))).

Fixpoint insert_block (x : Match) (l : list Match) : list Match :=
  match l with
  | [] => [x]
  | y :: l' => if match_leb x y then x :: l else y :: insert_block x l'
  end.

Definition sort_blocks (l : list Match) : list Match :=
  foldr insert_block [] l.

(** The loop that merges adjacent blocks into [non_adjacent]. *)
Definition flush (i1 j1 k1 : nat) (non_adjacent : list Match) : list Match :=
  if k1 =? 0 then non_adjacent else non_adjacent ++ [mkMatch i1 j1 k1].

Fixpoint collapse (blocks : list Match) (i1 j1 k1 : nat)
    (non_adjacent : list Match) : list Match :=
  match blocks with
  | [] => flush i1 j1 k1 non_adjacent
  | x :: rest =>
      if (i1 + k1 =? m_a x) && (j1 + k1 =? m_b x)
      then collapse rest i1 j1 (k1 + m_size x) non_adjacent
      else collapse rest (m_a x) (m_b x) (m_size x) (flush i1 j1 k1 non_adjacent)
  end.

(** The work list starts as [[(0, la, 0, lb)]]; [2 * la + 1] rounds are
    enough for it to empty ([blocks_loop_total]). *)
Definition raw_blocks (a b : list A) : list Match :=
  default []
    (blocks_loop a b (2 * length a + 1) [(0, length a, 0, length b)] []).

Definition get_matching_blocks (a b : list A) : list Match :=
  collapse (sort_blocks (raw_blocks a b)) 0 0 0 []
    ++ [mkMatch (length a) (length b) 0].

(** *** [ratio] *)

Definition matches (a b : list A) : nat :=
  foldr (fun x acc => m_size x + acc) 0 (get_matching_blocks a b).

(** [_calculate_ratio]: [2.0 * matches / length] if [length] else [1.0] *)
Definition calculate_ratio (matches length : nat) : Q :=
  if length =? 0 then 1%Q
  else (2 * inject_Z (Z.of_nat matches) / inject_Z (Z.of_nat length))%Q.

Definition ratio (a b : list A) : Q :=
  calculate_ratio (matches a b) (length a + length b).

End SequenceMatcher.
End Difflib.

(** ** Similarity scorer *)

(** [str.lower] on the ASCII range, used to run the model on examples. *)
Definition ascii_lower_char (c : ascii) : ascii :=
  let n := nat_of_ascii c in
  if (65 <=? n) && (n <=? 90) then ascii_of_nat (n + 32) else c.

Fixpoint ascii_lower (s : string) : string :=
  match s with
  | EmptyString => EmptyString
  | String c s' => String (ascii_lower_char c) (ascii_lower s')
  end.

Section Similarity.
Variable lower : string -> string.

(** [SequenceMatcher(None, a.lower(), b.lower()).ratio()] *)
Definition similarity (a b : string) : Q :=
  Difflib.ratio (String.list_ascii_of_string (lower a))
                (String.list_ascii_of_string (lower b)).
End Similarity.

(** ** Python values shared by the orchestrator and its consumers *)

(** Truthiness of a [str]: the empty string is falsy. *)
Definition str_truthy (s : string) : bool :=
  match s with
  | EmptyString => false
  | String _ _ => true
  end.

(** Truthiness of a value that is [None] or a [str]. *)
Definition opt_truthy (o : option string) : bool :=
  match o with
  | None => false
  | Some s => str_truthy s
  end.

(** [x < y] on floats *)
Definition Qltb (x y : Q) : bool := negb (Qle_bool y x).

(** [s[:n]] *)
Fixpoint str_take (n : nat) (s : string) : string :=
  match n, s with
  | S n', String c s' => String c (str_take n' s')
  | _, _ => EmptyString
  end.

(** A [dict] with [str] keys, in insertion order. *)
Definition dict (V : Type) : Type := list (string * V).

(** [d.get(k)] *)
Fixpoint dict_get {V : Type} (d : dict V) (k : string) : option V :=
  match d with
  | [] => None
  | (k', v) :: d' => if String.eqb k' k then Some v else dict_get d' k
  end.

(** [d[k] = v]: an existing key keeps its place, a new key goes last. *)
Fixpoint dict_set {V : Type} (d : dict V) (k : string) (v : V) : dict V :=
  match d with
  | [] => [(k, v)]
  | (k', v') :: d' =>
      if String.eqb k' k then (k', v) :: d' else (k', v') :: dict_set d' k v
  end.

(** [d[k].append(x)] on a dict of lists, [k] being a key of [d]. *)
Fixpoint dict_append {V : Type} (d : dict (list V)) (k : string) (x : V)
    : dict (list V) :=
  match d with
  | [] => []
  | (k', l) :: d' =>
      if String.eqb k' k then (k', l ++ [x]) :: d'
      else (k', l) :: dict_append d' k x
  end.

(** ** API key loading *)

(** [s.lstrip(chars)], [s.rstrip(chars)] and [s.strip(chars)]; the
    characters to remove are those that satisfy [p]. *)
Fixpoint lstrip (p : ascii -> bool) (s : string) : string :=
  match s with
  | EmptyString => EmptyString
  | String c s' => if p c then lstrip p s' else s
  end.

Fixpoint rstrip (p : ascii -> bool) (s : string) : string :=
  match s with
  | EmptyString => EmptyString
  | String c s' =>
      match rstrip p s' with
      | EmptyString => if p c then EmptyString else String c EmptyString
      | String c' r => String c (String c' r)
      end
  end.

Definition strip (p : ascii -> bool) (s : string) : string :=
  rstrip p (lstrip p s).

(** [c in s] for a character [c] *)
Fixpoint contains_char (c : ascii) (s : string) : bool :=
  match s with
  | EmptyString => false
  | String c' s' => Ascii.eqb c' c || contains_char c s'
  end.

(** [s.startswith(c)] for a character [c] *)
Definition starts_with_char (c : ascii) (s : string) : bool :=
  match s with
  | EmptyString => false
  | String c' _ => Ascii.eqb c' c
  end.

(** [s.split(c, 1)] for a string [s] that contains [c]: what is before
    the first [c], and what is after it. *)
Fixpoint split_first (c : ascii) (s : string) : string * string :=
  match s with
  | EmptyString => (EmptyString, EmptyString)
  | String c' s' =>
      if Ascii.eqb c' c then (EmptyString, s')
      else let '(k, v) := split_first c s' in (String c' k, v)
  end.

(** The argument of a [strip] that removes one character. *)
Definition is_char (c : ascii) : ascii -> bool := fun c' => Ascii.eqb c' c.

(** The double quote and the single quote. *)
Definition double_quote : ascii := ascii_of_nat 34.
Definition single_quote : ascii := ascii_of_nat 39.

Section LoadEnv.
(** [str.isspace] on a character: what [strip()] removes. *)
Variable is_space : ascii -> bool.

(** [v.strip()], then [strip] of the double quote, then of the single
    quote. *)
Definition unquote (v : string) : string :=
  strip (is_char single_quote)
    (strip (is_char double_quote) (strip is_space v)).

(** The body of the loop over the lines of [.env.local]. *)
Definition read_line (env_lines : gmap string string) (line : string)
    : gmap string string :=
  let line := strip is_space line in
  if contains_char "=" line && negb (starts_with_char "#" line) then
    let '(k, v) := split_first "=" line in
    <[strip is_space k := unquote v]> env_lines
  else env_lines.

(** [env_lines] after the first loop; [env_file] is
    [env_path.read_text().splitlines()], or [None] when the file does not
    exist. *)
Definition read_env_lines (env_file : option (list string))
    : gmap string string :=
  match env_file with
  | None => ∅
  | Some lines => fold_left read_line lines ∅
  end.

(** [os.environ.get(name) or env_lines.get(name, default)], the default
    being the empty string. *)
Definition lookup_key (environ env_lines : gmap string string) (name : string)
    : string :=
  match environ !! name with
  | Some v =>
      if str_truthy v then v else default EmptyString (env_lines !! name)
  | None => default EmptyString (env_lines !! name)
  end.

Definition load_env (environ : gmap string string)
    (env_file : option (list string)) (names : list string)
    : gmap string string :=
  let env_lines := read_env_lines env_file in
  fold_left
    (fun keys name => <[name := lookup_key environ env_lines name]> keys)
    names ∅.
End LoadEnv.

(** [str.isspace] on the ASCII range. *)
Definition ascii_is_space (c : ascii) : bool :=
  let n := nat_of_ascii c in
  (n =? 32) || ((9 <=? n) && (n <=? 13)) || ((28 <=? n) && (n <=? 31)).

(** ** Provider adapters *)

(** A parsed JSON document, as [resp.json()] returns it.  The members of an
    object are in a list; a key is looked up from the front. *)
#[warnings="-register-all"]
Inductive json : Type :=
| JNull
| JBool (b : bool)
| JNum (q : Q)
| JStr (s : string)
| JArr (items : list json)
| JObj (members : list (string * json)).

(** The exception classes that reach the adapters' callers. *)
Inductive exn : Type :=
| RequestsTimeout
| RequestsConnectionError
| OSError
| JSONDecodeError
| KeyError
| IndexError
| TypeError
| AttributeError
| UnboundLocalError.

(** A [requests.Response]: [json_body] is [None] when [resp.json()] raises
    [JSONDecodeError]. *)
Record Response : Type := mkResponse {
  status_code : Z;
  text : string;
  json_body : option json
}.

Inductive http_result : Type :=
| HttpResponse (r : Response)
| HttpRaises (e : exn).

(** What surrounds one adapter invocation: the reading of [time.monotonic()]
    when it starts, whether [open(wav_path, "rb")] fails, how long the k-th
    [requests] call takes and what it yields, and by how much the k-th
    [time.sleep] oversleeps. *)
Record World : Type := mkWorld {
  clock0 : Q;
  open_wav : option exn;
  net : nat -> Q * http_result;
  sleep_extra : nat -> Q
}.

(** The clock is monotonic and [time.sleep(d)] lasts at least [d]. *)
Definition monotonic_world (w : World) : Prop :=
  (forall k, 0 <= (net w k).1)%Q /\ (forall k, 0 <= sleep_extra w k)%Q.

(** The state an invocation threads: the clock, the number of requests and
    of sleeps so far, and the clock reading at which each request was sent
    (latest first). *)
Record St : Type := mkSt {
  now : Q;
  n_requests : nat;
  n_sleeps : nat;
  sent_at : list Q
}.

Definition init_state (w : World) : St := mkSt (clock0 w) 0 0 [].

(** How an invocation ends.  [OutOfFuel] stands for a loop that is still
    running when the model's fuel is spent. *)
Inductive outcome (R : Type) : Type :=
| Returns (r : R)
| Raises (e : exn)
| OutOfFuel.
Arguments Returns {R} r.
Arguments Raises {R} e.
Arguments OutOfFuel {R}.

(** Subscripts, [v[k]], with a [str] key or a non-negative index. *)
Inductive key : Type :=
| KStr (s : string)
| KIdx (n : nat).

Definition subscript (v : json) (k : key) : outcome json :=
  match v, k with
  | JObj ms, KStr s =>
      match dict_get ms s with
      | Some x => Returns x
      | None => Raises KeyError
      end
  | JObj _, KIdx _ => Raises KeyError
  | JArr l, KIdx n =>
      match l !! n with
      | Some x => Returns x
      | None => Raises IndexError
      end
  | JStr s, KIdx n =>
      match String.get n s with
      | Some c => Returns (JStr (String c EmptyString))
      | None => Raises IndexError
      end
  | _, _ => Raises TypeError
  end.

Fixpoint subscripts (v : json) (path : list key) : outcome json :=
  match path with
  | [] => Returns v
  | k :: path' =>
      match subscript v k with
      | Returns x => subscripts x path'
      | Raises e => Raises e
      | OutOfFuel => OutOfFuel
      end
  end.

(** [v == s] for a [str] literal [s] *)
Definition json_is_str (v : json) (s : string) : bool :=
  match v with
  | JStr s' => String.eqb s' s
  | _ => false
  end.

(** Truthiness of a JSON value: [None], [False], zero and the empty
    string, list and dict are falsy. *)
Definition json_truthy (v : json) : bool :=
  match v with
  | JNull => false
  | JBool b => b
  | JNum q => negb (Qeq_bool q 0)
  | JStr s => str_truthy s
  | JArr [] => false
  | JArr (_ :: _) => true
  | JObj [] => false
  | JObj (_ :: _) => true
  end.

(** [len(v)]: the length of a [str] or a list, the number of keys of a
    dict; [None] stands for the [TypeError] that the other values raise. *)
Definition json_len (v : json) : option nat :=
  match v with
  | JStr s => Some (String.length s)
  | JArr l => Some (length l)
  | JObj ms => Some (length (remove_dups (map fst ms)))
  | _ => None
  end.

(** The [str] that [v] is; [None] for the other values, on which
    [v.lower()] raises [AttributeError]. *)
Definition json_str (v : json) : option string :=
  match v with
  | JStr s => Some s
  | _ => None
  end.

(** The adapter's triple [(transcript, latency, error)]. *)
Definition payload : Type := json * Q * option string.

Section Adapters.
Variable w : World.
(** [repr] of a JSON value that is no [str], and [json.dumps]. *)
Variable py_repr : json -> string.
Variable json_dumps : json -> string.

(** [str(v)], as an f-string formats [v] *)
Definition py_str (v : json) : string :=
  match v with
  | JStr s => s
  | _ => py_repr v
  end.

Definition M (R : Type) : Type := St -> outcome R * St.

#[local] Instance M_ret : MRet M := fun R r s => (Returns r, s).

#[local] Instance M_bind : MBind M := fun R R' f m s =>
  match m s with
  | (Returns r, s') => f r s'
  | (Raises e, s') => (Raises e, s')
  | (OutOfFuel, s') => (OutOfFuel, s')
  end.

Definition raise {R : Type} (e : exn) : M R := fun s => (Raises e, s).

Definition out_of_fuel {R : Type} : M R := fun s => (OutOfFuel, s).

Definition lift {R : Type} (o : outcome R) : M R := fun s => (o, s).

(** [time.monotonic()] *)
Definition monotonic : M Q := fun s => (Returns (now s), s).

(** [open(wav_path, "rb")].  The time that opening and reading the file
    take is not modelled: the clock advances in requests and sleeps. *)
Definition open_file : M unit :=
  match open_wav w with
  | None => mret tt
  | Some e => raise e
  end.

(** [requests.post(...)] and [requests.get(...)]: the call lasts as long
    as the world says, then returns a response or raises. *)
Definition http : M Response := fun s =>
  let '(elapsed, result) := net w (n_requests s) in
  let s' := mkSt (now s + elapsed)%Q (S (n_requests s)) (n_sleeps s)
              (now s :: sent_at s) in
  match result with
  | HttpResponse r => (Returns r, s')
  | HttpRaises e => (Raises e, s')
  end.

(** [time.sleep(d)] *)
Definition sleep (d : Q) : M unit := fun s =>
  (Returns tt,
   mkSt (now s + d + sleep_extra w (n_sleeps s))%Q (n_requests s)
     (S (n_sleeps s)) (sent_at s)).

(** [resp.json()] *)
Definition resp_json (resp : Response) : M json :=
  match json_body resp with
  | Some v => mret v
  | None => raise JSONDecodeError
  end.

(** [v.get(k, dflt)]: a [dict] method. *)
Definition json_get (v : json) (k : string) (dflt : json) : M json :=
  match v with
  | JObj ms => mret (default dflt (dict_get ms k))
  | _ => raise AttributeError
  end.

(** [f"{prefix}{resp.status_code}: {resp.text[:200]}"] *)
Definition http_error (prefix : string) (resp : Response) : string :=
  prefix +:+ pretty (status_code resp) +:+ ": " +:+ str_take 200 (text resp).

Definition call_elevenlabs (api_key wav_path : string) : M payload :=
  start ← monotonic;
  _ ← open_file;
  resp ← http;
  t ← monotonic;
  let latency := (t - start)%Q in
  if negb (status_code resp =? 200)%Z
  then mret (JNull, latency, Some (http_error "HTTP " resp))
  else
    data ← resp_json resp;
    transcript ← json_get data "text" (JStr "");
    mret (transcript, latency, None).

Definition call_deepgram (api_key wav_path : string) : M payload :=
  start ← monotonic;
  _ ← open_file;
  resp ← http;
  t ← monotonic;
  let latency := (t - start)%Q in
  if negb (status_code resp =? 200)%Z
  then mret (JNull, latency, Some (http_error "HTTP " resp))
  else
    data ← resp_json resp;
    match subscripts data
            [KStr "results"; KStr "channels"; KIdx 0; KStr "alternatives";
             KIdx 0; KStr "transcript"] with
    | Returns transcript => mret (transcript, latency, None)
    | Raises KeyError | Raises IndexError =>
        mret (JNull, latency,
              Some ("Unexpected response shape: "
                      +:+ str_take 200 (json_dumps data)))
    | Raises e => raise e
    | OutOfFuel => out_of_fuel
    end.

(** Step 3 of [call_assemblyai]: the [while] loop and what follows it.
    [status] is [None] while the local variable is unbound.  One unit of
    [fuel] is spent on each test of the loop condition. *)
Fixpoint poll_loop (fuel : nat) (start : Q) (status : option json)
    : M payload :=
  match fuel with
  | 0 => out_of_fuel
  | S fuel' =>
      t ← monotonic;
      if Qltb t (start + 600)%Q then
        poll_resp ← http;
        if negb (status_code poll_resp =? 200)%Z then
          t ← monotonic;
          mret (JNull, (t - start)%Q,
                Some (http_error "Poll failed HTTP " poll_resp))
        else
          body ← resp_json poll_resp;
          status ← lift (subscript body (KStr "status"));
          if json_is_str status "completed" then
            t ← monotonic;
            body ← resp_json poll_resp;
            transcript ← json_get body "text" (JStr "");
            mret (transcript, (t - start)%Q, None)
          else if json_is_str status "error" then
            t ← monotonic;
            body ← resp_json poll_resp;
            err ← json_get body "error" (JStr "unknown");
            mret (JNull, (t - start)%Q,
                  Some ("Transcription error: " +:+ py_str err))
          else
            _ ← sleep 3;
            poll_loop fuel' start (Some status)
      else
        t ← monotonic;
        match status with
        | None => raise UnboundLocalError
        | Some st =>
            mret (JNull, (t - start)%Q,
                  Some ("Polling timed out after 600s (last status: "
                          +:+ py_str st +:+ ")"))
        end
  end.

(** The loop condition is tested at most 201 times under a monotonic clock
    ([polling_spec_loop]). *)
Definition poll_fuel : nat := 201.

Definition call_assemblyai (api_key wav_path : string) : M payload :=
  start ← monotonic;
  _ ← open_file;
  upload_resp ← http;
  if negb (status_code upload_resp =? 200)%Z then
    t ← monotonic;
    mret (JNull, (t - start)%Q,
          Some (http_error "Upload failed HTTP " upload_resp))
  else
    body ← resp_json upload_resp;
    audio_url ← lift (subscript body (KStr "upload_url"));
    submit_resp ← http;
    if negb (status_code submit_resp =? 200)%Z then
      t ← monotonic;
      mret (JNull, (t - start)%Q,
            Some (http_error "Submit failed HTTP " submit_resp))
    else
      body ← resp_json submit_resp;
      transcript_id ← lift (subscript body (KStr "id"));
      poll_loop poll_fuel start None.
End Adapters.

(** The three closures of the registry, [lambda key, path: call_x(key, path)]. *)
Inductive Adapter : Type :=
| ElevenLabs
| Deepgram
| AssemblyAI.

Definition call_adapter (w : World) (py_repr json_dumps : json -> string)
    (a : Adapter) (api_key wav_path : string) : M payload :=
  match a with
  | ElevenLabs => call_elevenlabs w api_key wav_path
  | Deepgram => call_deepgram w json_dumps api_key wav_path
  | AssemblyAI => call_assemblyai w py_repr api_key wav_path
  end.

(** The path that [call_deepgram] follows into the response. *)
Definition deepgram_path : list key :=
  [KStr "results"; KStr "channels"; KIdx 0; KStr "alternatives"; KIdx 0;
   KStr "transcript"].

(** An adapter's result is an error payload: it returned, with [None] as
    transcript and a non-empty error description. *)
Definition error_payload (o : outcome payload) : Prop :=
  exists latency error,
    o = Returns (JNull, latency, Some error) /\ str_truthy error = true.

(** ** Data model *)

(** The two shapes of run dict that [run_eval] stores:
    [{"iteration", "error", "latency"}] and
    [{"iteration", "transcript", "latency", "chars"}].  The value under
    ["transcript"] is whatever the adapter returned: a [str], [None], or
    any other value that the provider's JSON body held. *)
Inductive RunOutcome : Type :=
| ErrorRun (iteration : nat) (error : string) (latency : Q)
| SuccessRun (iteration : nat) (transcript : json) (latency : Q)
    (chars : nat).

Definition iteration_of (r : RunOutcome) : nat :=
  match r with
  | ErrorRun it _ _ => it
  | SuccessRun it _ _ _ => it
  end.

Definition latency_of (r : RunOutcome) : Q :=
  match r with
  | ErrorRun _ _ l => l
  | SuccessRun _ _ l _ => l
  end.

(** ["transcript" in r] *)
Definition has_transcript_key (r : RunOutcome) : bool :=
  match r with
  | ErrorRun _ _ _ => false
  | SuccessRun _ _ _ _ => true
  end.

(** ["error" in r] *)
Definition has_error_key (r : RunOutcome) : bool :=
  match r with
  | ErrorRun _ _ _ => true
  | SuccessRun _ _ _ _ => false
  end.

(** [r.get("transcript")] *)
Definition get_transcript (r : RunOutcome) : json :=
  match r with
  | ErrorRun _ _ _ => JNull
  | SuccessRun _ t _ _ => t
  end.

(** The transcript field holds a transcript: a [str], possibly empty. *)
Definition transcript_populated (r : RunOutcome) : bool :=
  match r with
  | SuccessRun _ (JStr _) _ _ => true
  | _ => false
  end.

(** The error field holds an error description. *)
Definition error_populated (r : RunOutcome) : bool := has_error_key r.

(** [all_results]: provider name to its runs. *)
Definition ResultSet : Type := dict (list RunOutcome).

(** An entry of [PROVIDERS]; the ["call"] entry is the closure that
    [executor.submit] runs, whose behaviour is [invoke] below. *)
Record Provider : Type := mkProvider { name : string; key_name : string }.

Definition PROVIDERS : list Provider :=
  [ mkProvider "ElevenLabs Scribe v2" "ELEVENLABS_API_KEY";
    mkProvider "Deepgram Nova-3" "DEEPGRAM_API_KEY";
    mkProvider "AssemblyAI Universal-2" "ASSEMBLYAI_API_KEY" ].

(** ** Evaluation orchestrator *)

(** What [future.result()] does: return the adapter's triple
    [(transcript, latency, error)] or raise an [Exception] [e], of which
    [run_eval] uses [str(e)]. *)
Inductive CallResult : Type :=
| Returned (transcript : json) (latency : Q) (error : option string)
| Raised (str_e : string).

(** What [run_eval] prints, and the submissions to the executor. *)
Inductive event : Type :=
| PrintSkipping (names : list string)
| PrintNoKeys
| PrintTesting (names : list string)
| PrintBlank
| PrintIteration (iteration iterations : nat)
| Submit (name : string) (iteration : nat)
| PrintError (name : string) (error80 : string)
| PrintOk (name : string) (latency : Q) (chars : nat).

(** How a call ends: with a value, in [sys.exit(code)], or in an exception
    that nothing catches. *)
Inductive completion (R : Type) : Type :=
| Done (r : R)
| SystemExit (code : nat)
| Uncaught (e : exn).
Arguments Done {R} r.
Arguments SystemExit {R} code.
Arguments Uncaught {R} e.

(** A loop whose body may raise: once it has, the remaining elements are
    skipped.  The state is what was printed so far and the value the loop
    works on; [None] in its place says that the body raised. *)
Fixpoint fold_until {X S : Type}
    (body : list event * S -> X -> list event * option S) (xs : list X)
    (st : list event * S) : list event * option S :=
  match xs with
  | [] => (st.1, Some st.2)
  | x :: xs' =>
      match body st x with
      | (out, Some s) => fold_until body xs' (out, s)
      | (out, None) => (out, None)
      end
  end.

Section RunEval.
(** The adapter invocation of a provider with a key and a path, in a given
    iteration (0-based, as the loop variable). *)
Variable invoke : Provider -> string -> string -> nat -> CallResult.
(** [as_completed(futures)] in a given iteration: the futures, each paired
    with its provider name, in the order in which they complete. *)
Variable as_completed :
  nat -> list (string * CallResult) -> list (string * CallResult).

(** [keys.get(p["key_name"])], as a condition *)
Definition has_key (keys : gmap string string) (p : Provider) : bool :=
  opt_truthy (keys !! key_name p).

Definition active_of (providers : list Provider) (keys : gmap string string)
    : list Provider :=
  List.filter (has_key keys) providers.

Definition skipped_of (providers : list Provider) (keys : gmap string string)
    : list Provider :=
  List.filter (fun p => negb (has_key keys p)) providers.

(** [{p["name"]: [] for p in active}] *)
Definition init_results (active : list Provider) : ResultSet :=
  fold_left (fun d p => dict_set d (name p) []) active [].

(** The body of [for future in as_completed(futures)].  The [try] covers
    [future.result()] only: [len(transcript)] is outside it, and its
    [TypeError] ends [run_eval]. *)
Definition collect (iteration : nat) (st : list event * ResultSet)
    (future : string * CallResult) : list event * option ResultSet :=
  let '(out, all_results) := st in
  let '(name, result) := future in
  let '(transcript, latency, error) :=
    match result with
    | Returned transcript latency error => (transcript, latency, error)
    | Raised str_e => (JNull, 0%Q, Some str_e)
    end in
  if opt_truthy error then
    let error := default EmptyString error in
    (out ++ [PrintError name (str_take 80 error)],
     Some (dict_append all_results name
             (ErrorRun (iteration + 1) error latency)))
  else
    match (if json_truthy transcript then json_len transcript else Some 0)
    with
    | None => (out, None)
    | Some chars =>
        (out ++ [PrintOk name latency chars],
         Some (dict_append all_results name
                 (SuccessRun (iteration + 1) transcript latency chars)))
    end.

(** The body of [for iteration in range(iterations)]. *)
Definition run_iteration (active : list Provider) (keys : gmap string string)
    (wav_path : string) (iterations : nat) (st : list event * ResultSet)
    (iteration : nat) : list event * option ResultSet :=
  let '(out, all_results) := st in
  let out :=
    if 1 <? iterations then out ++ [PrintIteration (iteration + 1) iterations]
    else out in
  let futures :=
    map (fun p =>
           (name p,
            invoke p (default EmptyString (keys !! key_name p)) wav_path
              iteration))
        active in
  let out := out ++ map (fun p => Submit (name p) iteration) active in
  fold_until (collect iteration) (as_completed iteration futures)
    (out, all_results).

Definition run_eval (providers : list Provider) (keys : gmap string string)
    (wav_path : string) (iterations : nat)
    : list event * completion ResultSet :=
  let active := active_of providers keys in
  let skipped := skipped_of providers keys in
  let out :=
    match skipped with
    | [] => []
    | _ :: _ => [PrintSkipping (map name skipped)]
    end in
  match active with
  | [] => (out ++ [PrintNoKeys], SystemExit 1)
  | _ :: _ =>
      let out := out ++ [PrintTesting (map name active); PrintBlank] in
      match fold_until (run_iteration active keys wav_path iterations)
              (seq 0 iterations) (out, init_results active)
      with
      | (out, Some all_results) => (out, Done all_results)
      | (out, None) => (out, Uncaught TypeError)
      end
  end.
End RunEval.

(** ** Consensus engine *)

Section Consensus.
Variable lower : string -> string.
(** A Python float is modelled by the rational number that it is, so
    that floats compare as these numbers do.  Float arithmetic is not
    exact: [round q] is the float that an operation with exact result [q]
    yields, and [fsum] is the built-in [sum] on a sequence of floats, whose
    rounding depends on the interpreter's summation algorithm.  Both are
    parameters. *)
Variable round : Q -> Q.
Variable fsum : list Q -> Q.

(** The first loop of [compute_consensus]: the pool of transcripts. *)
Definition pool_of_runs (runs : list RunOutcome) : list json :=
  omap (fun run =>
          if json_truthy (get_transcript run) then Some (get_transcript run)
          else None)
       runs.

Definition pool (results : ResultSet) : list json :=
  concat (map (fun entry => pool_of_runs entry.2) results).

(** [sum(similarity(t, other) for other in transcripts)]; [similarity]
    returns the quotient [2.0 * matches / length] as a float. *)
Definition score (transcripts : list string) (t : string) : Q :=
  fsum (map (fun other => round (similarity lower t other)) transcripts).

(** [for t in transcripts: ... if score > best_score: ...] *)
Fixpoint best_loop (transcripts : list string) (ts : list string)
    (best_score : Q) (best : string) : string :=
  match ts with
  | [] => best
  | t :: ts' =>
      if Qltb best_score (score transcripts t)
      then best_loop transcripts ts' (score transcripts t) t
      else best_loop transcripts ts' best_score best
  end.

(** The first pass of the outer loop calls [similarity(t, other)] with
    every member of the pool as [other], and [similarity] lower-cases both
    arguments: a member that is no [str] raises [AttributeError] there,
    before any score is compared.  [None] stands for that exception. *)
Definition compute_consensus (results : ResultSet) : option string :=
  transcripts ← mapM json_str (pool results);
  match transcripts with
  | [] => Some EmptyString
  | t0 :: _ => Some (best_loop transcripts transcripts (-1)%Q t0)
  end.
End Consensus.

(** *** Two arithmetics for the scores *)

(** Exact arithmetic: nothing is rounded. *)
Definition unrounded (q : Q) : Q := q.

(** The integer nearest to [n / d], ties to even; [0 <= n] and [0 < d]. *)
Definition nearest_even (n d : Z) : Z :=
  let q := (n / d)%Z in
  match (2 * (n mod d) ?= d)%Z with
  | Lt => q
  | Gt => (q + 1)%Z
  | Eq => if Z.even q then q else (q + 1)%Z
  end.

(** [n / d] divided by [2 ^ e], as a fraction. *)
Definition scale (n d e : Z) : Z * Z :=
  if (0 <=? e)%Z then (n, (d * 2 ^ e)%Z) else ((n * 2 ^ (- e))%Z, d).

(** The binary64 number nearest to [n / d] for [0 < n] and [0 < d]: a
    significand [m] of 53 bits times [2 ^ e].  The numbers rounded here
    are far from the thresholds of overflow and of gradual underflow. *)
Definition round64_pos (n d : Z) : Q :=
  let e0 := (Z.log2 n - Z.log2 d - 52)%Z in
  let e := if ((scale n d e0).1 / (scale n d e0).2 <? 2 ^ 52)%Z
           then (e0 - 1)%Z else e0 in
  let m := nearest_even (scale n d e).1 (scale n d e).2 in
  if (0 <=? e)%Z then inject_Z (m * 2 ^ e)
  else Qmake m (Z.to_pos (2 ^ (- e))).

(** IEEE 754 binary64, rounding to nearest, ties to even: the arithmetic
    of a Python float. *)
Definition round64 (q : Q) : Q :=
  match Qnum q with
  | Z0 => 0%Q
  | Zpos n => round64_pos (Zpos n) (Zpos (Qden q))
  | Zneg n => Qopp (round64_pos (Zpos n) (Zpos (Qden q)))
  end.

(** [sum] as CPython computes it up to version 3.11: the floats are
    added from left to right, each addition rounded.  From version 3.12
    on, [sum] carries a compensation term and can round otherwise. *)
Definition fsum64 (l : list Q) : Q :=
  fold_left (fun acc x => round64 (acc + x)%Q) l 0%Q.

(** ** Report generator: the latency and quality table *)

(** [(name, avg_lat, min_lat, avg_chars, avg_sim, len(errors), len(runs))] *)
Record Summary : Type := mkSummary {
  s_name : string;
  s_avg_lat : Q;
  s_min_lat : Q;
  s_avg_chars : Q;
  s_avg_sim : Q;
  s_errors : nat;
  s_total : nat
}.

(** A line of the table: all cells but the last are a dash, or the
    statistics are shown. *)
Inductive Row : Type :=
| RowUnavailable (name : string) (errs total : nat)
| RowStats (name : string) (avg_lat min_lat chars sim : Q) (errs total : nat).

(** [sum(...)], computed exactly *)
Definition Qsum (l : list Q) : Q := fold_left Qplus l 0%Q.

(** [min(...)] over a non-empty sequence of floats, [x] being the first *)
Definition Qmin_list (x : Q) (l : list Q) : Q :=
  fold_left (fun m y => if Qltb y m then y else m) l x.

(** [len(l)] as a float divisor *)
Definition Qlen {X : Type} (l : list X) : Q := inject_Z (Z.of_nat (length l)).

(** [r["chars"]] of a success *)
Definition chars_of (r : RunOutcome) : nat :=
  match r with
  | ErrorRun _ _ _ => 0
  | SuccessRun _ _ _ chars => chars
  end.

Section Report.
Variable lower : string -> string.

(** [sum(similarity(r["transcript"], consensus) for r in successes)];
    [None] stands for the [AttributeError] that [a.lower()] raises when a
    transcript is no [str]. *)
Fixpoint sim_sum (successes : list RunOutcome) (consensus : string) (acc : Q)
    : option Q :=
  match successes with
  | [] => Some acc
  | r :: rest =>
      match json_str (get_transcript r) with
      | None => None
      | Some t => sim_sum rest consensus (acc + similarity lower t consensus)%Q
      end
  end.

(** The body of [for name, runs in results.items()].  The means are
    computed exactly, where the code divides a float sum; the counts, the
    minimum and the exceptions do not depend on it. *)
Definition summarize (consensus : string) (entry : string * list RunOutcome)
    : option Summary :=
  let '(name, runs) := entry in
  let successes := List.filter has_transcript_key runs in
  let errors := List.filter has_error_key runs in
  match successes with
  | [] => Some (mkSummary name 999 999 0 0 (length errors) (length runs))
  | r0 :: _ =>
      let avg_lat := (Qsum (map latency_of successes) / Qlen successes)%Q in
      let min_lat := Qmin_list (latency_of r0) (map latency_of successes) in
      let avg_chars :=
        (Qsum (map (fun r => inject_Z (Z.of_nat (chars_of r))) successes)
         / Qlen successes)%Q in
      avg_sim ←
        (if str_truthy consensus
         then s ← sim_sum successes consensus 0%Q; Some (s / Qlen successes)%Q
         else Some 0%Q);
      Some (mkSummary name avg_lat min_lat avg_chars avg_sim
              (length errors) (length runs))
  end.

(** [summaries.sort(key=lambda x: x[1])]: a stable sort on [avg_lat]. *)
Fixpoint insert_summary (x : Summary) (l : list Summary) : list Summary :=
  match l with
  | [] => [x]
  | y :: l' =>
      if Qle_bool (s_avg_lat x) (s_avg_lat y) then x :: l
      else y :: insert_summary x l'
  end.

Definition sort_summaries (l : list Summary) : list Summary :=
  foldr insert_summary [] l.

(** The choice made by [if avg_lat == 999]. *)
Definition row_of (s : Summary) : Row :=
  if Qeq_bool (s_avg_lat s) 999
  then RowUnavailable (s_name s) (s_errors s) (s_total s)
  else RowStats (s_name s) (s_avg_lat s) (s_min_lat s) (s_avg_chars s)
         (s_avg_sim s) (s_errors s) (s_total s).

(** The table of [generate_report], between the header and the cost
    projection. *)
Definition summary_table (results : ResultSet) (consensus : string)
    : option (list Row) :=
  summaries ← mapM (summarize consensus) results;
  Some (map row_of (sort_summaries summaries)).

(** The formatting of floats by [:.2f], [:.0f] and [:.1%]. *)
Variables fmt_2f fmt_0f fmt_pct : Q -> string.

Definition render_row (r : Row) : string :=
  match r with
  | RowUnavailable name errs total =>
      "| " +:+ name +:+ " | — | — | — | — | "
        +:+ pretty errs +:+ "/" +:+ pretty total +:+ " |"
  | RowStats name avg_lat min_lat chars sim errs total =>
      "| **" +:+ name +:+ "** | " +:+ fmt_2f avg_lat +:+ "s | "
        +:+ fmt_2f min_lat +:+ "s | " +:+ fmt_0f chars +:+ " | "
        +:+ fmt_pct sim +:+ " | " +:+ pretty errs +:+ "/" +:+ pretty total
        +:+ " |"
  end.
End Report.

(** * Properties *)

(** ** The scorer on small inputs *)

Example similarity_tide_diet :
  similarity ascii_lower "tide" "diet" = (2 * 1 / 8)%Q.
Proof. vm_compute. reflexivity. Qed.

Example similarity_diet_tide :
  similarity ascii_lower "Diet" "tidE" = (2 * 2 / 8)%Q.
Proof. vm_compute. reflexivity. Qed.

Example similarity_abcd_bcde :
  (similarity ascii_lower "abcd" "bcde" == 3 # 4)%Q.
Proof. vm_compute. reflexivity. Qed.

(** ** The matcher on equal sequences *)

Section SelfMatch.
Context {A : Type} `{EqDecision A}.
Import Difflib.

Lemma indices_from_app (elt : A) (s : nat) (l1 l2 : list A) :
  indices_from elt s (l1 ++ l2)
  = indices_from elt s l1 ++ indices_from elt (s + length l1) l2.
Proof.
  revert s. induction l1 as [|x l1 IH]; intros s; simpl.
  - by rewrite Nat.add_0_r.
  - rewrite IH. replace (S s + length l1) with (s + S (length l1)) by lia.
    by destruct (decide (x = elt)).
Qed.

Lemma indices_from_range (elt : A) (s : nat) (l : list A) :
  Forall (fun j => s <= j < s + length l) (indices_from elt s l).
Proof.
  revert s. induction l as [|x l IH]; intros s; simpl; [constructor|].
  assert (Forall (fun j => s <= j < s + S (length l)) (indices_from elt (S s) l)).
  { eapply Forall_impl; [apply IH|]. simpl. intros; lia. }
  destruct (decide (x = elt)); [constructor; [lia|done]|done].
Qed.

(** The positions of [l[i]] in [l]: some before [i], then [i], then some
    after it. *)
Lemma indices_split (l : list A) (i : nat) (x : A) :
  l !! i = Some x ->
  exists js1 js2,
    indices x l = js1 ++ i :: js2
    /\ Forall (fun j => j < i) js1
    /\ Forall (fun j => i < j < length l) js2.
Proof.
  intros Hi.
  pose proof (lookup_lt_Some _ _ _ Hi) as Hlt.
  pose proof (take_drop_middle _ _ _ Hi) as Hl.
  exists (indices_from x 0 (take i l)), (indices_from x (S i) (drop (S i) l)).
  assert (Hlen : length (take i l) = i) by (rewrite length_take; lia).
  split; [|split].
  - unfold indices. rewrite <- Hl at 1.
    rewrite indices_from_app, Hlen. simpl.
    by destruct (decide (x = x)).
  - eapply Forall_impl; [apply indices_from_range|]. simpl. intros; lia.
  - eapply Forall_impl; [apply indices_from_range|]. simpl.
    rewrite length_drop. intros; lia.
Qed.

Lemma indices_lookup (l : list A) (x : A) (j : nat) :
  j ∈ indices x l -> l !! j = Some x.
Proof.
  unfold indices. assert (Hgen : forall s, j ∈ indices_from x s l -> l !! (j - s) = Some x /\ s <= j).
  { induction l as [|y l IH]; intros s; simpl; [by intros ?%elem_of_nil|].
    destruct (decide (y = x)) as [->|].
    - intros [->|Hin]%elem_of_cons.
      + by rewrite Nat.sub_diag.
      + destruct (IH _ Hin) as [? ?].
        replace (j - s) with (S (j - S s)) by lia. split; [done|lia].
    - intros Hin. destruct (IH _ Hin) as [? ?].
      replace (j - s) with (S (j - S s)) by lia. split; [done|lia]. }
  intros Hin. destruct (Hgen 0 Hin) as [Hl _]. by rewrite Nat.sub_0_r in Hl.
Qed.

(** *** The inner loop on indices within [[blo, bhi)] *)

Definition cell (j2len : gmap nat nat) (j : nat) : nat :=
  j2lenget_pred j2len j + 1.

Lemma scan_row_app i blo bhi j2len js1 js2 nj best :
  Forall (fun j => blo <= j < bhi) js1 ->
  scan_row i blo bhi j2len (js1 ++ js2) nj best
  = scan_row i blo bhi j2len js2
      (scan_row i blo bhi j2len js1 nj best).1
      (scan_row i blo bhi j2len js1 nj best).2.
Proof.
  intros Hr. revert nj best.
  induction Hr as [|j js1 [Hlo Hhi] _ IH]; intros nj best; simpl; [done|].
  destruct (Nat.ltb_spec j blo); [lia|].
  destruct (Nat.leb_spec bhi j); [lia|].
  apply IH.
Qed.

Lemma scan_row_small i blo bhi j2len js nj best :
  Forall (fun j => blo <= j < bhi /\ cell j2len j <= m_size best) js ->
  (scan_row i blo bhi j2len js nj best).2 = best.
Proof.
  intros Hr. revert nj.
  induction Hr as [|j js [[Hlo Hhi] Hk] _ IH]; intros nj; simpl; [done|].
  destruct (Nat.ltb_spec j blo); [lia|].
  destruct (Nat.leb_spec bhi j); [lia|].
  unfold cell in Hk.
  destruct (Nat.ltb_spec (m_size best) (j2lenget_pred j2len j + 1)); [lia|].
  apply IH.
Qed.

Lemma scan_row_lookup i blo bhi j2len js nj best j v :
  (scan_row i blo bhi j2len js nj best).1 !! j = Some v ->
  (j ∈ js /\ v = cell j2len j) \/ nj !! j = Some v.
Proof.
  revert nj best. induction js as [|j' js IH]; intros nj best; simpl; [by right|].
  destruct (j' <? blo).
  { intros [[? ?]|?]%IH; [left; split; [by right|done]|by right]. }
  destruct (bhi <=? j'); [by right|].
  intros [[? ?]|Hl]%IH; [left; split; [by right|done]|].
  destruct (decide (j' = j)) as [->|Hne].
  - rewrite lookup_insert_eq in Hl. left. split; [by left|].
    unfold cell. congruence.
  - rewrite lookup_insert_ne in Hl by done. by right.
Qed.

Lemma scan_row_lookup_keep i blo bhi j2len js nj best j v :
  j ∉ js -> nj !! j = Some v ->
  (scan_row i blo bhi j2len js nj best).1 !! j = Some v.
Proof.
  revert nj best. induction js as [|j' js IH]; intros nj best Hjs Hn; simpl; [done|].
  apply not_elem_of_cons in Hjs as [Hne Hjs].
  destruct (j' <? blo); [by apply IH|].
  destruct (bhi <=? j'); [done|].
  apply IH; [done|]. by rewrite lookup_insert_ne.
Qed.

Lemma scan_row_lookup_in i blo bhi j2len js nj best j :
  Forall (fun j => blo <= j < bhi) js ->
  j ∈ js ->
  (scan_row i blo bhi j2len js nj best).1 !! j = Some (cell j2len j).
Proof.
  intros Hr. revert nj best.
  induction Hr as [|j' js [Hlo Hhi] Hr IH]; intros nj best Hin; simpl;
    [by apply elem_of_nil in Hin|].
  destruct (Nat.ltb_spec j' blo); [lia|].
  destruct (Nat.leb_spec bhi j'); [lia|].
  destruct (decide (j ∈ js)) as [Hjs|Hjs]; [by apply IH|].
  apply elem_of_cons in Hin as [->|?]; [|done].
  apply scan_row_lookup_keep; [done|]. apply lookup_insert_eq.
Qed.

(** *** The main loop when both sequences are [l] *)

Variable l : list A.

(** The number of non-popular elements of [l] that end just before
    position [i]. *)
Fixpoint tailrun (i : nat) : nat :=
  match i with
  | 0 => 0
  | S i' =>
      match l !! i' with
      | Some x => if popular l x then 0 else S (tailrun i')
      | None => 0
      end
  end.

Lemma tailrun_le i : tailrun i <= i.
Proof.
  induction i as [|i IH]; simpl; [done|].
  destruct (l !! i) as [x|]; [|lia]. destruct (popular l x); lia.
Qed.

(** What [j2len] holds when row [i] starts. *)
Definition row_inv (i : nat) (j2len : gmap nat nat) : Prop :=
  (forall j v, j2len !! j = Some v -> v <= tailrun (S j) /\ v <= tailrun i)
  /\ j2lenget_pred j2len i = tailrun i.

(** What [besti, bestj, bestsize] hold when row [i] starts: the best match
    lies on the diagonal. *)
Definition best_inv (i : nat) (best : Match) : Prop :=
  m_a best = m_b best
  /\ (forall i', i' <= i -> tailrun i' <= m_size best)
  /\ m_a best + m_size best <= i.

Lemma cell_bound i j x j2len :
  row_inv i j2len -> l !! j = Some x -> popular l x = false ->
  cell j2len j <= S (tailrun j) /\ cell j2len j <= S (tailrun i).
Proof.
  intros [Hv _] Hj Hp. unfold cell, j2lenget_pred.
  destruct j as [|j']; [lia|].
  destruct (j2len !! j') as [v|] eqn:E; cbn -[tailrun]; [|lia].
  destruct (Hv _ _ E). lia.
Qed.

Lemma row_self i x j2len best :
  l !! i = Some x -> row_inv i j2len -> best_inv i best ->
  row_inv (S i) (scan_row i 0 (length l) j2len (b2j l x) ∅ best).1
  /\ best_inv (S i) (scan_row i 0 (length l) j2len (b2j l x) ∅ best).2.
Proof.
  intros Hi Hrow (Hdiag & Hmax & Hend).
  pose proof (lookup_lt_Some _ _ _ Hi) as Hlt.
  unfold b2j. destruct (popular l x) eqn:Hp; simpl.
  { split; [split|split; [done|split]].
    - intros j v. by rewrite lookup_empty.
    - simpl. by rewrite lookup_empty, Hi, Hp.
    - intros i' Hi'. destruct (decide (i' = S i)) as [->|].
      + simpl. rewrite Hi, Hp. lia.
      + apply Hmax. lia.
    - lia. }
  assert (HS : tailrun (S i) = S (tailrun i)) by (simpl; by rewrite Hi, Hp).
  destruct (indices_split l i x Hi) as (js1 & js2 & Hjs & H1 & H2).
  assert (Hin : forall j, j ∈ indices x l -> j < length l).
  { intros j Hj. apply indices_lookup in Hj. by eapply lookup_lt_Some. }
  assert (Hcell : forall j, j ∈ indices x l ->
            cell j2len j <= tailrun (S j) /\ cell j2len j <= tailrun (S i)).
  { intros j Hj. apply indices_lookup in Hj.
    destruct (cell_bound i j x j2len Hrow Hj Hp).
    rewrite HS. simpl. rewrite Hj, Hp. lia. }
  assert (Hrange : Forall (fun j => 0 <= j < length l) (indices x l)).
  { apply Forall_forall. intros j Hj. split; [lia|by apply Hin]. }
  assert (Hki : cell j2len i = tailrun (S i)).
  { destruct Hrow as [_ Hp2]. unfold cell. rewrite Hp2. lia. }
  split.
  - split.
    + intros j v [[Hj ->]|Hl]%scan_row_lookup; [by apply Hcell|].
      by rewrite lookup_empty in Hl.
    + simpl. rewrite scan_row_lookup_in; [done|done|].
      rewrite Hjs. apply elem_of_app. right. by left.
  - rewrite Hjs in *. rewrite scan_row_app.
    2:{ eapply Forall_impl; [exact H1|]. simpl. intros; lia. }
    assert (E1 : (scan_row i 0 (length l) j2len js1 ∅ best).2 = best).
    { apply scan_row_small. apply Forall_forall. intros j Hj.
      pose proof (proj1 (Forall_forall _ _) H1 j Hj) as Hji. simpl in Hji.
      split; [lia|].
      destruct (Hcell j) as [Hc _]; [apply elem_of_app; by left|].
      etrans; [exact Hc|]. apply Hmax. lia. }
    destruct (scan_row i 0 (length l) j2len js1 ∅ best) as [nj1 b1].
    simpl in E1. subst b1. cbn [fst snd scan_row].
    destruct (Nat.ltb_spec i 0); [lia|].
    destruct (Nat.leb_spec (length l) i); [lia|].
    fold (cell j2len i). rewrite Hki.
    rewrite scan_row_small.
    2:{ apply Forall_forall. intros j Hj.
        pose proof (proj1 (Forall_forall _ _) H2 j Hj) as Hji. simpl in Hji.
        split; [lia|].
        destruct (Hcell j) as [_ Hc]; [apply elem_of_app; right; by right|].
        etrans; [exact Hc|].
        destruct (Nat.ltb_spec (m_size best) (tailrun (S i)));
          cbn [m_size]; lia. }
    pose proof (tailrun_le (S i)) as Hle.
    destruct (Nat.ltb_spec (m_size best) (tailrun (S i)));
      unfold best_inv; cbn [m_a m_b m_size].
    + split; [done|split; [|lia]].
      intros i' Hi'. destruct (decide (i' = S i)) as [->|]; [done|].
      etrans; [apply Hmax; lia|lia].
    + split; [done|split; [|lia]].
      intros i' Hi'. destruct (decide (i' = S i)) as [->|]; [done|].
      apply Hmax; lia.
Qed.

Lemma main_loop_self m : forall i j2len best,
  i + m = length l -> row_inv i j2len -> best_inv i best ->
  best_inv (length l) (main_loop l l (seq i m) 0 (length l) j2len best).
Proof.
  induction m as [|m IH]; intros i j2len best Hlen Hrow Hbest; simpl.
  - by replace (length l) with i by lia.
  - destruct (l !! i) as [x|] eqn:Hi.
    2:{ apply lookup_ge_None in Hi. lia. }
    destruct (row_self i x j2len best Hi Hrow Hbest) as [Hrow' Hbest'].
    destruct (scan_row i 0 (length l) j2len (b2j l x) ∅ best) as [nj best'].
    apply IH; [lia|done|done].
Qed.

(** *** The extension loops *)

Lemma extends_junk (a b : list A) i j : extends a b true i j = false.
Proof. unfold extends. by destruct (a !! i), (b !! j). Qed.

Lemma extend_left_junk (a b : list A) alo blo n m :
  extend_left a b true alo blo n m = m.
Proof.
  destruct n; simpl; [done|].
  by rewrite extends_junk, andb_false_r.
Qed.

Lemma extend_right_junk (a b : list A) ahi bhi n m :
  extend_right a b true ahi bhi n m = m.
Proof.
  destruct n; simpl; [done|].
  by rewrite extends_junk, andb_false_r.
Qed.

Lemma extends_self i : i < length l -> extends l l false i i = true.
Proof.
  intros Hi. unfold extends.
  destruct (lookup_lt_is_Some_2 l i Hi) as [x ->]. simpl.
  by apply bool_decide_eq_true.
Qed.

Lemma extend_left_self n : forall s,
  n + s <= length l ->
  extend_left l l false 0 0 n (mkMatch n n s) = mkMatch 0 0 (s + n).
Proof.
  induction n as [|n IH]; intros s Hs; simpl.
  - by rewrite Nat.add_0_r.
  - rewrite Nat.sub_0_r, extends_self by lia. simpl.
    rewrite IH by lia. f_equal. lia.
Qed.

Lemma extend_right_self n : forall s,
  s + n = length l ->
  extend_right l l false (length l) (length l) n (mkMatch 0 0 s)
  = mkMatch 0 0 (length l).
Proof.
  induction n as [|n IH]; intros s Hs; simpl.
  - f_equal. lia.
  - destruct (Nat.ltb_spec s (length l)); [|lia]. simpl.
    rewrite extends_self by lia. apply IH. lia.
Qed.

Lemma find_longest_match_self :
  find_longest_match l l 0 (length l) 0 (length l) = mkMatch 0 0 (length l).
Proof.
  unfold find_longest_match. rewrite Nat.sub_0_r.
  assert (Hb : best_inv (length l)
           (main_loop l l (seq 0 (length l)) 0 (length l) ∅ (mkMatch 0 0 0))).
  { apply main_loop_self; [done| |].
    - split; [intros j v; by rewrite lookup_empty|done].
    - split; [done|split; [|simpl; lia]].
      intros i' Hi'. replace i' with 0 by lia. simpl. lia. }
  destruct (main_loop l l (seq 0 (length l)) 0 (length l) ∅ (mkMatch 0 0 0))
    as [bi bj bs].
  destruct Hb as (Hd & _ & Hend). simpl in *. subst bj.
  rewrite extend_left_self by lia. simpl.
  rewrite extend_right_self by lia.
  by rewrite extend_left_junk, extend_right_junk.
Qed.

Lemma blocks_loop_nil (a b : list A) fuel acc :
  blocks_loop a b fuel [] acc = Some acc.
Proof. by destruct fuel. Qed.

(** A sequence matched against itself is one block: the whole of it. *)
Lemma matches_self : matches l l = length l.
Proof.
  unfold matches, get_matching_blocks, raw_blocks.
  destruct (decide (length l = 0)) as [Hz|Hnz].
  - apply length_zero_iff_nil in Hz. rewrite Hz. reflexivity.
  - replace (2 * length l + 1) with (S (2 * length l)) by lia.
    cbn [blocks_loop]. rewrite find_longest_match_self. cbn [m_a m_b m_size].
    destruct (Nat.eqb_spec (length l) 0); [done|].
    rewrite !Nat.ltb_irrefl. cbn [andb].
    rewrite blocks_loop_nil. simpl. unfold flush.
    destruct (Nat.eqb_spec (length l) 0); [done|]. simpl. lia.
Qed.

Lemma ratio_self : (ratio l l == 1)%Q.
Proof.
  unfold ratio, calculate_ratio. rewrite matches_self.
  destruct (Nat.eqb_spec (length l + length l) 0) as [|Hnz]; [reflexivity|].
  rewrite Nat2Z.inj_add, inject_Z_plus.
  assert (Hpos : (0 < inject_Z (Z.of_nat (length l)))%Q).
  { replace 0%Q with (inject_Z 0) by done. rewrite <- Zlt_Qlt. lia. }
  field. lra.
Qed.

End SelfMatch.

(** ** Termination of [get_matching_blocks] *)

Section MatcherTermination.
Context {A : Type} `{EqDecision A}.
Import Difflib.

Variables a b : list A.

Lemma cell_le (j2len : gmap nat nat) (j n : nat) :
  (forall j' v, j2len !! j' = Some v -> v <= n) -> cell j2len j <= S n.
Proof.
  intros Hv. unfold cell, j2lenget_pred. destruct j as [|j']; [lia|].
  destruct (j2len !! j') as [v|] eqn:E; simpl; [|lia].
  specialize (Hv _ _ E). lia.
Qed.

(** The best match found in row [i] starts at or after [alo] and ends at or
    before [i]. *)
Lemma scan_row_best i alo blo bhi j2len js : forall nj best,
  alo <= i ->
  (forall j v, j2len !! j = Some v -> v <= i - alo) ->
  alo <= m_a best -> m_a best + m_size best <= S i ->
  alo <= m_a (scan_row i blo bhi j2len js nj best).2
  /\ m_a (scan_row i blo bhi j2len js nj best).2
     + m_size (scan_row i blo bhi j2len js nj best).2 <= S i.
Proof.
  intros nj best Hi Hv. revert nj best.
  induction js as [|j js IH]; intros nj best Ha Hs; simpl; [done|].
  destruct (j <? blo); [by apply IH|].
  destruct (bhi <=? j); [done|].
  pose proof (cell_le j2len j (i - alo) Hv) as Hc. unfold cell in Hc.
  destruct (Nat.ltb_spec (m_size best) (j2lenget_pred j2len j + 1));
    apply IH; simpl; lia.
Qed.

Lemma main_loop_best alo blo bhi m : forall i j2len best,
  alo <= i ->
  (forall j v, j2len !! j = Some v -> v <= i - alo) ->
  alo <= m_a best -> m_a best + m_size best <= i ->
  alo <= m_a (main_loop a b (seq i m) blo bhi j2len best)
  /\ m_a (main_loop a b (seq i m) blo bhi j2len best)
     + m_size (main_loop a b (seq i m) blo bhi j2len best) <= i + m.
Proof.
  induction m as [|m IH]; intros i j2len best Hi Hv Ha Hs; simpl; [lia|].
  set (js := match a !! i with Some x => b2j b x | None => [] end).
  pose proof (scan_row_best i alo blo bhi j2len js ∅ best Hi Hv Ha) as Hb.
  assert (Hnj : forall j v,
            (scan_row i blo bhi j2len js ∅ best).1 !! j = Some v ->
            v <= S i - alo).
  { intros j v [[_ ->]|Hl]%scan_row_lookup; [|by rewrite lookup_empty in Hl].
    pose proof (cell_le j2len j (i - alo) Hv). lia. }
  destruct (scan_row i blo bhi j2len js ∅ best) as [nj best'].
  cbn [fst snd] in *. destruct Hb as [Ha' Hs']; [lia|].
  replace (i + S m) with (S i + m) by lia.
  apply IH; [lia|done|done|done].
Qed.

Lemma extend_left_best junk alo blo ahi n : forall m,
  alo <= m_a m -> m_a m + m_size m <= ahi ->
  alo <= m_a (extend_left a b junk alo blo n m)
  /\ m_a (extend_left a b junk alo blo n m)
     + m_size (extend_left a b junk alo blo n m) <= ahi.
Proof.
  induction n as [|n IH]; intros m Ha Hs; simpl; [done|].
  destruct (Nat.ltb_spec alo (m_a m)); simpl; [|done].
  destruct ((blo <? m_b m) && extends a b junk (m_a m - 1) (m_b m - 1));
    [|done].
  apply IH; simpl; lia.
Qed.

Lemma extend_right_best junk alo ahi bhi n : forall m,
  alo <= m_a m -> m_a m + m_size m <= ahi ->
  alo <= m_a (extend_right a b junk ahi bhi n m)
  /\ m_a (extend_right a b junk ahi bhi n m)
     + m_size (extend_right a b junk ahi bhi n m) <= ahi.
Proof.
  induction n as [|n IH]; intros m Ha Hs; simpl; [done|].
  destruct (Nat.ltb_spec (m_a m + m_size m) ahi); simpl; [|done].
  destruct ((m_b m + m_size m <? bhi)
            && extends a b junk (m_a m + m_size m) (m_b m + m_size m));
    [|done].
  apply IH; simpl; lia.
Qed.

(** The match that [find_longest_match] returns lies within [[alo, ahi)]. *)
Lemma find_longest_match_range alo ahi blo bhi :
  alo <= ahi ->
  alo <= m_a (find_longest_match a b alo ahi blo bhi)
  /\ m_a (find_longest_match a b alo ahi blo bhi)
     + m_size (find_longest_match a b alo ahi blo bhi) <= ahi.
Proof.
  intros Hle. unfold find_longest_match.
  destruct (main_loop_best alo blo bhi (ahi - alo) alo ∅ (mkMatch alo blo 0))
    as [H1 H2]; [done|intros j v; by rewrite lookup_empty|simpl; lia ..|].
  replace (alo + (ahi - alo)) with ahi in H2 by lia.
  set (m0 := main_loop a b (seq alo (ahi - alo)) blo bhi ∅ (mkMatch alo blo 0))
    in *.
  destruct (extend_left_best false alo blo ahi (m_a m0) m0 H1 H2) as [H3 H4].
  set (m1 := extend_left a b false alo blo (m_a m0) m0) in *.
  destruct (extend_right_best false alo ahi bhi
              (ahi - (m_a m1 + m_size m1)) m1 H3 H4) as [H5 H6].
  set (m2 := extend_right a b false ahi bhi (ahi - (m_a m1 + m_size m1)) m1)
    in *.
  destruct (extend_left_best true alo blo ahi (m_a m2) m2 H5 H6) as [H7 H8].
  set (m3 := extend_left a b true alo blo (m_a m2) m2) in *.
  by apply extend_right_best.
Qed.

(** The work that a queue still stands for. *)
Definition queue_weight (queue : list (nat * nat * nat * nat)) : nat :=
  foldr (fun r acc => 2 * (r.1.1.2 - r.1.1.1) + 1 + acc) 0 queue.

Lemma blocks_loop_enough fuel : forall queue acc,
  Forall (fun r : nat * nat * nat * nat => r.1.1.1 <= r.1.1.2) queue ->
  queue_weight queue <= fuel ->
  is_Some (blocks_loop a b fuel queue acc).
Proof.
  induction fuel as [|fuel IH]; intros queue acc Hq Hw.
  - destruct queue as [|[[[alo ahi] blo] bhi] queue]; [by eexists|].
    simpl in Hw. lia.
  - destruct queue as [|[[[alo ahi] blo] bhi] queue]; [by eexists|].
    apply Forall_cons in Hq as [Hr Hq]. simpl in Hr, Hw.
    cbn [blocks_loop].
    destruct (find_longest_match_range alo ahi blo bhi Hr) as [H1 H2].
    set (x := find_longest_match a b alo ahi blo bhi) in *.
    destruct (Nat.eqb_spec (m_size x) 0) as [Hk|Hk].
    { apply IH; [done|lia]. }
    destruct (Nat.ltb_spec alo (m_a x)), (Nat.ltb_spec blo (m_b x));
      destruct (Nat.ltb_spec (m_a x + m_size x) ahi),
               (Nat.ltb_spec (m_b x + m_size x) bhi);
      cbn [andb]; apply IH;
      repeat (apply Forall_cons; split; [simpl; lia|]); try done;
      simpl; lia.
Qed.

(** The loop of [get_matching_blocks] empties its queue within the fuel
    that [raw_blocks] gives it. *)
Lemma blocks_loop_total :
  blocks_loop a b (2 * length a + 1) [(0, length a, 0, length b)] []
  = Some (raw_blocks a b).
Proof.
  unfold raw_blocks.
  destruct (blocks_loop_enough (2 * length a + 1)
              [(0, length a, 0, length b)] []) as [r Hr].
  - repeat constructor. simpl. lia.
  - simpl. lia.
  - by rewrite Hr.
Qed.
End MatcherTermination.

(** ** The matcher when one sequence is empty *)

Section EmptyMatch.
Context {A : Type} `{EqDecision A}.
Import Difflib.

Lemma matches_nil_l (b : list A) : matches [] b = 0.
Proof. reflexivity. Qed.

Lemma main_loop_nil_r (a : list A) rows blo bhi : forall j2len best,
  main_loop a [] rows blo bhi j2len best = best.
Proof.
  induction rows as [|i rows IH]; intros j2len best; simpl; [done|].
  destruct (a !! i); apply IH.
Qed.

Lemma extend_left_nil_r (a : list A) junk alo blo n m :
  extend_left a [] junk alo blo n m = m.
Proof.
  destruct n; simpl; [done|]. unfold extends.
  destruct (a !! (m_a m - 1)); simpl; by rewrite andb_false_r.
Qed.

Lemma extend_right_nil_r (a : list A) junk ahi n m :
  extend_right a [] junk ahi 0 n m = m.
Proof. destruct n; simpl; [done|]. by rewrite andb_false_r. Qed.

Lemma matches_nil_r (a : list A) : matches a [] = 0.
Proof.
  unfold matches, get_matching_blocks, raw_blocks.
  replace (2 * length a + 1) with (S (2 * length a)) by lia.
  cbn [blocks_loop length]. unfold find_longest_match.
  rewrite main_loop_nil_r, !extend_left_nil_r, !extend_right_nil_r.
  cbn [m_size Nat.eqb]. by rewrite blocks_loop_nil.
Qed.

Lemma ratio_nil_swap (l : list A) : (ratio l [] == ratio [] l)%Q.
Proof.
  unfold ratio. rewrite matches_nil_l, matches_nil_r. simpl.
  by rewrite Nat.add_0_r.
Qed.

Lemma ratio_nonneg (a b : list A) : (0 <= ratio a b)%Q.
Proof.
  unfold ratio, calculate_ratio.
  destruct (Nat.eqb_spec (length a + length b) 0) as [|Hnz]; [done|].
  apply Qle_shift_div_l.
  - replace 0%Q with (inject_Z 0) by done. rewrite <- Zlt_Qlt. lia.
  - rewrite Qmult_0_l. apply Qmult_le_0_compat; [done|].
    replace 0%Q with (inject_Z 0) by done. rewrite <- Zle_Qle. lia.
Qed.
End EmptyMatch.

(** ** Similarity scorer *)

Section SimilarityFacts.
Variable lower : string -> string.

Lemma similarity_nonneg (a b : string) : (0 <= similarity lower a b)%Q.
Proof. apply ratio_nonneg. Qed.

(** C3. [similarity(a, a) == 1.0] for every non-empty string [a]. *)
Theorem similarity_reflexive (a : string) :
  a <> EmptyString -> (similarity lower a a == 1)%Q.
Proof. intros _. apply ratio_self. Qed.

(** C10. [similarity("", "")] is [1.0]. *)
Theorem similarity_empty_empty :
  (similarity lower EmptyString EmptyString == 1)%Q.
Proof. apply ratio_self. Qed.

(** C4, as the code has it.  [similarity(a, b) == similarity(b, a)] when
    the two strings are equal after lower-casing, and when one of them is
    empty after lower-casing. *)
Theorem similarity_symmetric_cases (a b : string) :
  lower a = lower b \/ lower a = EmptyString \/ lower b = EmptyString ->
  (similarity lower a b == similarity lower b a)%Q.
Proof.
  unfold similarity. intros [Heq|[Ha|Hb]].
  - by rewrite Heq.
  - rewrite Ha. simpl. symmetry. apply ratio_nil_swap.
  - rewrite Hb. simpl. apply ratio_nil_swap.
Qed.
End SimilarityFacts.

Lemma similarity_reflexive_witness :
  "Fox" <> EmptyString /\ (similarity ascii_lower "Fox" "Fox" == 1)%Q.
Proof.
  split; [discriminate|].
  apply (similarity_reflexive ascii_lower "Fox"). discriminate.
Defined.

Lemma similarity_symmetric_cases_witness :
  (ascii_lower "The Fox" = ascii_lower "the fox"
   \/ ascii_lower "The Fox" = EmptyString
   \/ ascii_lower "the fox" = EmptyString)
  /\ (similarity ascii_lower "The Fox" "the fox"
      == similarity ascii_lower "the fox" "The Fox")%Q.
Proof.
  split; [left; reflexivity|].
  apply (similarity_symmetric_cases ascii_lower "The Fox" "the fox").
  left. reflexivity.
Defined.

(** C4, as stated, fails: [similarity("tide", "diet")] is [0.25] and
    [similarity("diet", "tide")] is [0.5]. *)
Lemma similarity_not_symmetric :
  (similarity ascii_lower "tide" "diet" == 1 # 4)%Q
  /\ (similarity ascii_lower "diet" "tide" == 1 # 2)%Q
  /\ (similarity ascii_lower "tide" "diet"
      < similarity ascii_lower "diet" "tide")%Q.
Proof. vm_compute. repeat split; reflexivity. Qed.

(** ** Consensus engine *)

Lemma Qltb_lt (x y : Q) : Qltb x y = true <-> (x < y)%Q.
Proof.
  unfold Qltb. rewrite negb_true_iff, <- not_true_iff_false, Qle_bool_iff.
  split; [apply Qnot_le_lt|apply Qlt_not_le].
Qed.

Lemma Qltb_ge (x y : Q) : Qltb x y = false <-> (y <= x)%Q.
Proof.
  unfold Qltb. by rewrite negb_false_iff, Qle_bool_iff.
Qed.

Lemma fold_Qplus_nonneg (l : list Q) : forall acc,
  (0 <= acc)%Q -> Forall (fun q => 0 <= q)%Q l ->
  (0 <= fold_left Qplus l acc)%Q.
Proof.
  induction l as [|q l IH]; intros acc Hacc Hl; simpl; [done|].
  inversion_clear Hl. apply IH; [|done].
  replace 0%Q with (0 + 0)%Q by done. by apply Qplus_le_compat.
Qed.

Lemma mapM_json_str (ts : list string) : mapM json_str (map JStr ts) = Some ts.
Proof. by apply mapM_fmap_Some. Qed.

Section ConsensusFacts.
Variable lower : string -> string.
Variables (round : Q -> Q) (fsum : list Q -> Q).

(** Whatever the scores are, the loop returns its initial candidate or
    one of the candidates that it considers. *)
Lemma best_loop_elem (all ts : list string) : forall best_score best,
  best_loop lower round fsum all ts best_score best ∈ best :: ts.
Proof.
  induction ts as [|t ts IH]; intros best_score best; simpl; [by left|].
  destruct (Qltb best_score (score lower round fsum all t)).
  - right. apply IH.
  - specialize (IH best_score best).
    apply elem_of_cons in IH as [->|IH]; [by left|by do 2 right].
Qed.

(** Rounding and summing keep non-negative numbers non-negative. *)
Hypothesis round_nonneg : forall q, (0 <= q)%Q -> (0 <= round q)%Q.
Hypothesis fsum_nonneg :
  forall l, Forall (fun q => 0 <= q)%Q l -> (0 <= fsum l)%Q.

Lemma score_nonneg (transcripts : list string) (t : string) :
  (0 <= score lower round fsum transcripts t)%Q.
Proof.
  unfold score. apply fsum_nonneg.
  apply Forall_forall. intros q (u & -> & _)%list_elem_of_fmap.
  apply round_nonneg, ratio_nonneg.
Qed.

(** What [best_score, best] hold after the candidates [pre] have been
    considered: nothing yet, or the earliest candidate of highest score. *)
Definition leader (all pre : list string) (best_score : Q) (best : string)
    : Prop :=
  (pre = [] /\ best_score = (-1)%Q)
  \/ exists k,
       pre !! k = Some best
       /\ best_score = score lower round fsum all best
       /\ (forall j t, j < k -> pre !! j = Some t ->
             (score lower round fsum all t
              < score lower round fsum all best)%Q)
       /\ (forall t, t ∈ pre ->
             (score lower round fsum all t
              <= score lower round fsum all best)%Q).

Lemma leader_step all pre best_score best t :
  leader all pre best_score best ->
  leader all (pre ++ [t])
    (if Qltb best_score (score lower round fsum all t)
     then score lower round fsum all t else best_score)
    (if Qltb best_score (score lower round fsum all t) then t else best).
Proof.
  intros Hl. right.
  destruct (Qltb best_score (score lower round fsum all t)) eqn:Hcmp.
  - apply Qltb_lt in Hcmp. exists (length pre).
    split; [by rewrite lookup_app_r, Nat.sub_diag by lia|].
    split; [done|].
    destruct Hl as [[-> ->]|(k & Hk & -> & Hbefore & Hall)].
    + split; [intros j u Hj; simpl in Hj; lia|].
      intros u ->%list_elem_of_singleton. apply Qle_refl.
    + split.
      * intros j u Hj Hu. rewrite lookup_app_l in Hu by done.
        eapply Qle_lt_trans; [|exact Hcmp].
        apply Hall. by eapply list_elem_of_lookup_2.
      * intros u [Hu| ->%list_elem_of_singleton]%elem_of_app;
          [|apply Qle_refl].
        apply Qlt_le_weak. eapply Qle_lt_trans; [|exact Hcmp]. by apply Hall.
  - apply Qltb_ge in Hcmp.
    destruct Hl as [[-> ->]|(k & Hk & -> & Hbefore & Hall)].
    + pose proof (score_nonneg all t) as Hnn. exfalso.
      assert (0 <= -1)%Q as Habs by (eapply Qle_trans; [exact Hnn|exact Hcmp]).
      by apply Habs.
    + exists k. pose proof (lookup_lt_Some _ _ _ Hk) as Hlt.
      split; [by rewrite lookup_app_l|]. split; [done|]. split.
      * intros j u Hj Hu. rewrite lookup_app_l in Hu by lia.
        by eapply Hbefore.
      * intros u [Hu| ->%list_elem_of_singleton]%elem_of_app;
          [by apply Hall|done].
Qed.

Lemma best_loop_leader all ts : forall pre best_score best,
  leader all pre best_score best ->
  exists best_score',
    leader all (pre ++ ts) best_score'
      (best_loop lower round fsum all ts best_score best).
Proof.
  induction ts as [|t ts IH]; intros pre best_score best Hl; simpl.
  - exists best_score. by rewrite app_nil_r.
  - replace (pre ++ t :: ts) with ((pre ++ [t]) ++ ts)
      by (by rewrite <- app_assoc).
    pose proof (leader_step all pre best_score best t Hl) as Hstep.
    destruct (Qltb best_score (score lower round fsum all t)); by apply IH.
Qed.

(** C1.  The pool is the transcript of every run of the ResultSet whose
    transcript is truthy, in order.  When its members are the strings
    [transcripts], the consensus is the empty string if there is none, and
    otherwise the member at some position [k] whose summed similarity to
    every member (itself included), as the floats give it, is strictly
    greater than that of every earlier member and at least that of every
    member: the earliest of the highest-scoring candidates. *)
Theorem compute_consensus_spec (results : ResultSet)
    (transcripts : list string) :
  pool results
    = concat (map (fun entry =>
                omap (fun run =>
                        if json_truthy (get_transcript run)
                        then Some (get_transcript run) else None) entry.2)
                results)
  /\ (pool results = map JStr transcripts ->
      match transcripts with
      | [] => compute_consensus lower round fsum results = Some EmptyString
      | _ :: _ =>
          exists k best,
            compute_consensus lower round fsum results = Some best
            /\ transcripts !! k = Some best
            /\ (forall j t, j < k -> transcripts !! j = Some t ->
                  (fsum (map (fun other => round (similarity lower t other))
                           transcripts)
                   < fsum (map (fun other =>
                                  round (similarity lower best other))
                             transcripts))%Q)
            /\ (forall t, t ∈ transcripts ->
                  (fsum (map (fun other => round (similarity lower t other))
                           transcripts)
                   <= fsum (map (fun other =>
                                   round (similarity lower best other))
                              transcripts))%Q)
      end).
Proof.
  split; [done|]. intros Hpool. unfold compute_consensus.
  rewrite Hpool, mapM_json_str. cbn [mbind option_bind].
  destruct transcripts as [|t0 ts]; [done|].
  destruct (best_loop_leader (t0 :: ts) (t0 :: ts) [] (-1)%Q t0)
    as (bs & [[Hnil _]|(k & Hk & _ & Hbefore & Hall)]);
    [by left|done|].
  exists k, (best_loop lower round fsum (t0 :: ts) (t0 :: ts) (-1)%Q t0).
  split; [done|]. split; [done|]. split; [exact Hbefore|exact Hall].
Qed.
End ConsensusFacts.

Lemma Qsum_nonneg (l : list Q) :
  Forall (fun q => 0 <= q)%Q l -> (0 <= Qsum l)%Q.
Proof. intros Hl. by apply fold_Qplus_nonneg. Qed.


(** Scenario A of the specification: X and Y agree closely, Z fails. *)
Example consensus_scenario_A :
  compute_consensus ascii_lower unrounded Qsum
    [("X", [SuccessRun 1 (JStr "the quick brown fox") 1 19]);
     ("Y", [SuccessRun 1 (JStr "the quick brown fox jumps") 2 25]);
     ("Z", [ErrorRun 1 "HTTP 500: boom" 3])]
  = Some "the quick brown fox".
Proof. vm_compute. reflexivity. Qed.

(** *** Binary64 scores *)

Lemma nearest_even_nonneg (n d : Z) :
  (0 <= n)%Z -> (0 < d)%Z -> (0 <= nearest_even n d)%Z.
Proof.
  intros Hn Hd. unfold nearest_even.
  pose proof (Z.div_pos n d Hn Hd) as Hq.
  destruct (2 * (n mod d) ?= d)%Z; [destruct (Z.even (n / d))| |]; lia.
Qed.

Lemma scale_pos (n d e : Z) :
  (0 < n)%Z -> (0 < d)%Z ->
  (0 <= (scale n d e).1)%Z /\ (0 < (scale n d e).2)%Z.
Proof.
  intros Hn Hd. unfold scale. destruct (Z.leb_spec 0 e) as [He|He]; simpl.
  - split; [lia|]. apply Z.mul_pos_pos; [done|].
    by apply Z.pow_pos_nonneg.
  - split; [|done]. apply Z.mul_nonneg_nonneg; [lia|].
    apply Z.pow_nonneg. lia.
Qed.

Lemma round64_pos_nonneg (n d : Z) :
  (0 < n)%Z -> (0 < d)%Z -> (0 <= round64_pos n d)%Q.
Proof.
  intros Hn Hd. unfold round64_pos.
  set (e := if (_ <? _)%Z then _ else _).
  destruct (scale_pos n d e Hn Hd) as [Ha Hb].
  pose proof (nearest_even_nonneg _ _ Ha Hb) as Hm.
  revert Hm. generalize (nearest_even (scale n d e).1 (scale n d e).2).
  clearbody e. intros m Hm.
  destruct (Z.leb_spec 0 e) as [He|He]; unfold Qle;
    cbn [Qnum Qden inject_Z].
  - assert (0 <= 2 ^ e)%Z by (apply Z.pow_nonneg; lia). nia.
  - lia.
Qed.

Lemma round64_nonneg (q : Q) : (0 <= q)%Q -> (0 <= round64 q)%Q.
Proof.
  destruct q as [[|n|n] d]; unfold round64; simpl; intros Hq.
  - done.
  - by apply round64_pos_nonneg.
  - unfold Qle in Hq. simpl in Hq. lia.
Qed.

Lemma fsum64_nonneg (l : list Q) :
  Forall (fun q => 0 <= q)%Q l -> (0 <= fsum64 l)%Q.
Proof.
  unfold fsum64. intros Hl.
  assert (Hacc : forall acc, (0 <= acc)%Q ->
            (0 <= fold_left (fun acc x => round64 (acc + x)) l acc)%Q);
    [|by apply Hacc].
  induction Hl as [|x l Hx _ IH]; intros acc Hacc; simpl; [done|].
  apply IH, round64_nonneg. lra.
Qed.

(** The floats nearest to 2/3 and 1/3, and their sum with 1 in two
    orders. *)
Example round64_thirds :
  round64 (2 # 3) = (6004799503160661 # 9007199254740992)%Q
  /\ round64 (1 # 3) = (6004799503160661 # 18014398509481984)%Q
  /\ Qred (fsum64 [1%Q; round64 (2 # 3); round64 (1 # 3)])
     = (9007199254740991 # 4503599627370496)%Q
  /\ Qred (fsum64 [round64 (2 # 3); round64 (1 # 3); 1%Q]) = 2%Q.
Proof. vm_compute. repeat split; reflexivity. Qed.

(** Three transcripts whose exact scores are all 2.  Exact arithmetic
    keeps the first; with binary64 sums from left to right the scores of
    the first two round to 2 - 2^-52 and the third is returned. *)
Example consensus_rounding :
  compute_consensus ascii_lower unrounded Qsum
    [("X", [SuccessRun 1 (JStr "aca") 1 3]);
     ("Y", [SuccessRun 1 (JStr "acc") 1 3]);
     ("Z", [SuccessRun 1 (JStr "cba") 1 3])]
  = Some "aca"
  /\ compute_consensus ascii_lower round64 fsum64
       [("X", [SuccessRun 1 (JStr "aca") 1 3]);
        ("Y", [SuccessRun 1 (JStr "acc") 1 3]);
        ("Z", [SuccessRun 1 (JStr "cba") 1 3])]
     = Some "cba".
Proof. vm_compute. split; reflexivity. Qed.

Lemma compute_consensus_spec_witness :
  exists k best,
    compute_consensus ascii_lower round64 fsum64
      [("X", [SuccessRun 1 (JStr "aca") 1 3; ErrorRun 2 "HTTP 500: boom" 1]);
       ("Y", [SuccessRun 1 (JStr "acc") 1 3; SuccessRun 2 (JStr "") 1 0]);
       ("Z", [SuccessRun 1 (JStr "cba") 1 3; SuccessRun 2 JNull 0 0])]
    = Some best
    /\ ["aca"; "acc"; "cba"] !! k = Some best
    /\ (forall j t, j < k -> ["aca"; "acc"; "cba"] !! j = Some t ->
          (fsum64 (map (fun other => round64 (similarity ascii_lower t other))
                     ["aca"; "acc"; "cba"])
           < fsum64 (map (fun other =>
                            round64 (similarity ascii_lower best other))
                       ["aca"; "acc"; "cba"]))%Q)
    /\ (forall t, t ∈ ["aca"; "acc"; "cba"] ->
          (fsum64 (map (fun other => round64 (similarity ascii_lower t other))
                     ["aca"; "acc"; "cba"])
           <= fsum64 (map (fun other =>
                             round64 (similarity ascii_lower best other))
                        ["aca"; "acc"; "cba"]))%Q).
Proof.
  destruct (compute_consensus_spec ascii_lower round64 fsum64
              round64_nonneg fsum64_nonneg
              [("X", [SuccessRun 1 (JStr "aca") 1 3;
                      ErrorRun 2 "HTTP 500: boom" 1]);
               ("Y", [SuccessRun 1 (JStr "acc") 1 3;
                      SuccessRun 2 (JStr "") 1 0]);
               ("Z", [SuccessRun 1 (JStr "cba") 1 3;
                      SuccessRun 2 JNull 0 0])]
              ["aca"; "acc"; "cba"]) as [_ Hbest].
  exact (Hbest eq_refl).
Defined.

(** ** Dicts in insertion order *)

Section DictFacts.
Context {V : Type}.

Lemma dict_get_set (d : dict V) k v k' :
  dict_get (dict_set d k v) k'
  = if decide (k = k') then Some v else dict_get d k'.
Proof.
  induction d as [|[k0 v0] d IH]; simpl.
  - destruct (String.eqb_spec k k'), (decide (k = k')); congruence.
  - destruct (String.eqb_spec k0 k) as [->|Hne]; simpl.
    + destruct (String.eqb_spec k k'), (decide (k = k')); congruence.
    + rewrite IH.
      destruct (String.eqb_spec k0 k'), (decide (k = k')); congruence.
Qed.

Lemma dict_get_append (d : dict (list V)) k x k' :
  dict_get (dict_append d k x) k'
  = if decide (k = k') then (fun l => l ++ [x]) <$> dict_get d k'
    else dict_get d k'.
Proof.
  induction d as [|[k0 l0] d IH]; simpl.
  - by destruct (decide (k = k')).
  - destruct (String.eqb_spec k0 k) as [->|Hne]; simpl.
    + destruct (String.eqb_spec k k'), (decide (k = k'));
        simpl; congruence.
    + rewrite IH.
      destruct (String.eqb_spec k0 k'), (decide (k = k'));
        simpl; congruence.
Qed.
End DictFacts.

(** ** Evaluation orchestrator *)

(** The call's result does not stop [run_eval]: it carries an error, or
    its transcript is falsy, or [len] applies to its transcript. *)
Definition sized (result : CallResult) : bool :=
  match result with
  | Returned transcript _ error =>
      opt_truthy error
      || match (if json_truthy transcript then json_len transcript
                else Some 0) with
         | Some _ => true
         | None => false
         end
  | Raised _ => true
  end.

(** The run dict that [run_eval] appends for such a result. *)
Definition stored (iteration : nat) (result : CallResult) : RunOutcome :=
  match result with
  | Returned transcript latency error =>
      if opt_truthy error
      then ErrorRun (iteration + 1) (default EmptyString error) latency
      else SuccessRun (iteration + 1) transcript latency
             (default 0 (if json_truthy transcript then json_len transcript
                         else Some 0))
  | Raised str_e =>
      if str_truthy str_e then ErrorRun (iteration + 1) str_e 0
      else SuccessRun (iteration + 1) JNull 0 0
  end.

(** The line that [run_eval] prints for it. *)
Definition printed (iteration : nat) (future : string * CallResult) : event :=
  match stored iteration future.2 with
  | ErrorRun _ error _ => PrintError future.1 (str_take 80 error)
  | SuccessRun _ _ latency chars => PrintOk future.1 latency chars
  end.

Lemma iteration_of_stored iteration result :
  iteration_of (stored iteration result) = iteration + 1.
Proof.
  destruct result as [t l e|m]; simpl.
  - by destruct (opt_truthy e).
  - by destruct (str_truthy m).
Qed.

Lemma collect_sized iteration out all_results future :
  sized future.2 = true ->
  collect iteration (out, all_results) future
  = (out ++ [printed iteration future],
     Some (dict_append all_results future.1 (stored iteration future.2))).
Proof.
  destruct future as [n [t l e|m]]; unfold printed, stored; simpl.
  - destruct (opt_truthy e); simpl; [done|].
    by destruct (if json_truthy t then json_len t else Some 0).
  - by destruct (str_truthy m).
Qed.

Lemma collect_unsized iteration out all_results future :
  sized future.2 = false ->
  collect iteration (out, all_results) future = (out, None).
Proof.
  destruct future as [n [t l e|m]]; simpl; [|done].
  destruct (opt_truthy e); simpl; [done|].
  by destruct (if json_truthy t then json_len t else Some 0).
Qed.

Lemma fold_until_collect iteration futures : forall out all_results,
  Forall (fun f : string * CallResult => sized f.2 = true) futures ->
  fold_until (collect iteration) futures (out, all_results)
  = (out ++ map (printed iteration) futures,
     Some (fold_left (fun d f => dict_append d f.1 (stored iteration f.2))
             futures all_results)).
Proof.
  induction futures as [|f futures IH]; intros out d Hs;
    cbn [fold_until map fold_left fst snd].
  - by rewrite app_nil_r.
  - apply Forall_cons in Hs as [Hf Hs].
    rewrite collect_sized, IH by done. by rewrite <- app_assoc.
Qed.

Lemma fold_until_collect_crash iteration futures : forall st,
  Exists (fun f : string * CallResult => sized f.2 = false) futures ->
  (fold_until (collect iteration) futures st).2 = None.
Proof.
  induction futures as [|f futures IH]; intros [out d] Hs;
    [by apply Exists_nil in Hs|].
  cbn [fold_until]. destruct (sized f.2) eqn:Hf.
  - rewrite collect_sized by done. apply IH.
    apply Exists_cons in Hs as [Hs|Hs]; [congruence|done].
  - by rewrite collect_unsized.
Qed.

Lemma fold_append_get iteration (futures : list (string * CallResult)) n :
  forall d : ResultSet,
  dict_get
    (fold_left (fun d f => dict_append d f.1 (stored iteration f.2)) futures d) n
  = (fun l => l ++ map (fun f => stored iteration f.2)
                     (filter (fun f => f.1 = n) futures))
      <$> dict_get d n.
Proof.
  induction futures as [|f futures IH]; intros d; simpl.
  - destruct (dict_get d n); simpl; [|done]. by rewrite app_nil_r.
  - rewrite IH, dict_get_append, filter_cons.
    destruct (decide (f.1 = n)) as [Hf|Hf]; [|done].
    destruct (dict_get d n); simpl; [|done]. by rewrite <- app_assoc.
Qed.

Section RunEvalFacts.
Variable invoke : Provider -> string -> string -> nat -> CallResult.
Variable as_completed :
  nat -> list (string * CallResult) -> list (string * CallResult).
Hypothesis as_completed_perm :
  forall iteration futures, as_completed iteration futures ≡ₚ futures.

Variables (keys : gmap string string) (wav_path : string).

Definition future_of (iteration : nat) (p : Provider) : string * CallResult :=
  (name p,
   invoke p (default EmptyString (keys !! key_name p)) wav_path iteration).

Lemma filter_futures_out (active : list Provider) iteration n :
  n ∉ map name active ->
  filter (fun f : string * CallResult => f.1 = n)
    (map (future_of iteration) active) = [].
Proof.
  induction active as [|q active IH]; intros Hn; simpl; [done|].
  simpl in Hn. apply not_elem_of_cons in Hn as [Hne Hn].
  rewrite filter_cons. simpl.
  destruct (decide (name q = n)); [congruence|]. by apply IH.
Qed.

Lemma filter_futures_in (active : list Provider) iteration p :
  NoDup (map name active) -> p ∈ active ->
  filter (fun f : string * CallResult => f.1 = name p)
    (map (future_of iteration) active)
  = [future_of iteration p].
Proof.
  induction active as [|q active IH]; intros Hnd Hin; simpl;
    [by apply elem_of_nil in Hin|].
  simpl in Hnd. apply NoDup_cons in Hnd as [Hq Hnd].
  rewrite filter_cons. simpl.
  apply elem_of_cons in Hin as [->|Hin].
  - destruct (decide (name q = name q)); [|done].
    by rewrite filter_futures_out.
  - destruct (decide (name q = name p)) as [Heq|Hne]; [|by apply IH].
    exfalso. apply Hq. rewrite Heq.
    apply (list_elem_of_fmap_2 name). done.
Qed.

Lemma filter_completed (active : list Provider) iteration n :
  NoDup (map name active) ->
  filter (fun f : string * CallResult => f.1 = n)
    (as_completed iteration (map (future_of iteration) active))
  = filter (fun f : string * CallResult => f.1 = n)
      (map (future_of iteration) active).
Proof.
  intros Hnd.
  assert (Hperm :
    filter (fun f : string * CallResult => f.1 = n)
      (as_completed iteration (map (future_of iteration) active))
    ≡ₚ filter (fun f : string * CallResult => f.1 = n)
         (map (future_of iteration) active))
    by (by rewrite as_completed_perm).
  destruct (decide (n ∈ map name active)) as [Hin|Hout].
  - apply list_elem_of_fmap in Hin as (p & -> & Hp).
    rewrite filter_futures_in in * by done.
    by apply Permutation_singleton_r.
  - rewrite filter_futures_out in * by done.
    by apply Permutation_nil_r.
Qed.

(** What one iteration appends to the ResultSet when no result stops the
    run. *)
Definition iteration_results (active : list Provider) (d : ResultSet)
    (iteration : nat) : ResultSet :=
  fold_left (fun d f => dict_append d f.1 (stored iteration f.2))
    (as_completed iteration (map (future_of iteration) active)) d.

(** No call of the iteration returns a transcript that stops the run. *)
Definition iteration_sized (active : list Provider) (iteration : nat) : bool :=
  forallb (fun p => sized (future_of iteration p).2) active.

(** One iteration appends exactly one run to every active provider. *)
Lemma run_iteration_get active d iteration n :
  NoDup (map name active) ->
  dict_get (iteration_results active d iteration) n
  = (fun l => l ++ map (fun f => stored iteration f.2)
                     (filter (fun f : string * CallResult => f.1 = n)
                        (map (future_of iteration) active)))
      <$> dict_get d n.
Proof.
  intros Hnd. unfold iteration_results.
  rewrite fold_append_get. by rewrite filter_completed.
Qed.

Lemma run_iterations_in active p k : forall d,
  NoDup (map name active) -> p ∈ active ->
  dict_get d (name p) = Some [] ->
  dict_get (fold_left (iteration_results active) (seq 0 k) d) (name p)
  = Some (map (fun it => stored it (future_of it p).2) (seq 0 k)).
Proof.
  intros d Hnd Hin Hd. induction k as [|k IH]; [done|].
  rewrite seq_S, fold_left_app. simpl.
  rewrite run_iteration_get, IH, filter_futures_in by done. simpl.
  by rewrite map_app.
Qed.

Lemma run_iterations_out active n k : forall d,
  NoDup (map name active) -> n ∉ map name active ->
  dict_get d n = None ->
  dict_get (fold_left (iteration_results active) (seq 0 k) d) n = None.
Proof.
  intros d Hnd Hout Hd. induction k as [|k IH]; [done|].
  rewrite seq_S, fold_left_app. simpl.
  by rewrite run_iteration_get, IH.
Qed.

(** An iteration goes through when every call's result is sized, and ends
    the run otherwise, in whatever order the futures complete. *)
Lemma run_iteration_outcome active iterations out d iteration :
  (run_iteration invoke as_completed active keys wav_path iterations
     (out, d) iteration).2
  = if iteration_sized active iteration
    then Some (iteration_results active d iteration) else None.
Proof.
  unfold run_iteration. fold (future_of iteration).
  destruct (iteration_sized active iteration) eqn:Hs.
  - rewrite fold_until_collect; [done|].
    rewrite as_completed_perm. apply Forall_map, Forall_forall.
    intros p Hp%list_elem_of_In. unfold iteration_sized in Hs.
    rewrite forallb_forall in Hs. by apply Hs.
  - apply fold_until_collect_crash. rewrite as_completed_perm.
    apply Exists_exists.
    destruct (forallb_forall (fun p => sized (future_of iteration p).2)
                active) as [_ Hall].
    destruct (decide (Forall (fun p => sized (future_of iteration p).2 = true)
                        active)) as [Hf|Hf].
    { rewrite Forall_forall in Hf. unfold iteration_sized in Hs.
      rewrite Hall in Hs; [done|]. intros p Hp%list_elem_of_In.
      by apply Hf. }
    apply not_Forall_Exists in Hf; [|intros p; apply _].
    apply Exists_exists in Hf as (p & Hp & Hns).
    exists (future_of iteration p).
    split; [by apply (list_elem_of_fmap_2 (future_of iteration))|].
    simpl in Hns. by apply not_true_iff_false.
Qed.

Lemma run_iterations_outcome active iterations its : forall out d,
  (fold_until (run_iteration invoke as_completed active keys wav_path
                 iterations) its (out, d)).2
  = if forallb (iteration_sized active) its
    then Some (fold_left (iteration_results active) its d) else None.
Proof.
  induction its as [|it its IH]; intros out d; [done|].
  cbn [fold_until forallb fold_left].
  pose proof (run_iteration_outcome active iterations out d it) as Hit.
  destruct (run_iteration invoke as_completed active keys wav_path
              iterations (out, d) it) as [out' [d'|]];
    cbn [snd] in Hit; destruct (iteration_sized active it); try done.
  injection Hit as ->. apply IH.
Qed.

(** With an active provider, [run_eval] returns the ResultSet that the
    iterations leave, unless a call's result is not sized: then
    [len(transcript)] raises [TypeError], which nothing catches. *)
Lemma run_eval_outcome providers iterations :
  active_of providers keys <> [] ->
  (run_eval invoke as_completed providers keys wav_path iterations).2
  = if forallb (iteration_sized (active_of providers keys)) (seq 0 iterations)
    then Done (fold_left (iteration_results (active_of providers keys))
                 (seq 0 iterations) (init_results (active_of providers keys)))
    else Uncaught TypeError.
Proof.
  intros Hactive. unfold run_eval. fold (active_of providers keys).
  destruct (active_of providers keys) as [|a0 active'] eqn:Ha; [done|].
  rewrite <- Ha in *.
  match goal with
  | |- context [fold_until ?f ?l (?o, ?d)] =>
      pose proof (run_iterations_outcome (active_of providers keys)
                    iterations l o d) as Hrun;
      destruct (fold_until f l (o, d)) as [out [results|]]
  end; cbn [snd] in *;
    destruct (forallb (iteration_sized (active_of providers keys))
                (seq 0 iterations)); try done.
  by injection Hrun as ->.
Qed.

Lemma init_results_get (active : list Provider) n : forall d0 : ResultSet,
  dict_get (fold_left (fun d p => dict_set d (name p) []) active d0) n
  = if decide (n ∈ map name active) then Some [] else dict_get d0 n.
Proof.
  induction active as [|p active IH]; intros d0; simpl.
  - destruct (decide (n ∈ [])) as [Hin|]; [by apply elem_of_nil in Hin|done].
  - rewrite IH, dict_get_set.
    destruct (decide (n ∈ map name active)) as [Hin|Hout].
    + rewrite decide_True; [done|by right].
    + destruct (decide (name p = n)) as [<-|Hne].
      * rewrite decide_True; [done|by left].
      * rewrite decide_False; [done|].
        intros [?|?]%elem_of_cons; congruence.
Qed.

Lemma active_of_elem providers p :
  p ∈ active_of providers keys <-> p ∈ providers /\ has_key keys p = true.
Proof.
  unfold active_of. rewrite !list_elem_of_In, filter_In. done.
Qed.

Lemma NoDup_names_filter (f : Provider -> bool) providers :
  NoDup (map name providers) -> NoDup (map name (List.filter f providers)).
Proof.
  induction providers as [|q providers IH]; simpl; [done|].
  intros [Hq Hnd]%NoDup_cons. destruct (f q); simpl; [|by apply IH].
  apply NoDup_cons. split; [|by apply IH].
  intros (p & Hp & Hin)%list_elem_of_fmap. apply Hq. rewrite Hp.
  apply (list_elem_of_fmap_2 name).
  apply list_elem_of_In, filter_In in Hin as [Hin _].
  by apply list_elem_of_In.
Qed.

Lemma NoDup_names_inj providers p q :
  NoDup (map name providers) -> p ∈ providers -> q ∈ providers ->
  name p = name q -> p = q.
Proof.
  induction providers as [|r providers IH]; simpl;
    [by intros _ ?%elem_of_nil|].
  intros [Hr Hnd]%NoDup_cons
    [->|Hp]%elem_of_cons [->|Hq]%elem_of_cons Heq; [done| | |by apply IH].
  - exfalso. apply Hr. rewrite Heq. by apply (list_elem_of_fmap_2 name).
  - exfalso. apply Hr. rewrite <- Heq. by apply (list_elem_of_fmap_2 name).
Qed.

Lemma iteration_sized_all active iterations :
  forallb (iteration_sized active) (seq 0 iterations) = true
  <-> forall p it, p ∈ active -> it < iterations ->
        sized (future_of it p).2 = true.
Proof.
  rewrite forallb_forall. split.
  - intros Hall p it Hp Hit.
    specialize (Hall it ltac:(apply in_seq; lia)).
    unfold iteration_sized in Hall. rewrite forallb_forall in Hall.
    by apply Hall, list_elem_of_In.
  - intros Hall it [_ Hit]%in_seq. unfold iteration_sized.
    apply forallb_forall. intros p Hp%list_elem_of_In. apply Hall; [done|lia].
Qed.

(** C2.  With provider names unique and every future completing once,
    [run_eval] completes and returns a ResultSet when every call's result
    is sized, and ends in [TypeError] when one is not (a truthy transcript
    without length).  Whenever it returns a ResultSet, each active provider
    is mapped to [iterations] runs, numbered 1, 2, ... in order, whatever
    the invocations did; a provider without a credential has no entry. *)
Theorem run_eval_entries (providers : list Provider) (iterations : nat) :
  NoDup (map name providers) ->
  active_of providers keys <> [] ->
  ((forall p it, p ∈ providers -> has_key keys p = true -> it < iterations ->
      sized (invoke p (default EmptyString (keys !! key_name p)) wav_path it)
      = true) ->
   exists out results,
     run_eval invoke as_completed providers keys wav_path iterations
     = (out, Done results))
  /\ ((exists p it, p ∈ providers /\ has_key keys p = true /\ it < iterations
         /\ sized (invoke p (default EmptyString (keys !! key_name p))
                     wav_path it) = false) ->
      (run_eval invoke as_completed providers keys wav_path iterations).2
      = Uncaught TypeError)
  /\ (forall out results,
        run_eval invoke as_completed providers keys wav_path iterations
        = (out, Done results) ->
        (forall p, p ∈ providers -> has_key keys p = true ->
           exists runs,
             dict_get results (name p) = Some runs
             /\ length runs = iterations
             /\ map iteration_of runs = seq 1 iterations)
        /\ (forall p, p ∈ providers -> has_key keys p = false ->
              dict_get results (name p) = None)).
Proof.
  intros Hnd Hactive.
  pose proof (NoDup_names_filter (has_key keys) providers Hnd) as Hnda.
  fold (active_of providers keys) in Hnda.
  pose proof (run_eval_outcome providers iterations Hactive) as Hout.
  split; [|split].
  - intros Hsized.
    assert (Hall : forallb (iteration_sized (active_of providers keys))
                     (seq 0 iterations) = true).
    { apply iteration_sized_all. intros p it [Hp Hk]%active_of_elem Hit.
      by apply Hsized. }
    rewrite Hall in Hout.
    destruct (run_eval invoke as_completed providers keys wav_path
                iterations) as [out c].
    cbn [snd] in Hout. subst c. by eexists _, _.
  - intros (p & it & Hp & Hk & Hit & Hns).
    assert (Hall : forallb (iteration_sized (active_of providers keys))
                     (seq 0 iterations) = false).
    { apply not_true_iff_false. intros Hall.
      rewrite iteration_sized_all in Hall.
      specialize (Hall p it ltac:(by apply active_of_elem) Hit).
      unfold future_of in Hall. cbn [snd] in Hall. congruence. }
    by rewrite Hall in Hout.
  - intros out results Hrun. rewrite Hrun in Hout. cbn [snd] in Hout.
    destruct (forallb (iteration_sized (active_of providers keys))
                (seq 0 iterations)); [|done].
    injection Hout as ->. split.
    + intros p Hp Hk.
      assert (Hpa : p ∈ active_of providers keys) by (by apply active_of_elem).
      exists (map (fun it => stored it (future_of it p).2) (seq 0 iterations)).
      split; [|split].
      * apply run_iterations_in; [done|done|].
        unfold init_results. rewrite init_results_get.
        rewrite decide_True; [done|]. by apply (list_elem_of_fmap_2 name).
      * by rewrite length_map, length_seq.
      * rewrite map_map, <- seq_shift.
        apply map_ext. intros it. rewrite iteration_of_stored. lia.
    + intros p Hp Hk. apply run_iterations_out; [done| |].
      * intros (q & Hq & Hqa)%list_elem_of_fmap.
        apply active_of_elem in Hqa as [Hqp Hqk].
        assert (p = q) by (apply (NoDup_names_inj providers); done).
        congruence.
      * unfold init_results. rewrite init_results_get.
        rewrite decide_False; [done|].
        intros (q & Hq & Hqa)%list_elem_of_fmap.
        apply active_of_elem in Hqa as [Hqp Hqk].
        assert (p = q) by (apply (NoDup_names_inj providers); done).
        congruence.
Qed.

(** C8.  With no active provider [run_eval] prints the skipped providers
    (all of them), prints the error once and exits with status 1: nothing
    is submitted to the executor and no ResultSet is returned. *)
Theorem run_eval_no_active (providers : list Provider) (iterations : nat) :
  active_of providers keys = [] ->
  run_eval invoke as_completed providers keys wav_path iterations
  = (match providers with
     | [] => []
     | _ :: _ => [PrintSkipping (map name providers)]
     end ++ [PrintNoKeys],
     SystemExit 1).
Proof.
  intros Hactive. unfold run_eval.
  fold (active_of providers keys). rewrite Hactive.
  assert (Hskip : skipped_of providers keys = providers).
  { unfold active_of, skipped_of in *.
    induction providers as [|p ps IH]; simpl in *; [done|].
    destruct (has_key keys p); [done|]. simpl. f_equal. by apply IH. }
  fold (skipped_of providers keys). rewrite Hskip. by destruct providers.
Qed.
End RunEvalFacts.

(** A run of the registry with two credentials out of three, the futures
    completing in reverse order of submission. *)
Definition demo_keys : gmap string string :=
  <["ELEVENLABS_API_KEY" := "k1"]> (<["DEEPGRAM_API_KEY" := "k2"]> ∅).

Definition demo_invoke (p : Provider) (key wav_path : string) (iteration : nat)
    : CallResult :=
  if String.eqb (name p) "Deepgram Nova-3" then Raised "connection reset"
  else Returned (JStr "the quick brown fox") 2 None.

Lemma run_eval_entries_witness :
  exists out results,
    run_eval demo_invoke (fun _ futures => reverse futures) PROVIDERS
      demo_keys "a.wav" 2
    = (out, Done results)
    /\ (forall p, p ∈ PROVIDERS -> has_key demo_keys p = true ->
          exists runs,
            dict_get results (name p) = Some runs
            /\ length runs = 2
            /\ map iteration_of runs = seq 1 2)
    /\ (forall p, p ∈ PROVIDERS -> has_key demo_keys p = false ->
          dict_get results (name p) = None).
Proof.
  destruct (run_eval_entries demo_invoke (fun _ futures => reverse futures)
              (fun _ futures => reverse_Permutation futures)
              demo_keys "a.wav" PROVIDERS 2) as (Hdone & _ & Hentries).
  - apply (bool_decide_unpack _). vm_compute. reflexivity.
  - vm_compute. discriminate.
  - destruct Hdone as (out & results & Hrun).
    { intros p it _ _ _. unfold demo_invoke.
      by destruct (String.eqb (name p) "Deepgram Nova-3"). }
    exists out, results. split; [done|]. exact (Hentries out results Hrun).
Defined.

Example run_eval_demo :
  (run_eval demo_invoke (fun _ futures => reverse futures) PROVIDERS
     demo_keys "a.wav" 2).2
  = Done
      [("ElevenLabs Scribe v2",
        [SuccessRun 1 (JStr "the quick brown fox") 2 19;
         SuccessRun 2 (JStr "the quick brown fox") 2 19]);
       ("Deepgram Nova-3",
        [ErrorRun 1 "connection reset" 0; ErrorRun 2 "connection reset" 0])].
Proof. vm_compute. reflexivity. Qed.

Lemma run_eval_no_active_witness :
  run_eval demo_invoke (fun _ futures => futures) PROVIDERS ∅ "a.wav" 3
  = ([PrintSkipping
        ["ElevenLabs Scribe v2"; "Deepgram Nova-3"; "AssemblyAI Universal-2"];
      PrintNoKeys],
     SystemExit 1).
Proof.
  apply (run_eval_no_active demo_invoke (fun _ futures => futures) ∅ "a.wav"
           PROVIDERS 3).
  vm_compute. reflexivity.
Defined.

(** C9, where the code departs from it.  An adapter that raises an exception
    whose [str] is empty is recorded under the ["transcript"] key with the
    value [None]: the run has neither a transcript nor an error. *)
Theorem run_eval_empty_exception :
  (run_eval (fun _ _ _ _ => Raised EmptyString) (fun _ futures => futures)
     [mkProvider "Deepgram Nova-3" "DEEPGRAM_API_KEY"]
     (<["DEEPGRAM_API_KEY" := "k2"]> ∅) "a.wav" 1).2
  = Done [("Deepgram Nova-3", [SuccessRun 1 JNull 0 0])]
  /\ transcript_populated (SuccessRun 1 JNull 0 0) = false
  /\ error_populated (SuccessRun 1 JNull 0 0) = false.
Proof. vm_compute. repeat split; reflexivity. Qed.

(** The same happens when the adapter returns [(None, latency, None)], as
    [call_elevenlabs] does on a body whose ["text"] is [null]. *)
Example run_eval_none_transcript :
  (run_eval (fun _ _ _ _ => Returned JNull 3 None) (fun _ futures => futures)
     [mkProvider "ElevenLabs Scribe v2" "ELEVENLABS_API_KEY"]
     (<["ELEVENLABS_API_KEY" := "k1"]> ∅) "a.wav" 1).2
  = Done [("ElevenLabs Scribe v2", [SuccessRun 1 JNull 3 0])].
Proof. vm_compute. reflexivity. Qed.

(** A body whose ["text"] is the number 5 gives a truthy transcript
    without length: [len(transcript)] raises and no ResultSet is
    returned. *)
Example run_eval_unsized_transcript :
  run_eval (fun _ _ _ _ => Returned (JNum 5) 3 None) (fun _ futures => futures)
    [mkProvider "ElevenLabs Scribe v2" "ELEVENLABS_API_KEY"]
    (<["ELEVENLABS_API_KEY" := "k1"]> ∅) "a.wav" 2
  = ([PrintTesting ["ElevenLabs Scribe v2"]; PrintBlank; PrintIteration 1 2;
      Submit "ElevenLabs Scribe v2" 0],
     Uncaught TypeError).
Proof. vm_compute. reflexivity. Qed.

(** ** Provider adapters *)

(** Two equations with the same left-hand side are combined, then equal
    constructors are compared. *)
Ltac same_request :=
  intros;
  repeat (progress
            (repeat match goal with
               | H1 : ?x = _, H2 : ?x = _ |- _ => rewrite H1 in H2
               end;
             simplify_eq));
  try done.

Section PollLoop.
Variable w : World.
Variable py_repr : json -> string.

(** The state after one more [requests] call, and after one more sleep. *)
Definition after_http (s : St) : St :=
  mkSt (now s + (net w (n_requests s)).1)%Q (S (n_requests s)) (n_sleeps s)
    (now s :: sent_at s).

Definition after_sleep (d : Q) (s : St) : St :=
  mkSt (now s + d + sleep_extra w (n_sleeps s))%Q (n_requests s)
    (S (n_sleeps s)) (sent_at s).

Lemma http_unfold (s : St) :
  http w s
  = match (net w (n_requests s)).2 with
    | HttpResponse r => (Returns r, after_http s)
    | HttpRaises e => (Raises e, after_http s)
    end.
Proof.
  unfold http, after_http. by destruct (net w (n_requests s)) as [d [r|e]].
Qed.

(** One round of the polling loop, written out. *)
Lemma poll_loop_S (fuel : nat) (start : Q) (status : option json) (s : St) :
  poll_loop w py_repr (S fuel) start status s
  = if Qltb (now s) (start + 600)%Q then
      let s1 := after_http s in
      match (net w (n_requests s)).2 with
      | HttpRaises e => (Raises e, s1)
      | HttpResponse r =>
          if negb (status_code r =? 200)%Z then
            (Returns (JNull, (now s1 - start)%Q,
                      Some (http_error "Poll failed HTTP " r)), s1)
          else
            match json_body r with
            | None => (Raises JSONDecodeError, s1)
            | Some body =>
                match subscript body (KStr "status") with
                | Returns st =>
                    if json_is_str st "completed" then
                      (match body with
                       | JObj ms =>
                           Returns (default (JStr "") (dict_get ms "text"),
                                    (now s1 - start)%Q, None)
                       | _ => Raises AttributeError
                       end, s1)
                    else if json_is_str st "error" then
                      (match body with
                       | JObj ms =>
                           Returns
                             (JNull, (now s1 - start)%Q,
                              Some ("Transcription error: "
                                      +:+ py_str py_repr
                                            (default (JStr "unknown")
                                               (dict_get ms "error"))))
                       | _ => Raises AttributeError
                       end, s1)
                    else
                      poll_loop w py_repr fuel start (Some st)
                        (after_sleep 3 s1)
                | Raises e => (Raises e, s1)
                | OutOfFuel => (OutOfFuel, s1)
                end
            end
      end
    else
      match status with
      | None => (Raises UnboundLocalError, s)
      | Some st =>
          (Returns (JNull, (now s - start)%Q,
                    Some ("Polling timed out after 600s (last status: "
                            +:+ py_str py_repr st +:+ ")")), s)
      end.
Proof.
  cbn [poll_loop]. unfold mbind, M_bind, monotonic.
  destruct (Qltb (now s) (start + 600)%Q); [|by destruct status].
  rewrite http_unfold.
  destruct ((net w (n_requests s)).2) as [r|e]; [|done].
  destruct (negb (status_code r =? 200)%Z); [done|].
  unfold resp_json. destruct (json_body r) as [body|]; [|done].
  unfold mret, M_ret, lift.
  destruct (subscript body (KStr "status")) as [st| |]; [|done|done].
  destruct (json_is_str st "completed").
  { unfold json_get. by destruct body. }
  destruct (json_is_str st "error").
  { unfold json_get. by destruct body. }
  done.
Qed.
(** *** A request that fails ends the loop *)

Lemma error_payload_intro latency (prefix rest : string) :
  str_truthy prefix = true ->
  error_payload (Returns (JNull, latency, Some (prefix +:+ rest))).
Proof.
  intros Hp. exists latency, (prefix +:+ rest). split; [done|].
  by destruct prefix.
Qed.

(** The fate of request [k] decides the result [o] of a run that made
    [n] requests: a status other than 200 gives an error payload, a body
    that is no JSON raises [JSONDecodeError], an exception of [requests]
    is raised as it is; and [k] was the last request. *)
Definition failure_ends (k : nat) (o : outcome payload) (n : nat) : Prop :=
  (forall r, (net w k).2 = HttpResponse r -> status_code r <> 200%Z ->
     error_payload o /\ n = S k)
  /\ (forall r, (net w k).2 = HttpResponse r -> status_code r = 200%Z ->
        json_body r = None -> o = Raises JSONDecodeError /\ n = S k)
  /\ (forall e, (net w k).2 = HttpRaises e -> o = Raises e /\ n = S k).

Ltac ends_here s :=
  intros [? ?]; cbn [fst snd after_http n_requests] in *;
  match goal with
  | |- failure_ends ?k _ _ =>
      assert (k = n_requests s) as -> by lia
  end;
  split; [|split]; same_request;
  (split; [first [done | by apply error_payload_intro]|done]).

Lemma poll_loop_failures (start : Q) (fuel : nat) : forall status s k,
  n_requests s <= k
  < n_requests (poll_loop w py_repr fuel start status s).2 ->
  failure_ends k (poll_loop w py_repr fuel start status s).1
    (n_requests (poll_loop w py_repr fuel start status s).2).
Proof.
  induction fuel as [|fuel IH]; intros status s k.
  { cbn. lia. }
  rewrite poll_loop_S.
  destruct (Qltb (now s) (start + 600)); [|destruct status; cbn; lia].
  cbn zeta.
  destruct ((net w (n_requests s)).2) as [r|e] eqn:Hnet; [|ends_here s].
  destruct (Z.eqb_spec (status_code r) 200) as [Hst|Hst]; cbn [negb];
    [|ends_here s].
  destruct (json_body r) as [body|] eqn:Hbody; [|ends_here s].
  destruct (subscript body (KStr "status")) as [st|e|];
    [|ends_here s|ends_here s].
  destruct (json_is_str st "completed"); [ends_here s|].
  destruct (json_is_str st "error"); [ends_here s|].
  intros [Hlo Hhi]. destruct (decide (k = n_requests s)) as [->|Hk].
  - split; [|split]; same_request.
  - apply IH. split; [|done].
    cbn [after_sleep after_http n_requests]. lia.
Qed.

(** *** What a run of the polling loop guarantees *)

Hypothesis Hmono : monotonic_world w.











Lemma subscript_returns v k : subscript v k <> OutOfFuel.
Proof.
  destruct v as [| | |sv|l|ms], k as [ks|n]; simpl; try done.
  - by destruct (String.get n sv).
  - by destruct (l !! n).
  - by destruct (dict_get ms ks).
Qed.

End PollLoop.

(** The cases of an adapter that stops after its first, or after its
    second, request. *)
Ltac failure_cases :=
  split; [|split; [|split]]; same_request;
  first [ by apply error_payload_intro
        | by split; [first [done | by apply error_payload_intro]|done]
        | match goal with H : _ \/ _ |- _ => by destruct H end ].

Ltac only_request :=
  let Hk := fresh "Hk" in
  intros Hk; cbn [fst snd after_http n_requests init_state] in Hk |- *;
  match type of Hk with ?k < _ => assert (k = 0) as -> by lia end;
  failure_cases.

Ltac two_requests :=
  let Hk := fresh "Hk" in
  intros Hk; cbn [fst snd after_http n_requests init_state] in Hk |- *;
  match type of Hk with
  | ?k < _ =>
      let H0 := fresh "Hk0" in
      destruct (decide (k = 0)) as [->|H0];
        [split; [|split; [|split]]; same_request
        |assert (k = 1) as -> by lia; failure_cases]
  end.

Section AdapterFacts.
Variable w : World.
Variables py_repr json_dumps : json -> string.

Lemma call_elevenlabs_unfold api_key wav_path (s : St) :
  call_elevenlabs w api_key wav_path s
  = match open_wav w with
    | Some e => (Raises e, s)
    | None =>
        let s1 := after_http w s in
        match (net w (n_requests s)).2 with
        | HttpRaises e => (Raises e, s1)
        | HttpResponse r =>
            if negb (status_code r =? 200)%Z then
              (Returns (JNull, (now s1 - now s)%Q,
                        Some (http_error "HTTP " r)), s1)
            else
              match json_body r with
              | None => (Raises JSONDecodeError, s1)
              | Some (JObj ms) =>
                  (Returns (default (JStr "") (dict_get ms "text"),
                            (now s1 - now s)%Q, None), s1)
              | Some _ => (Raises AttributeError, s1)
              end
        end
    end.
Proof.
  unfold call_elevenlabs, mbind, M_bind, monotonic, open_file.
  destruct (open_wav w); [done|]. unfold mret, M_ret.
  rewrite http_unfold.
  destruct ((net w (n_requests s)).2) as [r|e]; [|done]. cbn zeta.
  destruct (negb (status_code r =? 200)%Z); [done|].
  unfold resp_json. destruct (json_body r) as [body|]; [|done].
  unfold mret, M_ret, json_get. by destruct body.
Qed.

Lemma call_deepgram_unfold api_key wav_path (s : St) :
  call_deepgram w json_dumps api_key wav_path s
  = match open_wav w with
    | Some e => (Raises e, s)
    | None =>
        let s1 := after_http w s in
        match (net w (n_requests s)).2 with
        | HttpRaises e => (Raises e, s1)
        | HttpResponse r =>
            if negb (status_code r =? 200)%Z then
              (Returns (JNull, (now s1 - now s)%Q,
                        Some (http_error "HTTP " r)), s1)
            else
              match json_body r with
              | None => (Raises JSONDecodeError, s1)
              | Some data =>
                  match subscripts data deepgram_path with
                  | Returns transcript =>
                      (Returns (transcript, (now s1 - now s)%Q, None), s1)
                  | Raises KeyError | Raises IndexError =>
                      (Returns
                         (JNull, (now s1 - now s)%Q,
                          Some ("Unexpected response shape: "
                                  +:+ str_take 200 (json_dumps data))), s1)
                  | Raises e => (Raises e, s1)
                  | OutOfFuel => (OutOfFuel, s1)
                  end
              end
        end
    end.
Proof.
  unfold call_deepgram, mbind, M_bind, monotonic, open_file.
  destruct (open_wav w); [done|]. unfold mret, M_ret.
  rewrite http_unfold.
  destruct ((net w (n_requests s)).2) as [r|e]; [|done]. cbn zeta.
  destruct (negb (status_code r =? 200)%Z); [done|].
  unfold resp_json. destruct (json_body r) as [data|]; [|done].
  unfold mret, M_ret. fold deepgram_path.
  by destruct (subscripts data deepgram_path) as [t|[]|].
Qed.

Lemma call_assemblyai_unfold api_key wav_path (s : St) :
  call_assemblyai w py_repr api_key wav_path s
  = match open_wav w with
    | Some e => (Raises e, s)
    | None =>
        let s1 := after_http w s in
        match (net w (n_requests s)).2 with
        | HttpRaises e => (Raises e, s1)
        | HttpResponse r0 =>
            if negb (status_code r0 =? 200)%Z then
              (Returns (JNull, (now s1 - now s)%Q,
                        Some (http_error "Upload failed HTTP " r0)), s1)
            else
              match json_body r0 with
              | None => (Raises JSONDecodeError, s1)
              | Some b0 =>
                  match subscript b0 (KStr "upload_url") with
                  | Raises e => (Raises e, s1)
                  | OutOfFuel => (OutOfFuel, s1)
                  | Returns _ =>
                      let s2 := after_http w s1 in
                      match (net w (n_requests s1)).2 with
                      | HttpRaises e => (Raises e, s2)
                      | HttpResponse r1 =>
                          if negb (status_code r1 =? 200)%Z then
                            (Returns
                               (JNull, (now s2 - now s)%Q,
                                Some (http_error "Submit failed HTTP " r1)),
                             s2)
                          else
                            match json_body r1 with
                            | None => (Raises JSONDecodeError, s2)
                            | Some b1 =>
                                match subscript b1 (KStr "id") with
                                | Raises e => (Raises e, s2)
                                | OutOfFuel => (OutOfFuel, s2)
                                | Returns _ =>
                                    poll_loop w py_repr poll_fuel (now s)
                                      None s2
                                end
                            end
                      end
                  end
              end
        end
    end.
Proof.
  unfold call_assemblyai, mbind, M_bind, monotonic, open_file.
  destruct (open_wav w); [done|]. unfold mret, M_ret.
  rewrite http_unfold.
  destruct ((net w (n_requests s)).2) as [r0|e]; [|done]. cbn zeta.
  destruct (negb (status_code r0 =? 200)%Z); [done|].
  unfold resp_json. destruct (json_body r0) as [b0|]; [|done].
  unfold mret, M_ret, lift.
  destruct (subscript b0 (KStr "upload_url")) as [url| |]; [|done|done].
  rewrite http_unfold.
  destruct ((net w (n_requests (after_http w s))).2) as [r1|e]; [|done].
  destruct (negb (status_code r1 =? 200)%Z); [done|].
  destruct (json_body r1) as [b1|]; [|done].
  by destruct (subscript b1 (KStr "id")) as [id| |].
Qed.
(** *** The deadline of the asynchronous adapter *)

Hypothesis Hmono : monotonic_world w.





(** *** Failure modes of the three adapters *)

(** C5, as the code has it.  Whatever the adapter and whichever of its
    requests: when the request is answered with a status other than 200
    the adapter returns an error payload; when it is answered with
    status 200 and a body that is no JSON, the adapter raises
    [JSONDecodeError]; when the request itself raises (a timeout, a
    connection fault), the adapter raises the same exception to its
    caller.  In each case no further request is made.  [call_deepgram]
    also returns an error payload when the body lacks a key or an index of
    the path to the transcript. *)
Theorem adapter_failure_modes (a : Adapter) (api_key wav_path : string)
    (k : nat) :
  k < n_requests
        (call_adapter w py_repr json_dumps a api_key wav_path
           (init_state w)).2 ->
  (forall r, (net w k).2 = HttpResponse r -> status_code r <> 200%Z ->
     error_payload
       (call_adapter w py_repr json_dumps a api_key wav_path
          (init_state w)).1
     /\ n_requests
          (call_adapter w py_repr json_dumps a api_key wav_path
             (init_state w)).2 = S k)
  /\ (forall r, (net w k).2 = HttpResponse r -> status_code r = 200%Z ->
        json_body r = None ->
        (call_adapter w py_repr json_dumps a api_key wav_path
           (init_state w)).1 = Raises JSONDecodeError
        /\ n_requests
             (call_adapter w py_repr json_dumps a api_key wav_path
                (init_state w)).2 = S k)
  /\ (forall e, (net w k).2 = HttpRaises e ->
        (call_adapter w py_repr json_dumps a api_key wav_path
           (init_state w)).1 = Raises e
        /\ n_requests
             (call_adapter w py_repr json_dumps a api_key wav_path
                (init_state w)).2 = S k)
  /\ (a = Deepgram ->
      forall r data e, (net w k).2 = HttpResponse r ->
        status_code r = 200%Z -> json_body r = Some data ->
        subscripts data deepgram_path = Raises e ->
        e = KeyError \/ e = IndexError ->
        error_payload
          (call_adapter w py_repr json_dumps a api_key wav_path
             (init_state w)).1).
Proof.
  destruct a; cbn [call_adapter].
  - (* ElevenLabs *)
    rewrite call_elevenlabs_unfold.
    destruct (open_wav w); [cbn; lia|]. cbn zeta.
    change (n_requests (init_state w)) with 0.
    destruct ((net w 0).2) as [r|e] eqn:Hnet; [|only_request].
    destruct (Z.eqb_spec (status_code r) 200) as [Hst|Hst]; cbn [negb];
      [|only_request].
    destruct (json_body r) as [[| | | | |ms]|] eqn:Hbody; only_request.
  - (* Deepgram *)
    rewrite call_deepgram_unfold.
    destruct (open_wav w); [cbn; lia|]. cbn zeta.
    change (n_requests (init_state w)) with 0.
    destruct ((net w 0).2) as [r|e] eqn:Hnet; [|only_request].
    destruct (Z.eqb_spec (status_code r) 200) as [Hst|Hst]; cbn [negb];
      [|only_request].
    destruct (json_body r) as [data|] eqn:Hbody; [|only_request].
    destruct (subscripts data deepgram_path) as [t|e|] eqn:Hsub;
      [only_request|destruct e; only_request|only_request].
  - (* AssemblyAI *)
    rewrite call_assemblyai_unfold.
    destruct (open_wav w); [cbn; lia|]. cbn zeta.
    change (n_requests (init_state w)) with 0.
    destruct ((net w 0).2) as [r0|e] eqn:Hnet0; [|only_request].
    destruct (Z.eqb_spec (status_code r0) 200) as [Hst0|Hst0]; cbn [negb];
      [|only_request].
    destruct (json_body r0) as [b0|] eqn:Hbody0; [|only_request].
    destruct (subscript b0 (KStr "upload_url")) as [url|e|];
      [|only_request|only_request].
    change (n_requests (after_http w (init_state w))) with 1.
    destruct ((net w 1).2) as [r1|e] eqn:Hnet1; [|two_requests].
    destruct (Z.eqb_spec (status_code r1) 200) as [Hst1|Hst1]; cbn [negb];
      [|two_requests].
    destruct (json_body r1) as [b1|] eqn:Hbody1; [|two_requests].
    destruct (subscript b1 (KStr "id")) as [id|e|];
      [|two_requests|two_requests].
    intros Hk.
    destruct (decide (k = 0)) as [->|Hk0];
      [split; [|split; [|split]]; same_request|].
    destruct (decide (k = 1)) as [->|Hk1];
      [split; [|split; [|split]]; same_request|].
    destruct (poll_loop_failures w py_repr (now (init_state w)) poll_fuel
                None (after_http w (after_http w (init_state w))) k)
      as (H1 & H2 & H3).
    { split; [|done]. cbn [after_http n_requests init_state]. lia. }
    split; [done|]. split; [done|]. split; [done|]. done.
Qed.
End AdapterFacts.

(** ** Example worlds *)

Definition ok_response (body : json) : Response :=
  mkResponse 200 EmptyString (Some body).

(** Upload and submission succeed; every poll, one second long, answers
    with status [processing]. *)
Definition pending_world : World :=
  mkWorld 0 None
    (fun k =>
       (1%Q,
        HttpResponse
          (ok_response
             (match k with
              | 0 => JObj [("upload_url", JStr "https://cdn/upload/1")]
              | 1 => JObj [("id", JStr "job-1")]
              | _ => JObj [("id", JStr "job-1"); ("status", JStr "processing")]
              end))))
    (fun _ => 0%Q).

(** Every request runs into the [requests] timeout. *)
Definition timeout_world : World :=
  mkWorld 0 None (fun _ => (300%Q, HttpRaises RequestsTimeout)) (fun _ => 0%Q).

(** Every request is answered with status 503. *)
Definition outage_world : World :=
  mkWorld 0 None
    (fun _ => (2%Q, HttpResponse (mkResponse 503 "Service Unavailable" None)))
    (fun _ => 0%Q).

(** The upload alone takes 700 seconds. *)
Definition slow_upload_world : World :=
  mkWorld 0 None
    (fun k =>
       (match k with 0 => 700%Q | _ => 1%Q end,
        HttpResponse
          (ok_response
             (match k with
              | 0 => JObj [("upload_url", JStr "https://cdn/upload/1")]
              | 1 => JObj [("id", JStr "job-1")]
              | _ => JObj [("id", JStr "job-1"); ("status", JStr "processing")]
              end))))
    (fun _ => 0%Q).

Definition no_repr (_ : json) : string := EmptyString.


Lemma timeout_world_monotonic : monotonic_world timeout_world.
Proof. split; intros k; unfold Qle; simpl; lia. Qed.


(** Upload and submission succeed and the first poll answers with status
    [processing]; the second poll is answered with status 503. *)
Definition poll_outage_world : World :=
  mkWorld 0 None
    (fun k =>
       (1%Q,
        HttpResponse
          (match k with
           | 0 => ok_response (JObj [("upload_url", JStr "https://cdn/upload/1")])
           | 1 => ok_response (JObj [("id", JStr "job-1")])
           | 2 => ok_response
                    (JObj [("id", JStr "job-1"); ("status", JStr "processing")])
           | _ => mkResponse 503 "Service Unavailable" None
           end)))
    (fun _ => 0%Q).

Lemma adapter_failure_modes_witness :
  (forall r, (net poll_outage_world 3).2 = HttpResponse r ->
     status_code r <> 200%Z ->
     error_payload
       (call_adapter poll_outage_world no_repr no_repr AssemblyAI "key"
          "a.wav" (init_state poll_outage_world)).1
     /\ n_requests
          (call_adapter poll_outage_world no_repr no_repr AssemblyAI "key"
             "a.wav" (init_state poll_outage_world)).2 = 4)
  /\ (forall r, (net poll_outage_world 3).2 = HttpResponse r ->
        status_code r = 200%Z -> json_body r = None ->
        (call_adapter poll_outage_world no_repr no_repr AssemblyAI "key"
           "a.wav" (init_state poll_outage_world)).1 = Raises JSONDecodeError
        /\ n_requests
             (call_adapter poll_outage_world no_repr no_repr AssemblyAI "key"
                "a.wav" (init_state poll_outage_world)).2 = 4)
  /\ (forall e, (net poll_outage_world 3).2 = HttpRaises e ->
        (call_adapter poll_outage_world no_repr no_repr AssemblyAI "key"
           "a.wav" (init_state poll_outage_world)).1 = Raises e
        /\ n_requests
             (call_adapter poll_outage_world no_repr no_repr AssemblyAI "key"
                "a.wav" (init_state poll_outage_world)).2 = 4)
  /\ (AssemblyAI = Deepgram ->
      forall r data e, (net poll_outage_world 3).2 = HttpResponse r ->
        status_code r = 200%Z -> json_body r = Some data ->
        subscripts data deepgram_path = Raises e ->
        e = KeyError \/ e = IndexError ->
        error_payload
          (call_adapter poll_outage_world no_repr no_repr AssemblyAI "key"
             "a.wav" (init_state poll_outage_world)).1).
Proof.
  apply (adapter_failure_modes poll_outage_world no_repr no_repr AssemblyAI
           "key" "a.wav" 3).
  vm_compute. lia.
Defined.

(** The second poll fails: the adapter returns the error of that poll
    after four requests. *)
Example call_assemblyai_poll_outage :
  call_adapter poll_outage_world no_repr no_repr AssemblyAI "key" "a.wav"
    (init_state poll_outage_world)
  = (Returns (JNull, 7%Q, Some "Poll failed HTTP 503: Service Unavailable"),
     mkSt 7 4 1 [6%Q; 2%Q; 1%Q; 0%Q]).
Proof. vm_compute. reflexivity. Qed.

(** What the three adapters return on a 503. *)
Example adapters_on_outage :
  (call_adapter outage_world no_repr no_repr ElevenLabs "key" "a.wav"
     (init_state outage_world)).1
  = Returns (JNull, 2%Q, Some "HTTP 503: Service Unavailable")
  /\ (call_adapter outage_world no_repr no_repr Deepgram "key" "a.wav"
        (init_state outage_world)).1
     = Returns (JNull, 2%Q, Some "HTTP 503: Service Unavailable")
  /\ (call_adapter outage_world no_repr no_repr AssemblyAI "key" "a.wav"
        (init_state outage_world)).1
     = Returns (JNull, 2%Q, Some "Upload failed HTTP 503: Service Unavailable").
Proof. vm_compute. repeat split; reflexivity. Qed.

(** C5, as stated, fails: on a request timeout each adapter raises to its
    caller instead of returning a payload. *)
Lemma adapters_raise_on_timeout :
  (call_adapter timeout_world no_repr no_repr ElevenLabs "key" "a.wav"
     (init_state timeout_world)).1 = Raises RequestsTimeout
  /\ (call_adapter timeout_world no_repr no_repr Deepgram "key" "a.wav"
        (init_state timeout_world)).1 = Raises RequestsTimeout
  /\ (call_adapter timeout_world no_repr no_repr AssemblyAI "key" "a.wav"
        (init_state timeout_world)).1 = Raises RequestsTimeout.
Proof. vm_compute. repeat split; reflexivity. Qed.



(** When upload and submission alone outlast the deadline the loop body
    never runs, [status] is unbound and the f-string raises. *)
Example call_assemblyai_unbound_status :
  (call_assemblyai slow_upload_world no_repr "key" "a.wav"
     (init_state slow_upload_world)).1
  = Raises UnboundLocalError.
Proof. vm_compute. reflexivity. Qed.

(** ** Report generator *)

(** Ascending order of the sort key, every element against all later ones. *)
Fixpoint ascending (l : list Summary) : Prop :=
  match l with
  | [] => True
  | x :: l' =>
      Forall (fun y => s_avg_lat x <= s_avg_lat y)%Q l' /\ ascending l'
  end.

Lemma insert_summary_perm (x : Summary) (l : list Summary) :
  insert_summary x l ≡ₚ x :: l.
Proof.
  induction l as [|y l IH]; simpl; [done|].
  destruct (Qle_bool (s_avg_lat x) (s_avg_lat y)); [done|].
  rewrite IH. apply Permutation_swap.
Qed.

Lemma insert_summary_ascending (x : Summary) (l : list Summary) :
  ascending l -> ascending (insert_summary x l).
Proof.
  induction l as [|y l IH]; simpl; [by split|]. intros [Hy Hl].
  destruct (Qle_bool (s_avg_lat x) (s_avg_lat y)) eqn:Hcmp.
  - apply Qle_bool_iff in Hcmp. simpl. split; [|done].
    constructor; [done|]. eapply Forall_impl; [exact Hy|]. simpl.
    intros z Hz. by eapply Qle_trans.
  - assert (s_avg_lat y <= s_avg_lat x)%Q as Hyx.
    { apply Qlt_le_weak, Qnot_le_lt. intros Hle.
      apply Qle_bool_iff in Hle. congruence. }
    simpl. split; [|by apply IH].
    rewrite insert_summary_perm. by constructor.
Qed.

(** The sort of [generate_report] orders the summaries by their key and
    keeps all of them. *)
Lemma sort_summaries_sorted (l : list Summary) :
  ascending (sort_summaries l) /\ sort_summaries l ≡ₚ l.
Proof.
  induction l as [|x l [IH1 IH2]]; simpl; [done|]. split.
  - by apply insert_summary_ascending.
  - by rewrite insert_summary_perm, IH2.
Qed.

(** A provider without a successful run gets the key 999 and a row of
    dashes. *)
Lemma summarize_all_failed lower consensus name runs :
  List.filter has_transcript_key runs = [] ->
  exists s,
    summarize lower consensus (name, runs) = Some s
    /\ s_avg_lat s = 999%Q
    /\ row_of s
       = RowUnavailable name (length (List.filter has_error_key runs))
           (length runs).
Proof.
  intros Hf. unfold summarize. rewrite Hf. by eexists.
Qed.

(** C7, where the code departs from it.  Provider A failed its only run;
    provider B succeeded after 1000 seconds.  The table ranks the failed
    provider first: its sort key is the number 999. *)
Theorem summary_table_failed_before_slow :
  summary_table ascii_lower
    [("A", [ErrorRun 1 "HTTP 500: boom" 2]);
     ("B", [SuccessRun 1 (JStr "hi") 1000 2])] "hi"
  = Some [RowUnavailable "A" 1 1; RowStats "B" 1000 1000 2 (4 # 4) 0 1].
Proof. vm_compute. reflexivity. Qed.

(** A provider whose successful runs average exactly 999 seconds is shown as
    unavailable. *)
Example summary_table_999_unavailable :
  summary_table ascii_lower [("B", [SuccessRun 1 (JStr "hi") 999 2])] "hi"
  = Some [RowUnavailable "B" 0 1].
Proof. vm_compute. reflexivity. Qed.

(** Below 999 seconds the table is as specified. *)
Example summary_table_usual :
  summary_table ascii_lower
    [("A", [ErrorRun 1 "HTTP 500: boom" 2]);
     ("B", [SuccessRun 1 (JStr "hi") 5 2; SuccessRun 2 (JStr "ho") 3 2])] "hi"
  = Some [RowStats "B" (8 # 2) 3 (4 # 2) (24 # 32) 0 2;
          RowUnavailable "A" 1 1].
Proof. vm_compute. reflexivity. Qed.

(** * Further properties *)

(** ** The matcher: where matches lie and what they match *)

Section MatcherBlocks.
Context {A : Type} `{EqDecision A}.
Import Difflib.

Variables a b : list A.

(** The [v] elements that end just before positions [i] of [a] and [j] of
    [b] are the same. *)
Definition common_run (i j v : nat) : Prop :=
  v <= i /\ v <= j
  /\ forall t, t < v ->
       exists c, a !! (i - 1 - t) = Some c /\ b !! (j - 1 - t) = Some c.

(** A block whose elements are equal in [a] and in [b]. *)
Definition is_match (m : Match) : Prop :=
  forall t, t < m_size m ->
    exists c, a !! (m_a m + t) = Some c /\ b !! (m_b m + t) = Some c.

Lemma common_run_match i j k :
  common_run (S i) (S j) k -> is_match (mkMatch (i + 1 - k) (j + 1 - k) k).
Proof.
  intros (Hi & Hj & Hc) t Ht. simpl in *.
  destruct (Hc (k - 1 - t)) as (c & Ha & Hb); [lia|].
  exists c. split.
  - replace (i + 1 - k + t) with (S i - 1 - (k - 1 - t)) by lia. done.
  - replace (j + 1 - k + t) with (S j - 1 - (k - 1 - t)) by lia. done.
Qed.

Lemma common_run_cell i j x (j2len : gmap nat nat) :
  a !! i = Some x -> b !! j = Some x ->
  (forall j' v, j2len !! j' = Some v -> common_run i (S j') v) ->
  common_run (S i) (S j) (j2lenget_pred j2len j + 1).
Proof.
  intros Ha Hb Hprev.
  assert (Hv : common_run i j (j2lenget_pred j2len j)).
  { unfold j2lenget_pred. destruct j as [|j'].
    - split; [lia|]. split; [lia|]. intros t Ht. lia.
    - destruct (j2len !! j') as [v|] eqn:E; simpl; [by apply Hprev|].
      split; [lia|]. split; [lia|]. intros t Ht. lia. }
  destruct Hv as (Hi & Hj & Hc). split; [lia|]. split; [lia|].
  intros t Ht. destruct t as [|t].
  - exists x. replace (S i - 1 - 0) with i by lia.
    by replace (S j - 1 - 0) with j by lia.
  - destruct (Hc t) as (c & H1 & H2); [lia|]. exists c.
    replace (S i - 1 - S t) with (i - 1 - t) by lia.
    replace (S j - 1 - S t) with (j - 1 - t) by lia. done.
Qed.

(** A row keeps the new [j2len] and the best match genuine and within
    [[blo, bhi)]. *)
Lemma scan_row_sound i x blo bhi j2len js : forall nj best,
  a !! i = Some x -> Forall (fun j => b !! j = Some x) js ->
  blo <= bhi ->
  (forall j v, j2len !! j = Some v ->
     common_run i (S j) v /\ v <= S j - blo) ->
  (forall j v, nj !! j = Some v ->
     common_run (S i) (S j) v /\ v <= S j - blo) ->
  is_match best -> blo <= m_b best -> m_b best + m_size best <= bhi ->
  (forall j v, (scan_row i blo bhi j2len js nj best).1 !! j = Some v ->
     common_run (S i) (S j) v /\ v <= S j - blo)
  /\ is_match (scan_row i blo bhi j2len js nj best).2
  /\ blo <= m_b (scan_row i blo bhi j2len js nj best).2
  /\ m_b (scan_row i blo bhi j2len js nj best).2
     + m_size (scan_row i blo bhi j2len js nj best).2 <= bhi.
Proof.
  intros nj best Ha Hjs Hle Hprev. revert nj best.
  induction Hjs as [|j js Hb _ IH]; intros nj best Hnj Hm Hlo Hhi; simpl;
    [done|].
  destruct (Nat.ltb_spec j blo); [by apply IH|].
  destruct (Nat.leb_spec bhi j); [done|].
  assert (Hrun : common_run (S i) (S j) (j2lenget_pred j2len j + 1)).
  { eapply common_run_cell; [done|done|]. intros j' v Hv. by apply Hprev. }
  assert (Hk : j2lenget_pred j2len j + 1 <= S j - blo).
  { unfold j2lenget_pred. destruct j as [|j']; [lia|].
    destruct (j2len !! j') as [v|] eqn:E; simpl; [|lia].
    destruct (Hprev _ _ E) as [_ ?]. lia. }
  apply IH.
  - intros j' v. destruct (decide (j = j')) as [<-|Hne].
    + rewrite lookup_insert_eq. by intros [= <-].
    + rewrite lookup_insert_ne by done. apply Hnj.
  - destruct (m_size best <? j2lenget_pred j2len j + 1); [|done].
    by apply common_run_match.
  - destruct (m_size best <? j2lenget_pred j2len j + 1); simpl; lia.
  - destruct (m_size best <? j2lenget_pred j2len j + 1); simpl; lia.
Qed.

Lemma b2j_lookup x : Forall (fun j => b !! j = Some x) (b2j b x).
Proof.
  unfold b2j. destruct (popular b x); [constructor|].
  apply Forall_forall. intros j Hj. by apply indices_lookup.
Qed.

Lemma main_loop_sound blo bhi m : forall i j2len best,
  blo <= bhi ->
  (forall j v, j2len !! j = Some v ->
     common_run i (S j) v /\ v <= S j - blo) ->
  is_match best -> blo <= m_b best -> m_b best + m_size best <= bhi ->
  is_match (main_loop a b (seq i m) blo bhi j2len best)
  /\ blo <= m_b (main_loop a b (seq i m) blo bhi j2len best)
  /\ m_b (main_loop a b (seq i m) blo bhi j2len best)
     + m_size (main_loop a b (seq i m) blo bhi j2len best) <= bhi.
Proof.
  induction m as [|m IH]; intros i j2len best Hle Hprev Hm Hlo Hhi; simpl;
    [done|].
  destruct (a !! i) as [x|] eqn:Ha.
  - destruct (scan_row_sound i x blo bhi j2len (b2j b x) ∅ best)
      as (H1 & H2 & H3 & H4);
      [done|apply b2j_lookup|done|done
      |intros j v; by rewrite lookup_empty|done|done|done|].
    destruct (scan_row i blo bhi j2len (b2j b x) ∅ best) as [nj best'].
    by apply IH.
  - simpl. apply IH; try done; intros j v; by rewrite lookup_empty.
Qed.

Lemma extends_true junk i j :
  extends a b junk i j = true ->
  exists c, a !! i = Some c /\ b !! j = Some c.
Proof.
  unfold extends. destruct (a !! i) as [x|], (b !! j) as [y|]; try done.
  intros [_ Heq%bool_decide_eq_true]%andb_true_iff. subst. by exists y.
Qed.

Lemma extend_left_sound junk alo blo bhi n : forall m,
  is_match m -> blo <= m_b m -> m_b m + m_size m <= bhi ->
  is_match (extend_left a b junk alo blo n m)
  /\ blo <= m_b (extend_left a b junk alo blo n m)
  /\ m_b (extend_left a b junk alo blo n m)
     + m_size (extend_left a b junk alo blo n m) <= bhi.
Proof.
  induction n as [|n IH]; intros m Hm Hlo Hhi; simpl; [done|].
  destruct (Nat.ltb_spec alo (m_a m)); simpl; [|done].
  destruct (Nat.ltb_spec blo (m_b m)); simpl; [|done].
  destruct (extends a b junk (m_a m - 1) (m_b m - 1)) eqn:He; [|done].
  apply extends_true in He as (c & Hc1 & Hc2).
  apply IH; simpl; [|lia|lia].
  intros t Ht. simpl in *. destruct t as [|t].
  - exists c. by rewrite !Nat.add_0_r.
  - destruct (Hm t) as (c' & H1 & H2); [lia|]. exists c'.
    replace (m_a m - 1 + S t) with (m_a m + t) by lia.
    replace (m_b m - 1 + S t) with (m_b m + t) by lia. done.
Qed.

Lemma extend_right_sound junk ahi blo bhi n : forall m,
  is_match m -> blo <= m_b m -> m_b m + m_size m <= bhi ->
  is_match (extend_right a b junk ahi bhi n m)
  /\ blo <= m_b (extend_right a b junk ahi bhi n m)
  /\ m_b (extend_right a b junk ahi bhi n m)
     + m_size (extend_right a b junk ahi bhi n m) <= bhi.
Proof.
  induction n as [|n IH]; intros m Hm Hlo Hhi; simpl; [done|].
  destruct (Nat.ltb_spec (m_a m + m_size m) ahi); simpl; [|done].
  destruct (Nat.ltb_spec (m_b m + m_size m) bhi); simpl; [|done].
  destruct (extends a b junk (m_a m + m_size m) (m_b m + m_size m)) eqn:He;
    [|done].
  apply extends_true in He as (c & Hc1 & Hc2).
  apply IH; simpl; [|lia|lia].
  intros t Ht. simpl in *.
  destruct (decide (t = m_size m)) as [->|Hne]; [by exists c|].
  apply Hm. lia.
Qed.

(** The block that [find_longest_match] returns is a common block of
    [a] and [b], within [[blo, bhi)] on the side of [b]. *)
Lemma find_longest_match_sound alo ahi blo bhi :
  blo <= bhi ->
  is_match (find_longest_match a b alo ahi blo bhi)
  /\ blo <= m_b (find_longest_match a b alo ahi blo bhi)
  /\ m_b (find_longest_match a b alo ahi blo bhi)
     + m_size (find_longest_match a b alo ahi blo bhi) <= bhi.
Proof.
  intros Hle. unfold find_longest_match.
  destruct (main_loop_sound blo bhi (ahi - alo) alo ∅ (mkMatch alo blo 0))
    as (H1 & H2 & H3);
    [done|intros j v; by rewrite lookup_empty
    |intros t Ht; simpl in Ht; lia|done|simpl; lia|].
  set (m0 := main_loop a b (seq alo (ahi - alo)) blo bhi ∅ (mkMatch alo blo 0))
    in *.
  destruct (extend_left_sound false alo blo bhi (m_a m0) m0 H1 H2 H3)
    as (H4 & H5 & H6).
  set (m1 := extend_left a b false alo blo (m_a m0) m0) in *.
  destruct (extend_right_sound false ahi blo bhi
              (ahi - (m_a m1 + m_size m1)) m1 H4 H5 H6) as (H7 & H8 & H9).
  set (m2 := extend_right a b false ahi bhi (ahi - (m_a m1 + m_size m1)) m1)
    in *.
  destruct (extend_left_sound true alo blo bhi (m_a m2) m2 H7 H8 H9)
    as (H10 & H11 & H12).
  by apply extend_right_sound.
Qed.
(** The sum of the block sizes, as [ratio] takes it. *)
Definition total (l : list Match) : nat :=
  foldr (fun x acc => m_size x + acc) 0 l.

Lemma total_app (l1 l2 : list Match) : total (l1 ++ l2) = total l1 + total l2.
Proof. induction l1 as [|x l1 IH]; simpl; [done|]. rewrite IH. lia. Qed.

(** The elements of [a], and those of [b], that the queued ranges cover. *)
Definition queue_a (queue : list (nat * nat * nat * nat)) : nat :=
  foldr (fun r acc => r.1.1.2 - r.1.1.1 + acc) 0 queue.

Definition queue_b (queue : list (nat * nat * nat * nat)) : nat :=
  foldr (fun r acc => r.2 - r.1.2 + acc) 0 queue.

Definition genuine (m : Match) : Prop := is_match m /\ 1 <= m_size m.

(** The blocks that the loop collects are non-empty common blocks, and they
    fit into the ranges they were cut from. *)
Lemma blocks_loop_blocks fuel : forall queue acc r,
  Forall (fun r : nat * nat * nat * nat =>
            r.1.1.1 <= r.1.1.2 /\ r.1.2 <= r.2) queue ->
  Forall genuine acc ->
  blocks_loop a b fuel queue acc = Some r ->
  Forall genuine r
  /\ total r <= total acc + queue_a queue
  /\ total r <= total acc + queue_b queue.
Proof.
  induction fuel as [|fuel IH]; intros queue acc r Hq Hacc;
    destruct queue as [|[[[alo ahi] blo] bhi] queue]; cbn [blocks_loop];
    try done.
  - intros [= <-]. simpl. split; [done|lia].
  - intros [= <-]. simpl. split; [done|lia].
  - apply Forall_cons in Hq as [[Ha Hb] Hq]. simpl in Ha, Hb.
    destruct (find_longest_match_range a b alo ahi blo bhi Ha) as [A1 A2].
    destruct (find_longest_match_sound alo ahi blo bhi Hb) as (B0 & B1 & B2).
    set (x := find_longest_match a b alo ahi blo bhi) in *.
    destruct (Nat.eqb_spec (m_size x) 0) as [Hk|Hk].
    { intros Hr. destruct (IH _ _ _ Hq Hacc Hr) as (R1 & R2 & R3).
      simpl. split; [done|lia]. }
    assert (Hacc' : Forall genuine (acc ++ [x])).
    { apply Forall_app. split; [done|]. constructor; [|constructor].
      split; [done|lia]. }
    pose proof (total_app acc [x]) as Ht. simpl in Ht.
    destruct (Nat.ltb_spec alo (m_a x)), (Nat.ltb_spec blo (m_b x));
      destruct (Nat.ltb_spec (m_a x + m_size x) ahi),
               (Nat.ltb_spec (m_b x + m_size x) bhi);
      cbn [andb]; intros Hr;
      (eapply IH in Hr as (R1 & R2 & R3);
       [|repeat (apply Forall_cons; split; [simpl; lia|]); done|done]);
      simpl in *; (split; [done|lia]).
Qed.

Lemma raw_blocks_blocks :
  Forall genuine (raw_blocks a b)
  /\ total (raw_blocks a b) <= length a
  /\ total (raw_blocks a b) <= length b.
Proof.
  destruct (blocks_loop_blocks (2 * length a + 1)
              [(0, length a, 0, length b)] [] (raw_blocks a b))
    as (H1 & H2 & H3).
  - repeat constructor; simpl; lia.
  - constructor.
  - apply blocks_loop_total.
  - simpl in *. split; [done|lia].
Qed.

Lemma total_insert_block x l : total (insert_block x l) = m_size x + total l.
Proof.
  induction l as [|y l IH]; simpl; [done|].
  destruct (match_leb x y); simpl; [done|]. rewrite IH. lia.
Qed.

Lemma total_sort_blocks l : total (sort_blocks l) = total l.
Proof.
  induction l as [|x l IH]; simpl; [done|].
  by rewrite total_insert_block, IH.
Qed.

Lemma total_flush i j k l : total (flush i j k l) = k + total l.
Proof.
  unfold flush. destruct (Nat.eqb_spec k 0) as [->|]; [done|].
  rewrite total_app. simpl. lia.
Qed.

Lemma total_collapse blocks : forall i j k l,
  total (collapse blocks i j k l) = total blocks + k + total l.
Proof.
  induction blocks as [|x blocks IH]; intros i j k l; simpl.
  - apply total_flush.
  - destruct ((i + k =? m_a x) && (j + k =? m_b x)); rewrite IH.
    + lia.
    + rewrite total_flush. lia.
Qed.

(** Sorting and merging adjacent blocks do not change the sum. *)
Lemma matches_total : matches a b = total (raw_blocks a b).
Proof.
  unfold matches, get_matching_blocks. fold (total (collapse (sort_blocks
    (raw_blocks a b)) 0 0 0 [] ++ [mkMatch (length a) (length b) 0])).
  rewrite total_app, total_collapse, total_sort_blocks. simpl. lia.
Qed.

Lemma matches_le : matches a b <= length a /\ matches a b <= length b.
Proof. rewrite matches_total. apply raw_blocks_blocks. Qed.

Lemma ratio_le_1 : (ratio a b <= 1)%Q.
Proof.
  unfold ratio, calculate_ratio. destruct matches_le as [Ha Hb].
  destruct (Nat.eqb_spec (length a + length b) 0) as [|Hnz];
    [apply Qle_refl|].
  apply Qle_shift_div_r.
  - replace 0%Q with (inject_Z 0) by done. rewrite <- Zlt_Qlt. lia.
  - rewrite Qmult_1_l. change 2%Q with (inject_Z 2).
    rewrite <- inject_Z_mult, <- Zle_Qle. lia.
Qed.

(** Sequences without a common element have no matching block. *)
Lemma matches_disjoint :
  (forall c, c ∈ a -> c ∉ b) -> matches a b = 0.
Proof.
  intros Hd. rewrite matches_total.
  destruct raw_blocks_blocks as [Hg _].
  destruct (raw_blocks a b) as [|m l]; [done|].
  apply Forall_cons in Hg as [[Hm Hs] _].
  destruct (Hm 0) as (c & Hc1 & Hc2); [lia|]. exfalso.
  apply (Hd c); by eapply list_elem_of_lookup_2.
Qed.
End MatcherBlocks.

(** ** The range of the similarity score *)

Lemma length_list_ascii_of_string (s : string) :
  length (String.list_ascii_of_string s) = String.length s.
Proof. induction s as [|c s IH]; simpl; [done|]. by rewrite IH. Qed.

Section SimilarityRange.
Variable lower : string -> string.

(** X1.  [similarity(a, b)] lies between 0 and 1 for all strings. *)
Theorem similarity_range (a b : string) :
  (0 <= similarity lower a b)%Q /\ (similarity lower a b <= 1)%Q.
Proof. split; [apply ratio_nonneg|apply ratio_le_1]. Qed.

(** X2.  Two strings that share no character after lower-casing, not both
    of them empty, have similarity 0; so has a non-empty string with an
    empty one. *)
Theorem similarity_disjoint (a b : string) :
  (forall c, c ∈ String.list_ascii_of_string (lower a) ->
     c ∉ String.list_ascii_of_string (lower b)) ->
  lower a <> EmptyString \/ lower b <> EmptyString ->
  (similarity lower a b == 0)%Q.
Proof.
  intros Hd Hne. unfold similarity, Difflib.ratio, Difflib.calculate_ratio.
  rewrite (matches_disjoint _ _ Hd), !length_list_ascii_of_string.
  destruct (Nat.eqb_spec (String.length (lower a) + String.length (lower b)) 0)
    as [Hz|Hnz].
  - exfalso. destruct Hne as [Hne|Hne]; apply Hne.
    + destruct (lower a); [done|simpl in Hz; lia].
    + destruct (lower b); [done|simpl in Hz; lia].
  - change (inject_Z (Z.of_nat 0)) with 0%Q. field.
    intros Hq. apply Hnz. unfold Qeq in Hq. simpl in Hq. lia.
Qed.

(** X3.  Strings of different lengths after lower-casing score strictly
    less than 1. *)
Theorem similarity_lengths_differ (a b : string) :
  String.length (lower a) <> String.length (lower b) ->
  (similarity lower a b < 1)%Q.
Proof.
  intros Hne. unfold similarity, Difflib.ratio, Difflib.calculate_ratio.
  destruct (matches_le (String.list_ascii_of_string (lower a))
              (String.list_ascii_of_string (lower b))) as [Ha Hb].
  rewrite !length_list_ascii_of_string in *.
  destruct (Nat.eqb_spec (String.length (lower a) + String.length (lower b)) 0)
    as [Hz|Hnz]; [lia|].
  apply Qlt_shift_div_r.
  - replace 0%Q with (inject_Z 0) by done. rewrite <- Zlt_Qlt. lia.
  - rewrite Qmult_1_l. change 2%Q with (inject_Z 2).
    rewrite <- inject_Z_mult, <- Zlt_Qlt. lia.
Qed.
End SimilarityRange.

Lemma similarity_disjoint_witness :
  ((forall c, c ∈ String.list_ascii_of_string (ascii_lower "ABC") ->
      c ∉ String.list_ascii_of_string (ascii_lower "xyz"))
   /\ (ascii_lower "ABC" <> EmptyString \/ ascii_lower "xyz" <> EmptyString))
  /\ (similarity ascii_lower "ABC" "xyz" == 0)%Q.
Proof.
  assert (Hd : forall c, c ∈ String.list_ascii_of_string (ascii_lower "ABC") ->
                 c ∉ String.list_ascii_of_string (ascii_lower "xyz")).
  { apply Forall_forall. apply (bool_decide_unpack _). vm_compute.
    reflexivity. }
  assert (Hne : ascii_lower "ABC" <> EmptyString
                \/ ascii_lower "xyz" <> EmptyString)
    by (left; vm_compute; discriminate).
  split; [by split|].
  exact (similarity_disjoint ascii_lower "ABC" "xyz" Hd Hne).
Defined.

Lemma similarity_lengths_differ_witness :
  String.length (ascii_lower "Fox") <> String.length (ascii_lower "foxes")
  /\ (similarity ascii_lower "Fox" "foxes" < 1)%Q.
Proof.
  assert (Hne : String.length (ascii_lower "Fox")
                <> String.length (ascii_lower "foxes"))
    by (vm_compute; lia).
  split; [done|].
  exact (similarity_lengths_differ ascii_lower "Fox" "foxes" Hne).
Defined.

(** ** The consensus and the runs it is taken from *)

Lemma pool_of_runs_elem (runs : list RunOutcome) (v : json) :
  v ∈ pool_of_runs runs
  <-> json_truthy v = true
      /\ exists it lat chars, SuccessRun it v lat chars ∈ runs.
Proof.
  unfold pool_of_runs. rewrite list_elem_of_omap. split.
  - intros (r & Hr & Hv). destruct r as [it e l|it t l c]; simpl in Hv;
      [done|].
    destruct (json_truthy t) eqn:Ht; [|done]. injection Hv as <-.
    split; [done|]. by exists it, l, c.
  - intros (Ht & it & l & c & Hr). exists (SuccessRun it v l c).
    split; [done|]. simpl. by rewrite Ht.
Qed.

Lemma pool_elem (results : ResultSet) (v : json) :
  v ∈ pool results
  <-> exists n runs, (n, runs) ∈ results /\ v ∈ pool_of_runs runs.
Proof.
  unfold pool. induction results as [|[n runs] results IH]; simpl.
  - split; [by intros ?%elem_of_nil|].
    by intros (n & runs & ?%elem_of_nil & _).
  - rewrite elem_of_app, IH. split.
    + intros [Ht|(n' & runs' & Hin & Ht)].
      * exists n, runs. split; [by left|done].
      * exists n', runs'. split; [by right|done].
    + intros (n' & runs' & [[= -> ->]|Hin]%elem_of_cons & Ht); [by left|].
      right. by exists n', runs'.
Qed.

Lemma pool_of_runs_successes (runs : list RunOutcome) :
  pool_of_runs (List.filter has_transcript_key runs) = pool_of_runs runs.
Proof.
  unfold pool_of_runs. induction runs as [|r runs IH]; [done|].
  destruct r as [it e l|it t l c]; cbn [List.filter has_transcript_key].
  - cbn [omap list_omap get_transcript json_truthy]. exact IH.
  - cbn [omap list_omap]. by rewrite IH.
Qed.

Lemma mapM_json_str_inv (l : list json) (ts : list string) :
  mapM json_str l = Some ts -> l = map JStr ts.
Proof.
  intros Hm. symmetry. apply (mapM_fmap_Some_inv json_str JStr _ _ Hm).
  intros [] y; simpl; try done. by intros [= ->].
Qed.

Section ConsensusRuns.
Variable lower : string -> string.
Variables (round : Q -> Q) (fsum : list Q -> Q).

(** The consensus is the empty string for an empty pool and a member of
    the pool otherwise; the exception is raised when a member of the pool
    is no [str]. *)
Lemma compute_consensus_pool (results : ResultSet) :
  match compute_consensus lower round fsum results with
  | Some c =>
      (pool results = [] /\ c = EmptyString) \/ JStr c ∈ pool results
  | None => exists v, v ∈ pool results /\ json_str v = None
  end.
Proof.
  unfold compute_consensus.
  destruct (mapM json_str (pool results)) as [ts|] eqn:Hm;
    cbn [mbind option_bind].
  - apply mapM_json_str_inv in Hm. rewrite Hm.
    destruct ts as [|t0 ts]; [by left|]. right.
    apply (list_elem_of_fmap_2 JStr).
    pose proof (best_loop_elem lower round fsum (t0 :: ts) (t0 :: ts)
                  (-1)%Q t0) as Hin.
    apply elem_of_cons in Hin as [->|Hin]; [by left|done].
  - apply mapM_None, Exists_exists in Hm. exact Hm.
Qed.

Lemma pool_truthy (results : ResultSet) (v : json) :
  v ∈ pool results -> json_truthy v = true.
Proof.
  intros (n & runs & _ & Hv)%pool_elem.
  by apply pool_of_runs_elem in Hv as [Hv _].
Qed.

Lemma pool_nil_iff (results : ResultSet) :
  pool results = []
  <-> forall n runs r, (n, runs) ∈ results -> r ∈ runs ->
        json_truthy (get_transcript r) = false.
Proof.
  split.
  - intros Hp n runs r Hin Hr.
    destruct (json_truthy (get_transcript r)) eqn:Ht; [|done]. exfalso.
    destruct r as [it e l|it t l c]; simpl in Ht; [done|].
    assert (Hv : t ∈ pool results).
    { apply pool_elem. exists n, runs. split; [done|].
      apply pool_of_runs_elem. split; [done|]. by exists it, l, c. }
    rewrite Hp in Hv. by apply elem_of_nil in Hv.
  - intros Hnone. destruct (pool results) as [|v vs] eqn:Hp; [done|].
    exfalso. assert (Hv : v ∈ pool results) by (rewrite Hp; by left).
    pose proof (pool_truthy _ _ Hv) as Ht.
    apply pool_elem in Hv as (n & runs & Hin & Hv).
    apply pool_of_runs_elem in Hv as (_ & it & l & c & Hr).
    specialize (Hnone n runs _ Hin Hr). simpl in Hnone. congruence.
Qed.

(** X4.  The consensus is the empty string exactly when no run of the
    ResultSet has a truthy transcript. *)
Theorem compute_consensus_empty_iff (results : ResultSet) :
  compute_consensus lower round fsum results = Some EmptyString
  <-> forall n runs r, (n, runs) ∈ results -> r ∈ runs ->
        json_truthy (get_transcript r) = false.
Proof.
  rewrite <- pool_nil_iff. split.
  - intros Hc. pose proof (compute_consensus_pool results) as Hp.
    rewrite Hc in Hp. destruct Hp as [[Hp _]|Hp]; [done|].
    by apply pool_truthy in Hp.
  - intros Hp. unfold compute_consensus. by rewrite Hp.
Qed.

(** X5.  A non-empty consensus is the transcript of a successful run of
    some provider. *)
Theorem compute_consensus_from_run (results : ResultSet) (c : string) :
  compute_consensus lower round fsum results = Some c ->
  c <> EmptyString ->
  exists n runs it lat chars,
    (n, runs) ∈ results /\ SuccessRun it (JStr c) lat chars ∈ runs.
Proof.
  intros Hc Hne. pose proof (compute_consensus_pool results) as Hp.
  rewrite Hc in Hp. destruct Hp as [[_ ->]|Hp]; [done|].
  apply pool_elem in Hp as (n & runs & Hin & Hp).
  apply pool_of_runs_elem in Hp as (_ & it & l & ch & Hr).
  by exists n, runs, it, l, ch.
Qed.

(** X6.  Failed runs do not influence the consensus: dropping every run
    without a ["transcript"] key leaves it unchanged. *)
Theorem compute_consensus_ignores_failures (results : ResultSet) :
  compute_consensus lower round fsum
    (map (fun entry => (entry.1, List.filter has_transcript_key entry.2))
       results)
  = compute_consensus lower round fsum results.
Proof.
  assert (Hp : pool (map (fun entry : string * list RunOutcome =>
                            (entry.1, List.filter has_transcript_key entry.2))
                       results)
               = pool results).
  { unfold pool. rewrite map_map. f_equal. apply map_ext. intros [n runs].
    apply pool_of_runs_successes. }
  unfold compute_consensus. by rewrite Hp.
Qed.
End ConsensusRuns.

Lemma compute_consensus_from_run_witness :
  exists n runs it lat chars,
    (n, runs) ∈ [("X", [SuccessRun 1 (JStr "the quick brown fox") 1 19]);
                 ("Z", [ErrorRun 1 "HTTP 500: boom" 3])]
    /\ SuccessRun it (JStr "the quick brown fox") lat chars ∈ runs.
Proof.
  apply (compute_consensus_from_run ascii_lower unrounded Qsum
           [("X", [SuccessRun 1 (JStr "the quick brown fox") 1 19]);
            ("Z", [ErrorRun 1 "HTTP 500: boom" 3])]
           "the quick brown fox").
  - vm_compute. reflexivity.
  - discriminate.
Defined.

(** ** The ResultSet as a whole *)

Section DictOrder.
Context {V : Type}.

Lemma dict_append_keys (d : dict (list V)) k x :
  map fst (dict_append d k x) = map fst d.
Proof.
  induction d as [|[k0 l0] d IH]; simpl; [done|].
  destruct (String.eqb k0 k); simpl; [done|]. by rewrite IH.
Qed.

Lemma dict_set_fresh (d : dict V) k v :
  k ∉ map fst d -> dict_set d k v = d ++ [(k, v)].
Proof.
  induction d as [|[k0 v0] d IH]; simpl; [done|].
  intros [Hne Hk]%not_elem_of_cons.
  destruct (String.eqb_spec k0 k) as [->|_]; [done|]. by rewrite IH.
Qed.

Lemma dict_get_None (d : dict V) k : k ∉ map fst d -> dict_get d k = None.
Proof.
  induction d as [|[k0 v0] d IH]; simpl; [done|].
  intros [Hne Hk]%not_elem_of_cons.
  destruct (String.eqb_spec k0 k) as [->|_]; [done|]. by apply IH.
Qed.

(** Two dicts with the same keys in the same order, none of them twice, and
    the same value under each key, are equal. *)
Lemma dict_ext (d1 d2 : dict V) :
  map fst d1 = map fst d2 -> NoDup (map fst d1) ->
  (forall k, k ∈ map fst d1 -> dict_get d1 k = dict_get d2 k) ->
  d1 = d2.
Proof.
  revert d2. induction d1 as [|[k1 v1] d1 IH]; intros [|[k2 v2] d2]; simpl;
    try done.
  intros [= <- Hkeys] [Hk1 Hnd]%NoDup_cons Hget.
  pose proof (Hget k1 ltac:(by left)) as Hv. rewrite String.eqb_refl in Hv.
  injection Hv as <-. f_equal. apply IH; [done|done|].
  intros k Hk. specialize (Hget k ltac:(by right)).
  destruct (String.eqb_spec k1 k) as [->|_]; done.
Qed.
End DictOrder.

Lemma dict_get_closed {V : Type} (f : Provider -> V) (active : list Provider) p :
  NoDup (map name active) -> p ∈ active ->
  dict_get (map (fun p => (name p, f p)) active) (name p) = Some (f p).
Proof.
  induction active as [|q active IH]; simpl; [by intros _ ?%elem_of_nil|].
  intros [Hq Hnd]%NoDup_cons [->|Hp]%elem_of_cons.
  - by rewrite String.eqb_refl.
  - destruct (String.eqb_spec (name q) (name p)) as [Heq|_]; [|by apply IH].
    exfalso. apply Hq. rewrite Heq. by apply (list_elem_of_fmap_2 name).
Qed.

Lemma init_results_closed (active : list Provider) : forall d0 : ResultSet,
  NoDup (map fst d0 ++ map name active) ->
  fold_left (fun d p => dict_set d (name p) []) active d0
  = d0 ++ map (fun p => (name p, [])) active.
Proof.
  induction active as [|p active IH]; intros d0 Hnd; simpl.
  - by rewrite app_nil_r.
  - simpl in Hnd. rewrite dict_set_fresh.
    + rewrite IH; [by rewrite <- app_assoc|].
      rewrite map_app. simpl. by rewrite <- app_assoc.
    + apply NoDup_app in Hnd as (_ & Hd & _). intros Hin.
      apply (Hd _ Hin). by left.
Qed.

(** A stored run is well formed: its iteration number is in range, an
    error run has a non-empty error, and [chars] of a success run is the
    length of its transcript when that is truthy, and 0 when it is falsy. *)
Definition run_well_formed (iterations : nat) (r : RunOutcome) : Prop :=
  1 <= iteration_of r <= iterations
  /\ match r with
     | ErrorRun _ error _ => error <> EmptyString
     | SuccessRun _ transcript _ chars =>
         (if json_truthy transcript then json_len transcript else Some 0)
         = Some chars
     end.

Lemma dict_append_Forall {V : Type} (P : V -> Prop) (d : dict (list V)) k x :
  P x -> Forall (fun entry => Forall P entry.2) d ->
  Forall (fun entry => Forall P entry.2) (dict_append d k x).
Proof.
  intros Hx. induction d as [|[k0 l0] d IH]; simpl; [done|].
  intros [Hl Hd]%Forall_cons. simpl in Hl.
  destruct (String.eqb k0 k); apply Forall_cons; simpl.
  - split; [|done]. apply Forall_app. split; [done|]. by constructor.
  - split; [done|]. by apply IH.
Qed.

Lemma dict_set_nil_Forall {V : Type} (P : V -> Prop) (d : dict (list V)) k :
  Forall (fun entry => Forall P entry.2) d ->
  Forall (fun entry => Forall P entry.2) (dict_set d k []).
Proof.
  induction d as [|[k0 l0] d IH]; simpl.
  - intros _. by repeat constructor.
  - intros [Hl Hd]%Forall_cons.
    destruct (String.eqb k0 k); apply Forall_cons; simpl;
      (split; [done|]); [done|by apply IH].
Qed.

(** [Submit] events of the trace *)
Definition is_submit (e : event) : bool :=
  match e with
  | Submit _ _ => true
  | _ => false
  end.

Lemma collect_well_formed iterations iteration out d future out' d' :
  iteration < iterations ->
  collect iteration (out, d) future = (out', Some d') ->
  Forall (fun entry => Forall (run_well_formed iterations) entry.2) d ->
  Forall (fun entry => Forall (run_well_formed iterations) entry.2) d'.
Proof.
  intros Hit. destruct future as [n [t l e|m]]; simpl.
  - destruct (opt_truthy e) eqn:He.
    + intros [= <- <-] Hd. apply dict_append_Forall; [|done].
      split; [simpl; lia|]. by destruct e as [[|c e]|].
    + destruct (if json_truthy t then json_len t else Some 0) as [chars|]
        eqn:Hlen; [|done].
      intros [= <- <-] Hd. apply dict_append_Forall; [|done].
      split; [simpl; lia|done].
  - destruct (str_truthy m) eqn:Hm.
    + intros [= <- <-] Hd. apply dict_append_Forall; [|done].
      split; [simpl; lia|]. by destruct m.
    + intros [= <- <-] Hd. apply dict_append_Forall; [|done].
      split; [simpl; lia|done].
Qed.

Lemma collect_submit iteration out d future :
  List.filter is_submit (collect iteration (out, d) future).1
  = List.filter is_submit out.
Proof.
  destruct future as [n [t l e|m]]; simpl.
  - destruct (opt_truthy e); simpl.
    + rewrite List.filter_app. simpl. by rewrite app_nil_r.
    + destruct (if json_truthy t then json_len t else Some 0); simpl;
        [|done].
      rewrite List.filter_app. simpl. by rewrite app_nil_r.
  - destruct (str_truthy m); simpl; rewrite List.filter_app; simpl;
      by rewrite app_nil_r.
Qed.

(** What holds of the value when a loop with a raising body starts holds
    when it ends, if every pass that does not raise keeps it. *)
Lemma fold_until_inv {X S : Type} (I : S -> Prop)
    (body : list event * S -> X -> list event * option S) (xs : list X) :
  (forall st x out' s', x ∈ xs -> I st.2 -> body st x = (out', Some s') ->
     I s') ->
  forall st out' s',
    I st.2 -> fold_until body xs st = (out', Some s') -> I s'.
Proof.
  induction xs as [|x xs IH]; intros Hbody st out' s' Hst; simpl.
  - by intros [= _ <-].
  - destruct (body st x) as [out1 [s1|]] eqn:Hb; [|done].
    apply IH; [|by eapply (Hbody st x); [left| |]].
    intros st2 x2 o2 s2 Hx2. apply Hbody. by right.
Qed.

Section RunEvalTrace.
Variable invoke : Provider -> string -> string -> nat -> CallResult.
Variable as_completed :
  nat -> list (string * CallResult) -> list (string * CallResult).
Variables (keys : gmap string string) (wav_path : string).

Lemma fold_until_collect_submit iteration futures : forall st,
  List.filter is_submit (fold_until (collect iteration) futures st).1
  = List.filter is_submit st.1.
Proof.
  induction futures as [|f futures IH]; intros [out d]; [done|].
  cbn [fold_until]. pose proof (collect_submit iteration out d f) as Hc.
  destruct (collect iteration (out, d) f) as [out1 [d1|]]; cbn [fst] in *;
    [|done].
  by rewrite IH.
Qed.

Lemma filter_submit_map (active : list Provider) iteration :
  List.filter is_submit (map (fun p => Submit (name p) iteration) active)
  = map (fun p => Submit (name p) iteration) active.
Proof. induction active as [|p active IH]; simpl; [done|]. by rewrite IH. Qed.

Lemma run_iteration_submit active iterations st iteration :
  List.filter is_submit
    (run_iteration invoke as_completed active keys wav_path iterations st
       iteration).1
  = List.filter is_submit st.1
    ++ map (fun p => Submit (name p) iteration) active.
Proof.
  destruct st as [out d]. unfold run_iteration.
  rewrite fold_until_collect_submit. cbn [fst].
  rewrite List.filter_app, filter_submit_map.
  destruct (1 <? iterations); [|done].
  rewrite List.filter_app. simpl. by rewrite app_nil_r.
Qed.

Lemma run_iterations_submit active iterations k : forall start out d,
  exists started,
    started <= k
    /\ List.filter is_submit
         (fold_until (run_iteration invoke as_completed active keys wav_path
                        iterations) (seq start k) (out, d)).1
       = List.filter is_submit out
         ++ flat_map (fun it => map (fun p => Submit (name p) it) active)
              (seq start started)
    /\ (is_Some (fold_until (run_iteration invoke as_completed active keys
                               wav_path iterations) (seq start k) (out, d)).2
        -> started = k).
Proof.
  induction k as [|k IH]; intros start out d.
  - exists 0. simpl. by rewrite app_nil_r.
  - cbn [seq fold_until].
    pose proof (run_iteration_submit active iterations (out, d) start) as Hit.
    destruct (run_iteration invoke as_completed active keys wav_path
                iterations (out, d) start) as [out1 [d1|]]; cbn [fst] in Hit.
    + destruct (IH (S start) out1 d1) as (j & Hj & Hsub & Hall).
      exists (S j). split; [lia|]. split.
      * rewrite Hsub, Hit. cbn [seq flat_map]. by rewrite <- app_assoc.
      * intros Hsome. by rewrite Hall.
    + exists 1. split; [lia|]. split.
      * cbn [fst seq flat_map]. by rewrite Hit, app_nil_r.
      * by intros [? ?].
Qed.

(** X9.  Whatever the adapters return and in whatever order the futures
    complete, [run_eval] submits every active provider to the executor
    once, in registry order, in each iteration that it starts, and
    nothing else; it starts the iterations in order, and all of them when
    it returns a ResultSet. *)
Theorem run_eval_submissions (providers : list Provider) (iterations : nat) :
  exists started,
    started <= iterations
    /\ List.filter is_submit
         (run_eval invoke as_completed providers keys wav_path iterations).1
       = flat_map (fun it =>
                     map (fun p => Submit (name p) it)
                       (active_of providers keys))
           (seq 0 started)
    /\ (forall results,
          (run_eval invoke as_completed providers keys wav_path iterations).2
          = Done results ->
          started = iterations).
Proof.
  unfold run_eval. fold (active_of providers keys).
  fold (skipped_of providers keys).
  destruct (active_of providers keys) as [|a0 active'] eqn:Ha.
  - exists iterations. split; [done|]. split; [|done].
    cbn [fst]. rewrite List.filter_app. simpl.
    assert (Hf : forall l : list nat,
              flat_map (fun _ : nat => @nil event) l = []).
    { induction l; simpl; done. }
    rewrite Hf, app_nil_r. by destruct (skipped_of providers keys).
  - match goal with
    | |- context [fold_until ?f ?l (?o, ?d)] =>
        destruct (run_iterations_submit (a0 :: active') iterations iterations
                    0 o d) as (j & Hj & Hsub & Hall);
        destruct (fold_until f l (o, d)) as [out [results|]]
    end; cbn [fst snd] in *; exists j; (split; [done|]).
    + split; [|intros _ _; by apply Hall].
      rewrite Hsub, List.filter_app. simpl.
      by destruct (skipped_of providers keys).
    + split; [|done].
      rewrite Hsub, List.filter_app. simpl.
      by destruct (skipped_of providers keys).
Qed.

Lemma run_iteration_well_formed active iterations out d iteration out' d' :
  iteration < iterations ->
  run_iteration invoke as_completed active keys wav_path iterations (out, d)
    iteration = (out', Some d') ->
  Forall (fun entry => Forall (run_well_formed iterations) entry.2) d ->
  Forall (fun entry => Forall (run_well_formed iterations) entry.2) d'.
Proof.
  intros Hit. unfold run_iteration. intros Hrun Hd.
  refine (fold_until_inv
            (fun d => Forall (fun entry =>
                                Forall (run_well_formed iterations) entry.2)
                        d) _ _ _ (_, d) _ _ Hd Hrun).
  intros [o1 d1] f o2 d2 _ Hd1 Hc. by eapply collect_well_formed.
Qed.

(** X10.  Every run of the ResultSet that [run_eval] returns is well
    formed, whatever the adapters do: its iteration number lies between 1
    and [iterations], an error run carries a non-empty error, and [chars]
    of a success run is the length of its transcript when that is truthy
    and 0 when it is falsy. *)
Theorem run_eval_runs_well_formed (providers : list Provider)
    (iterations : nat) :
  match (run_eval invoke as_completed providers keys wav_path iterations).2
  with
  | Done results =>
      Forall (fun entry => Forall (run_well_formed iterations) entry.2)
        results
  | _ => True
  end.
Proof.
  unfold run_eval. fold (active_of providers keys).
  destruct (active_of providers keys) as [|a0 active']; [done|].
  match goal with
  | |- context [fold_until ?f ?l (?o, ?d)] =>
      destruct (fold_until f l (o, d)) as [out [results|]] eqn:Hrun
  end; [|done].
  cbn [snd].
  refine (fold_until_inv
            (fun d => Forall (fun entry =>
                                Forall (run_well_formed iterations) entry.2)
                        d) _ _ _ _ _ _ _ Hrun).
  - intros [o1 d1] it o2 d2 [_ Hit]%elem_of_seq Hd1 Hstep.
    eapply run_iteration_well_formed; [|exact Hstep|done]. lia.
  - cbn [snd]. unfold init_results.
    generalize (a0 :: active'). intros active.
    assert (Hgen : forall d0 : ResultSet,
              Forall (fun entry => Forall (run_well_formed iterations) entry.2)
                d0 ->
              Forall (fun entry => Forall (run_well_formed iterations) entry.2)
                (fold_left (fun d p => dict_set d (name p) []) active d0)).
    { induction active as [|p active IH]; intros d0 Hd0; simpl; [done|].
      apply IH. by apply dict_set_nil_Forall. }
    apply Hgen. constructor.
Qed.
End RunEvalTrace.

(** The runs of provider [p]: one for each iteration, in order. *)
Definition runs_of (invoke : Provider -> string -> string -> nat -> CallResult)
    (keys : gmap string string) (wav_path : string) (iterations : nat)
    (p : Provider) : list RunOutcome :=
  map (fun it =>
         stored it
           (invoke p (default EmptyString (keys !! key_name p)) wav_path it))
      (seq 0 iterations).

(** In no iteration does a call of an active provider return a result
    that stops the run. *)
Definition all_sized
    (invoke : Provider -> string -> string -> nat -> CallResult)
    (keys : gmap string string) (wav_path : string)
    (active : list Provider) (iterations : nat) : bool :=
  forallb
    (fun it =>
       forallb
         (fun p =>
            sized (invoke p (default EmptyString (keys !! key_name p))
                     wav_path it))
         active)
    (seq 0 iterations).

Section RunEvalResults.
Variable invoke : Provider -> string -> string -> nat -> CallResult.
Variables (keys : gmap string string) (wav_path : string).

Lemma run_iterations_keys as_completed active k : forall d,
  map fst (fold_left (iteration_results invoke as_completed keys wav_path
                        active) (seq 0 k) d)
  = map fst d.
Proof.
  intros d. induction k as [|k IH]; [done|].
  rewrite seq_S, fold_left_app. simpl. rewrite <- IH.
  generalize (fold_left (iteration_results invoke as_completed keys wav_path
                           active) (seq 0 k) d).
  intros d1. unfold iteration_results.
  generalize (as_completed k
                (map (future_of invoke keys wav_path k) active)).
  intros futures. revert d1.
  induction futures as [|f futures IHf]; intros d1; simpl; [done|].
  by rewrite IHf, dict_append_keys.
Qed.

Lemma run_iterations_closed as_completed active iterations :
  (forall iteration futures, as_completed iteration futures ≡ₚ futures) ->
  NoDup (map name active) ->
  fold_left (iteration_results invoke as_completed keys wav_path active)
    (seq 0 iterations) (init_results active)
  = map (fun p => (name p, runs_of invoke keys wav_path iterations p)) active.
Proof.
  intros Hperm Hnd.
  assert (Hinit : init_results active = map (fun p => (name p, [])) active).
  { unfold init_results. rewrite init_results_closed; [done|]. done. }
  assert (Hkeys : map fst (init_results active) = map name active).
  { rewrite Hinit, map_map. done. }
  apply dict_ext.
  - rewrite run_iterations_keys, Hkeys, map_map. done.
  - by rewrite run_iterations_keys, Hkeys.
  - intros n. rewrite run_iterations_keys, Hkeys.
    intros (p & -> & Hp)%list_elem_of_fmap.
    rewrite (dict_get_closed (runs_of invoke keys wav_path iterations))
      by done.
    rewrite (run_iterations_in invoke as_completed Hperm keys wav_path)
      by (try done; rewrite Hinit;
          by apply (dict_get_closed (fun _ => []))).
    done.
Qed.

(** With provider names unique and every future completing once: what
    [run_eval] ends in, whatever the order of completion. *)
Lemma run_eval_closed as_completed providers iterations :
  (forall iteration futures, as_completed iteration futures ≡ₚ futures) ->
  NoDup (map name providers) ->
  active_of providers keys <> [] ->
  (run_eval invoke as_completed providers keys wav_path iterations).2
  = if all_sized invoke keys wav_path (active_of providers keys) iterations
    then Done (map (fun p =>
                      (name p, runs_of invoke keys wav_path iterations p))
                 (active_of providers keys))
    else Uncaught TypeError.
Proof.
  intros Hperm Hnd Hactive.
  pose proof (NoDup_names_filter (has_key keys) providers Hnd) as Hnda.
  fold (active_of providers keys) in Hnda.
  rewrite (run_eval_outcome invoke as_completed Hperm keys wav_path) by done.
  rewrite run_iterations_closed by done. done.
Qed.

Section Completion.
Variable as_completed :
  nat -> list (string * CallResult) -> list (string * CallResult).
Hypothesis as_completed_perm :
  forall iteration futures, as_completed iteration futures ≡ₚ futures.

(** X7.  With provider names unique and every future completing once,
    [run_eval] ends in [TypeError] when some call of an active provider
    returns a result that is not sized (no error and a truthy transcript
    without length).  Otherwise the ResultSet that it returns lists the
    active providers in registry order, each with one run per iteration in
    iteration order: the run stored for what that provider's call did in
    that iteration. *)
Theorem run_eval_results (providers : list Provider) (iterations : nat) :
  NoDup (map name providers) ->
  active_of providers keys <> [] ->
  (run_eval invoke as_completed providers keys wav_path iterations).2
  = if all_sized invoke keys wav_path (active_of providers keys) iterations
    then Done (map (fun p =>
                      (name p, runs_of invoke keys wav_path iterations p))
                 (active_of providers keys))
    else Uncaught TypeError.
Proof. intros Hnd Hactive. by apply run_eval_closed. Qed.

(** X11.  When the call of an active provider raises an exception with a
    non-empty message in some iteration, the run stored for that iteration
    in the ResultSet that [run_eval] returns is an error run with that
    message and latency 0. *)
Theorem run_eval_exception_run (providers : list Provider) (iterations : nat)
    (p : Provider) (it : nat) (msg : string) (out : list event)
    (results : ResultSet) :
  NoDup (map name providers) ->
  p ∈ providers -> has_key keys p = true -> it < iterations ->
  invoke p (default EmptyString (keys !! key_name p)) wav_path it = Raised msg ->
  msg <> EmptyString ->
  run_eval invoke as_completed providers keys wav_path iterations
  = (out, Done results) ->
  exists runs,
    dict_get results (name p) = Some runs
    /\ runs !! it = Some (ErrorRun (it + 1) msg 0).
Proof.
  intros Hnd Hp Hk Hit Hraise Hmsg Hrun.
  assert (Hpa : p ∈ active_of providers keys) by (by apply active_of_elem).
  pose proof (NoDup_names_filter (has_key keys) providers Hnd) as Hnda.
  fold (active_of providers keys) in Hnda.
  assert (Hactive : active_of providers keys <> []).
  { intros Hnil. rewrite Hnil in Hpa. by apply elem_of_nil in Hpa. }
  pose proof (run_eval_closed as_completed providers iterations
                as_completed_perm Hnd Hactive) as Hout.
  rewrite Hrun in Hout. cbn [snd] in Hout.
  destruct (all_sized invoke keys wav_path (active_of providers keys)
              iterations); [|done].
  injection Hout as ->. eexists. split.
  - by apply (dict_get_closed (runs_of invoke keys wav_path iterations)).
  - unfold runs_of. rewrite list_lookup_fmap, lookup_seq_lt by done.
    simpl. rewrite Hraise. simpl. by destruct msg.
Qed.
End Completion.

(** X8.  The ResultSet does not depend on the order in which the futures
    complete. *)
Theorem run_eval_order_independent
    (completed completed' :
       nat -> list (string * CallResult) -> list (string * CallResult))
    (providers : list Provider) (iterations : nat) :
  (forall iteration futures, completed iteration futures ≡ₚ futures) ->
  (forall iteration futures, completed' iteration futures ≡ₚ futures) ->
  NoDup (map name providers) ->
  (run_eval invoke completed providers keys wav_path iterations).2
  = (run_eval invoke completed' providers keys wav_path iterations).2.
Proof.
  intros Hperm Hperm' Hnd.
  destruct (active_of providers keys) as [|a0 active'] eqn:Ha.
  - unfold run_eval. fold (active_of providers keys). by rewrite Ha.
  - rewrite !run_eval_closed; [done|done|done| |done|done|];
      by rewrite Ha.
Qed.
End RunEvalResults.

Lemma run_eval_results_witness :
  (run_eval demo_invoke (fun _ futures => reverse futures) PROVIDERS
     demo_keys "a.wav" 2).2
  = if all_sized demo_invoke demo_keys "a.wav"
         (active_of PROVIDERS demo_keys) 2
    then Done (map (fun p =>
                      (name p, runs_of demo_invoke demo_keys "a.wav" 2 p))
                 (active_of PROVIDERS demo_keys))
    else Uncaught TypeError.
Proof.
  apply (run_eval_results demo_invoke demo_keys "a.wav"
           (fun _ futures => reverse futures)
           (fun _ futures => reverse_Permutation futures) PROVIDERS 2).
  - apply (bool_decide_unpack _). vm_compute. reflexivity.
  - vm_compute. discriminate.
Defined.

Lemma run_eval_exception_run_witness :
  exists runs,
    dict_get
      [("ElevenLabs Scribe v2",
        [SuccessRun 1 (JStr "the quick brown fox") 2 19;
         SuccessRun 2 (JStr "the quick brown fox") 2 19]);
       ("Deepgram Nova-3",
        [ErrorRun 1 "connection reset" 0; ErrorRun 2 "connection reset" 0])]
      "Deepgram Nova-3" = Some runs
    /\ runs !! 1 = Some (ErrorRun 2 "connection reset" 0).
Proof.
  apply (run_eval_exception_run demo_invoke demo_keys "a.wav"
           (fun _ futures => reverse futures)
           (fun _ futures => reverse_Permutation futures) PROVIDERS 2
           (mkProvider "Deepgram Nova-3" "DEEPGRAM_API_KEY") 1
           "connection reset"
           [PrintSkipping ["AssemblyAI Universal-2"];
            PrintTesting ["ElevenLabs Scribe v2"; "Deepgram Nova-3"];
            PrintBlank; PrintIteration 1 2;
            Submit "ElevenLabs Scribe v2" 0; Submit "Deepgram Nova-3" 0;
            PrintError "Deepgram Nova-3" "connection reset";
            PrintOk "ElevenLabs Scribe v2" 2 19;
            PrintIteration 2 2;
            Submit "ElevenLabs Scribe v2" 1; Submit "Deepgram Nova-3" 1;
            PrintError "Deepgram Nova-3" "connection reset";
            PrintOk "ElevenLabs Scribe v2" 2 19]).
  - apply (bool_decide_unpack _). vm_compute. reflexivity.
  - apply elem_of_cons. right. apply elem_of_cons. left. reflexivity.
  - vm_compute. reflexivity.
  - lia.
  - vm_compute. reflexivity.
  - discriminate.
  - vm_compute. reflexivity.
Defined.

Lemma run_eval_order_independent_witness :
  (run_eval demo_invoke (fun _ futures => futures) PROVIDERS demo_keys
     "a.wav" 2).2
  = (run_eval demo_invoke (fun _ futures => reverse futures) PROVIDERS
       demo_keys "a.wav" 2).2.
Proof.
  apply (run_eval_order_independent demo_invoke demo_keys "a.wav"
           (fun _ futures => futures) (fun _ futures => reverse futures)
           PROVIDERS 2).
  - intros _ futures. reflexivity.
  - intros _ futures. apply reverse_Permutation.
  - apply (bool_decide_unpack _). vm_compute. reflexivity.
Defined.

(** ** The latency and quality table as a whole *)

(** The name and the last cell of a line: [errs/total]. *)
Definition row_counts (r : Row) : string * nat * nat :=
  match r with
  | RowUnavailable n errs total => (n, errs, total)
  | RowStats n _ _ _ _ errs total => (n, errs, total)
  end.

Lemma Qmin_list_spec (l : list Q) : forall x,
  Qmin_list x l ∈ x :: l
  /\ (Qmin_list x l <= x)%Q
  /\ Forall (fun y => Qmin_list x l <= y)%Q l.
Proof.
  unfold Qmin_list. induction l as [|y l IH]; intros x; cbn [fold_left].
  - split; [by left|]. split; [apply Qle_refl|constructor].
  - destruct (Qltb y x) eqn:Hcmp.
    + apply Qltb_lt in Hcmp. destruct (IH y) as (Hin & Hle & Hall).
      split; [by right|]. split; [lra|]. by constructor.
    + apply Qltb_ge in Hcmp. destruct (IH x) as (Hin & Hle & Hall).
      split; [|split; [done|constructor; [lra|done]]].
      apply elem_of_cons in Hin as [->|Hin]; [by left|by do 2 right].
Qed.

Lemma filter_success_elem (runs : list RunOutcome) (r : RunOutcome) :
  r ∈ List.filter has_transcript_key runs
  <-> r ∈ runs /\ has_transcript_key r = true.
Proof. by rewrite !list_elem_of_In, filter_In. Qed.

Section ReportFacts.
Variable lower : string -> string.

Lemma sim_sum_None (successes : list RunOutcome) consensus : forall acc,
  sim_sum lower successes consensus acc = None
  <-> exists r, r ∈ successes /\ json_str (get_transcript r) = None.
Proof.
  induction successes as [|r successes IH]; intros acc; simpl.
  - split; [done|]. by intros (r & ?%elem_of_nil & _).
  - destruct (json_str (get_transcript r)) as [t|] eqn:Ht.
    + rewrite IH. split.
      * intros (r' & Hr' & Hn). exists r'. split; [by right|done].
      * intros (r' & [->|Hr']%elem_of_cons & Hn); [congruence|].
        by exists r'.
    + split; [|done]. intros _. exists r. split; [by left|done].
Qed.

Lemma summarize_None consensus n runs :
  summarize lower consensus (n, runs) = None
  <-> str_truthy consensus = true
      /\ exists it t lat chars,
           SuccessRun it t lat chars ∈ runs /\ json_str t = None.
Proof.
  unfold summarize.
  destruct (List.filter has_transcript_key runs) as [|r0 rest] eqn:Hs.
  - split; [done|]. intros (_ & it & t & l & c & Hr & _).
    assert (Hin : SuccessRun it t l c ∈ List.filter has_transcript_key runs)
      by (by apply filter_success_elem).
    rewrite Hs in Hin. by apply elem_of_nil in Hin.
  - rewrite <- Hs. clear Hs.
    destruct (str_truthy consensus); cbn [mbind option_bind];
      [|by split; [|intros [? _]]].
    destruct (sim_sum lower (List.filter has_transcript_key runs) consensus 0)
      as [q|] eqn:Hsum; cbn [mbind option_bind].
    + split; [done|]. intros (_ & it & t & l & c & Hr & Ht). exfalso.
      assert (Hn : sim_sum lower (List.filter has_transcript_key runs)
                     consensus 0 = None); [|congruence].
      apply sim_sum_None. exists (SuccessRun it t l c).
      split; [|done]. by apply filter_success_elem.
    + split; [|done]. intros _. split; [done|].
      apply sim_sum_None in Hsum as (r & Hr & Hn).
      apply filter_success_elem in Hr as [Hr Hk].
      destruct r as [it e l|it t l c]; [done|]. by exists it, t, l, c.
Qed.

Lemma summary_table_None_iff results consensus :
  summary_table lower results consensus = None
  <-> str_truthy consensus = true
      /\ exists n runs it t lat chars,
           (n, runs) ∈ results /\ SuccessRun it t lat chars ∈ runs
           /\ json_str t = None.
Proof.
  unfold summary_table.
  destruct (mapM (summarize lower consensus) results) as [ss|] eqn:Hm; simpl.
  - split; [done|].
    intros (Hc & n & runs & it & t & l & c & Hin & Hr & Ht). exfalso.
    assert (Hn : mapM (summarize lower consensus) results = None);
      [|congruence].
    apply mapM_None, Exists_exists. exists (n, runs). split; [done|].
    apply summarize_None. split; [done|]. by exists it, t, l, c.
  - split; [|done]. intros _.
    apply mapM_None, Exists_exists in Hm as ([n runs] & Hin & Hn).
    apply summarize_None in Hn as (Hc & it & t & l & c & Hr & Ht).
    split; [done|]. by exists n, runs, it, t, l, c.
Qed.

(** X12.  The table cannot be produced (an [AttributeError] is raised)
    exactly when the consensus is non-empty and some run of the ResultSet
    has under the ["transcript"] key a value that is no [str]: [None], or
    any other value that the provider's body held. *)
Theorem summary_table_crash_iff (results : ResultSet) (consensus : string) :
  summary_table lower results consensus = None
  <-> str_truthy consensus = true
      /\ exists n runs it t lat chars,
           (n, runs) ∈ results /\ SuccessRun it t lat chars ∈ runs
           /\ json_str t = None.
Proof. apply summary_table_None_iff. Qed.

Lemma summarize_fields consensus n runs s :
  summarize lower consensus (n, runs) = Some s ->
  s_name s = n
  /\ s_errors s = length (List.filter has_error_key runs)
  /\ s_total s = length runs
  /\ match List.filter has_transcript_key runs with
     | [] => s_avg_lat s = 999%Q
     | r0 :: rest =>
         s_avg_lat s
         = (Qsum (map latency_of (r0 :: rest)) / Qlen (r0 :: rest))%Q
         /\ s_min_lat s
            = Qmin_list (latency_of r0) (map latency_of (r0 :: rest))
     end.
Proof.
  unfold summarize.
  destruct (List.filter has_transcript_key runs) as [|r0 rest].
  - by intros [= <-].
  - destruct (str_truthy consensus); cbn [mbind option_bind].
    + destruct (sim_sum lower (r0 :: rest) consensus 0);
        cbn [mbind option_bind]; [|done].
      by intros [= <-].
    + by intros [= <-].
Qed.

Lemma summaries_counts consensus results : forall ss,
  mapM (summarize lower consensus) results = Some ss ->
  map (fun s => (s_name s, s_errors s, s_total s)) ss
  = map (fun entry : string * list RunOutcome =>
           (entry.1, length (List.filter has_error_key entry.2),
            length entry.2)) results.
Proof.
  intros ss Hm%mapM_Some. induction Hm as [|[n runs] s results ss Hs _ IH];
    simpl; [done|].
  apply summarize_fields in Hs as (-> & -> & -> & _). by rewrite IH.
Qed.

(** X13.  When the table is produced it has one line for each provider of
    the ResultSet, showing the provider's name, the number of its error
    runs and the number of its runs. *)
Theorem summary_table_rows (results : ResultSet) (consensus : string)
    (rows : list Row) :
  summary_table lower results consensus = Some rows ->
  map row_counts rows
  ≡ₚ map (fun entry : string * list RunOutcome =>
            (entry.1, length (List.filter has_error_key entry.2),
             length entry.2)) results.
Proof.
  unfold summary_table.
  destruct (mapM (summarize lower consensus) results) as [ss|] eqn:Hm;
    simpl; [|done].
  intros [= <-]. rewrite <- (summaries_counts _ _ _ Hm), map_map.
  destruct (sort_summaries_sorted ss) as [_ Hperm].
  rewrite (map_ext _ (fun s => (s_name s, s_errors s, s_total s)));
    [by rewrite Hperm|].
  intros s. unfold row_of. by destruct (Qeq_bool (s_avg_lat s) 999).
Qed.

(** X14.  For a provider with a success, the minimum latency shown is
    the latency of one of its successful runs, and no other successful
    run is faster. *)
Theorem summarize_latencies (consensus n : string) (runs : list RunOutcome)
    (s : Summary) :
  summarize lower consensus (n, runs) = Some s ->
  List.filter has_transcript_key runs <> [] ->
  (exists r, r ∈ runs /\ has_transcript_key r = true
             /\ s_min_lat s = latency_of r)
  /\ (forall r, r ∈ runs -> has_transcript_key r = true ->
        (s_min_lat s <= latency_of r)%Q).
Proof.
  intros (_ & _ & _ & Hs)%summarize_fields Hne.
  destruct (List.filter has_transcript_key runs) as [|r0 rest] eqn:Hf;
    [done|].
  destruct Hs as [Havg Hmin].
  destruct (Qmin_list_spec (map latency_of (r0 :: rest)) (latency_of r0))
    as (Hin & Hle0 & Hall).
  rewrite <- Hmin in *. split.
  - assert (Hin' : s_min_lat s ∈ map latency_of (r0 :: rest)).
    { apply elem_of_cons in Hin as [->|Hin]; [by left|done]. }
    apply list_elem_of_fmap in Hin' as (r & Hr & Hin').
    rewrite <- Hf in Hin'. apply filter_success_elem in Hin' as [? ?].
    by exists r.
  - intros r Hr Hk.
    assert (Hr' : r ∈ r0 :: rest)
      by (rewrite <- Hf; by apply filter_success_elem).
    rewrite Forall_forall in Hall. apply Hall.
    by apply (list_elem_of_fmap_2 latency_of).
Qed.
End ReportFacts.

Lemma summary_table_rows_witness :
  map row_counts
    [RowStats "B" (8 # 2) 3 (4 # 2) (24 # 32) 0 2; RowUnavailable "A" 1 1]
  ≡ₚ map (fun entry : string * list RunOutcome =>
            (entry.1, length (List.filter has_error_key entry.2),
             length entry.2))
       [("A", [ErrorRun 1 "HTTP 500: boom" 2]);
        ("B", [SuccessRun 1 (JStr "hi") 5 2; SuccessRun 2 (JStr "ho") 3 2])].
Proof.
  apply (summary_table_rows ascii_lower
           [("A", [ErrorRun 1 "HTTP 500: boom" 2]);
            ("B", [SuccessRun 1 (JStr "hi") 5 2;
                   SuccessRun 2 (JStr "ho") 3 2])] "hi").
  vm_compute. reflexivity.
Defined.

Lemma summarize_latencies_witness :
  (exists r, r ∈ [SuccessRun 1 (JStr "hi") 5 2; ErrorRun 2 "HTTP 500: boom" 1;
                  SuccessRun 3 (JStr "ho") 3 2]
             /\ has_transcript_key r = true
             /\ s_min_lat (mkSummary "B" (8 # 2) 3 (4 # 2) (24 # 32) 1 3)
                = latency_of r)
  /\ (forall r, r ∈ [SuccessRun 1 (JStr "hi") 5 2;
                     ErrorRun 2 "HTTP 500: boom" 1;
                     SuccessRun 3 (JStr "ho") 3 2] ->
        has_transcript_key r = true ->
        (s_min_lat (mkSummary "B" (8 # 2) 3 (4 # 2) (24 # 32) 1 3)
         <= latency_of r)%Q).
Proof.
  apply (summarize_latencies ascii_lower "hi" "B"
           [SuccessRun 1 (JStr "hi") 5 2; ErrorRun 2 "HTTP 500: boom" 1;
            SuccessRun 3 (JStr "ho") 3 2]).
  - vm_compute. reflexivity.
  - vm_compute. discriminate.
Defined.

(** ** From the ResultSet to the report *)

(** What an adapter owes its caller: a transcript, or a non-empty error,
    or an exception with a non-empty message. *)
Definition conforming (result : CallResult) : Prop :=
  match result with
  | Returned (JStr _) _ _ => True
  | Returned _ _ error => opt_truthy error = true
  | Raised msg => msg <> EmptyString
  end.

Lemma conforming_sized result : conforming result -> sized result = true.
Proof.
  destruct result as [t l e|m]; [|done].
  destruct t; cbn [conforming sized]; try (by intros ->).
  intros _. apply orb_true_iff. right.
  by destruct (json_truthy (JStr s)).
Qed.

Lemma stored_conforming iteration result it t lat chars :
  conforming result ->
  stored iteration result = SuccessRun it t lat chars ->
  json_str t <> None.
Proof.
  destruct result as [u l e|m]; simpl.
  - destruct (opt_truthy e) eqn:He; [done|].
    intros Hc [= _ <- _ _]. by destruct u.
  - intros Hm. by destruct m.
Qed.

Section Pipeline.
Variable lower : string -> string.
Variables (round : Q -> Q) (fsum : list Q -> Q).

Lemma compute_consensus_None_iff (results : ResultSet) :
  compute_consensus lower round fsum results = None
  <-> exists n runs it t lat chars,
        (n, runs) ∈ results /\ SuccessRun it t lat chars ∈ runs
        /\ json_truthy t = true /\ json_str t = None.
Proof.
  split.
  - intros Hc. pose proof (compute_consensus_pool lower round fsum results)
      as Hp.
    rewrite Hc in Hp. destruct Hp as (v & Hv & Hn).
    pose proof (pool_truthy _ _ Hv) as Ht.
    apply pool_elem in Hv as (n & runs & Hin & Hv).
    apply pool_of_runs_elem in Hv as (_ & it & l & c & Hr).
    by exists n, runs, it, v, l, c.
  - intros (n & runs & it & t & l & c & Hin & Hr & Ht & Hn).
    unfold compute_consensus.
    assert (Hm : mapM json_str (pool results) = None); [|by rewrite Hm].
    apply mapM_None, Exists_exists. exists t. split; [|done].
    apply pool_elem. exists n, runs. split; [done|].
    apply pool_of_runs_elem. split; [done|]. by exists it, l, c.
Qed.

Lemma compute_consensus_truthy (results : ResultSet) (consensus : string) :
  compute_consensus lower round fsum results = Some consensus ->
  str_truthy consensus = true
  <-> exists n runs it t lat chars,
        (n, runs) ∈ results /\ SuccessRun it t lat chars ∈ runs
        /\ json_truthy t = true.
Proof.
  intros Hc. pose proof (compute_consensus_pool lower round fsum results)
    as Hp.
  rewrite Hc in Hp. split.
  - intros Ht. destruct Hp as [[_ ->]|Hp]; [done|].
    pose proof (pool_truthy _ _ Hp) as Hv.
    apply pool_elem in Hp as (n & runs & Hin & Hp).
    apply pool_of_runs_elem in Hp as (_ & it & l & c & Hr).
    by exists n, runs, it, (JStr consensus), l, c.
  - intros (n & runs & it & t & l & c & Hin & Hr & Ht).
    assert (Hv : t ∈ pool results).
    { apply pool_elem. exists n, runs. split; [done|].
      apply pool_of_runs_elem. split; [done|]. by exists it, l, c. }
    destruct Hp as [[Hnil _]|Hp].
    + rewrite Hnil in Hv. by apply elem_of_nil in Hv.
    + by apply pool_truthy in Hp.
Qed.

(** X16.  As [main] calls them, one after the other on the same
    ResultSet: [compute_consensus] raises [AttributeError] exactly when a
    run has a truthy transcript that is no [str]; and when it returns the
    consensus, the report's table cannot be produced exactly when the
    ResultSet holds both a run with a truthy transcript and a run whose
    transcript is no [str] ([None] or another falsy value). *)
Theorem report_of_consensus_crash_iff (results : ResultSet) :
  (compute_consensus lower round fsum results = None
   <-> exists n runs it t lat chars,
         (n, runs) ∈ results /\ SuccessRun it t lat chars ∈ runs
         /\ json_truthy t = true /\ json_str t = None)
  /\ (forall consensus,
        compute_consensus lower round fsum results = Some consensus ->
        summary_table lower results consensus = None
        <-> (exists n runs it t lat chars,
               (n, runs) ∈ results /\ SuccessRun it t lat chars ∈ runs
               /\ json_truthy t = true)
            /\ (exists n runs it t lat chars,
                  (n, runs) ∈ results /\ SuccessRun it t lat chars ∈ runs
                  /\ json_str t = None)).
Proof.
  split; [apply compute_consensus_None_iff|].
  intros consensus Hc.
  by rewrite summary_table_None_iff, (compute_consensus_truthy _ _ Hc).
Qed.

Section Orchestrated.
Variable invoke : Provider -> string -> string -> nat -> CallResult.
Variable as_completed :
  nat -> list (string * CallResult) -> list (string * CallResult).
Hypothesis as_completed_perm :
  forall iteration futures, as_completed iteration futures ≡ₚ futures.
Variables (keys : gmap string string) (wav_path : string).

(** X17.  When every call of an active provider returns a transcript or a
    non-empty error, or raises an exception with a non-empty message,
    [run_eval] returns a ResultSet and the table of the report is produced
    from it, whatever the consensus. *)
Theorem run_eval_report_total (providers : list Provider) (iterations : nat) :
  NoDup (map name providers) ->
  (forall p it, p ∈ providers -> has_key keys p = true -> it < iterations ->
     conforming
       (invoke p (default EmptyString (keys !! key_name p)) wav_path it)) ->
  match (run_eval invoke as_completed providers keys wav_path iterations).2
  with
  | Done results =>
      forall consensus, is_Some (summary_table lower results consensus)
  | SystemExit _ => True
  | Uncaught _ => False
  end.
Proof.
  intros Hnd Hconf.
  destruct (active_of providers keys) as [|a0 active'] eqn:Ha.
  { unfold run_eval. fold (active_of providers keys). by rewrite Ha. }
  rewrite (run_eval_closed invoke keys wav_path as_completed providers
             iterations as_completed_perm Hnd) by (by rewrite Ha).
  clear Ha.
  assert (Hall : all_sized invoke keys wav_path (active_of providers keys)
                   iterations = true).
  { unfold all_sized. apply forallb_forall. intros it [_ Hit]%in_seq.
    apply forallb_forall. intros p [Hp Hk]%list_elem_of_In%active_of_elem.
    apply conforming_sized, Hconf; [done|done|lia]. }
  rewrite Hall. intros consensus.
  destruct (summary_table lower _ consensus) as [rows|] eqn:Ht; [done|].
  exfalso.
  apply summary_table_None_iff in Ht
    as (_ & n & runs & it & t & l & c & Hin & Hr & Hn).
  apply list_elem_of_fmap in Hin as (p & [= -> ->] & Hp).
  apply active_of_elem in Hp as [Hp Hk].
  apply list_elem_of_fmap in Hr as (i & Hr & Hi%elem_of_seq).
  symmetry in Hr. revert Hn. eapply stored_conforming; [|exact Hr].
  apply Hconf; [done|done|lia].
Qed.
End Orchestrated.
End Pipeline.

Lemma run_eval_report_total_witness :
  is_Some
    (summary_table ascii_lower
       [("ElevenLabs Scribe v2",
         [SuccessRun 1 (JStr "the quick brown fox") 2 19;
          SuccessRun 2 (JStr "the quick brown fox") 2 19]);
        ("Deepgram Nova-3",
         [ErrorRun 1 "connection reset" 0;
          ErrorRun 2 "connection reset" 0])] "the quick brown fox").
Proof.
  assert (Hall :
    forall consensus,
      is_Some
        (summary_table ascii_lower
           [("ElevenLabs Scribe v2",
             [SuccessRun 1 (JStr "the quick brown fox") 2 19;
              SuccessRun 2 (JStr "the quick brown fox") 2 19]);
            ("Deepgram Nova-3",
             [ErrorRun 1 "connection reset" 0;
              ErrorRun 2 "connection reset" 0])] consensus)).
  { apply (run_eval_report_total ascii_lower demo_invoke
             (fun _ futures => reverse futures)
             (fun _ futures => reverse_Permutation futures)
             demo_keys "a.wav" PROVIDERS 2).
    - apply (bool_decide_unpack _). vm_compute. reflexivity.
    - intros p it _ _ _. unfold demo_invoke.
      by destruct (String.eqb (name p) "Deepgram Nova-3"). }
  exact (Hall "the quick brown fox").
Defined.

(** ** What the adapters return *)

Lemma subscript_raises v k e :
  subscript v k = Raises e -> e = KeyError \/ e = IndexError \/ e = TypeError.
Proof.
  destruct v as [| | | s|l|ms], k as [key|n]; simpl; try (intros [= <-]; auto).
  - destruct (String.get n s); intros [= <-]; auto.
  - destruct (l !! n); intros [= <-]; auto.
  - destruct (dict_get ms key); intros [= <-]; auto.
Qed.

Lemma subscripts_raises path : forall v e,
  subscripts v path = Raises e ->
  e = KeyError \/ e = IndexError \/ e = TypeError.
Proof.
  induction path as [|k path IH]; intros v e; simpl; [done|].
  destruct (subscript v k) as [x|e'|] eqn:Hs.
  - apply IH.
  - intros [= <-]. by eapply subscript_raises.
  - done.
Qed.

Lemma subscripts_returns path : forall v, subscripts v path <> OutOfFuel.
Proof.
  induction path as [|k path IH]; intros v; simpl; [done|].
  destruct (subscript v k) as [x|e'|] eqn:Hs; [apply IH|done|].
  by apply subscript_returns in Hs.
Qed.

(** The shape of a returned triple: the latency is the time from the start
    of the invocation to its end, and an error comes with the transcript
    [None] and is not empty. *)
Definition payload_shape (start : Q) (o : outcome payload) (s' : St) : Prop :=
  forall t lat err, o = Returns (t, lat, err) ->
    lat = (now s' - start)%Q
    /\ match err with
       | Some e => t = JNull /\ str_truthy e = true
       | None => True
       end.

Ltac shape :=
  let Heq := fresh "Heq" in
  intros ? ? ? Heq; cbn [fst snd] in Heq |- *;
  first [discriminate Heq
        |injection Heq as <- <- <-; split; [reflexivity|done]].

Section AdapterShape.
Variable w : World.
Variables py_repr json_dumps : json -> string.

Lemma poll_loop_shape (start : Q) (fuel : nat) : forall status s,
  payload_shape start (poll_loop w py_repr fuel start status s).1
    (poll_loop w py_repr fuel start status s).2.
Proof.
  induction fuel as [|fuel IH]; intros status s;
    [intros t lat err Heq; cbn in Heq; discriminate|].
  rewrite poll_loop_S. destruct (Qltb (now s) (start + 600)); cbn zeta.
  - destruct ((net w (n_requests s)).2) as [r|e]; [|shape].
    destruct (negb (status_code r =? 200)%Z); [shape|].
    destruct (json_body r) as [body|]; [|shape].
    destruct (subscript body (KStr "status")) as [st|e|]; [|shape|shape].
    destruct (json_is_str st "completed"); [destruct body; shape|].
    destruct (json_is_str st "error"); [destruct body; shape|].
    apply IH.
  - destruct status; shape.
Qed.

Lemma call_adapter_shape (a : Adapter) (api_key wav_path : string) :
  payload_shape (clock0 w)
    (call_adapter w py_repr json_dumps a api_key wav_path (init_state w)).1
    (call_adapter w py_repr json_dumps a api_key wav_path (init_state w)).2.
Proof.
  destruct a; cbn [call_adapter].
  - rewrite call_elevenlabs_unfold. destruct (open_wav w); [shape|].
    cbn zeta. destruct ((net w (n_requests (init_state w))).2) as [r|e];
      [|shape].
    destruct (negb (status_code r =? 200)%Z); [shape|].
    destruct (json_body r) as [[]|]; shape.
  - rewrite call_deepgram_unfold. destruct (open_wav w); [shape|].
    cbn zeta. destruct ((net w (n_requests (init_state w))).2) as [r|e];
      [|shape].
    destruct (negb (status_code r =? 200)%Z); [shape|].
    destruct (json_body r) as [data|]; [|shape].
    destruct (subscripts data deepgram_path) as [x|[]|]; shape.
  - rewrite call_assemblyai_unfold. destruct (open_wav w); [shape|].
    cbn zeta. destruct ((net w (n_requests (init_state w))).2) as [r0|e];
      [|shape].
    destruct (negb (status_code r0 =? 200)%Z); [shape|].
    destruct (json_body r0) as [b0|]; [|shape].
    destruct (subscript b0 (KStr "upload_url")) as [url|e|]; [|shape|shape].
    destruct ((net w (n_requests (after_http w (init_state w)))).2)
      as [r1|e]; [|shape].
    destruct (negb (status_code r1 =? 200)%Z); [shape|].
    destruct (json_body r1) as [b1|]; [|shape].
    destruct (subscript b1 (KStr "id")) as [id|e|]; [|shape|shape].
    apply poll_loop_shape.
Qed.

(** X18.  An adapter never returns both a transcript and an error: when
    the error of the returned triple is not [None], the transcript is
    [None] and the error is a non-empty string. *)
Theorem adapter_error_excludes_transcript (a : Adapter)
    (api_key wav_path : string) (t : json) (lat : Q) (e : string) :
  (call_adapter w py_repr json_dumps a api_key wav_path (init_state w)).1
  = Returns (t, lat, Some e) ->
  t = JNull /\ e <> EmptyString.
Proof.
  intros Hret.
  destruct (call_adapter_shape a api_key wav_path _ _ _ Hret)
    as (_ & -> & He).
  split; [done|]. by destruct e.
Qed.

(** X19.  When the audio file cannot be opened, the adapter raises the
    error of [open] and sends no request. *)
Theorem adapter_open_failure (a : Adapter) (api_key wav_path : string)
    (e : exn) (s : St) :
  open_wav w = Some e ->
  call_adapter w py_repr json_dumps a api_key wav_path s = (Raises e, s).
Proof.
  intros Hopen. destruct a; cbn [call_adapter].
  - by rewrite call_elevenlabs_unfold, Hopen.
  - by rewrite call_deepgram_unfold, Hopen.
  - by rewrite call_assemblyai_unfold, Hopen.
Qed.

(** X20.  When the audio file can be opened, each of the two synchronous
    adapters sends exactly one request, whatever the answer. *)
Theorem sync_adapter_single_request (a : Adapter) (api_key wav_path : string) :
  a <> AssemblyAI -> open_wav w = None ->
  n_requests
    (call_adapter w py_repr json_dumps a api_key wav_path (init_state w)).2
  = 1.
Proof.
  intros Ha Hopen.
  destruct a; cbn [call_adapter]; [| |done].
  - rewrite call_elevenlabs_unfold, Hopen. cbn zeta.
    destruct ((net w (n_requests (init_state w))).2) as [r|e]; [|done].
    destruct (negb (status_code r =? 200)%Z); [done|].
    by destruct (json_body r) as [[]|].
  - rewrite call_deepgram_unfold, Hopen. cbn zeta.
    destruct ((net w (n_requests (init_state w))).2) as [r|e]; [|done].
    destruct (negb (status_code r =? 200)%Z); [done|].
    destruct (json_body r) as [data|]; [|done].
    by destruct (subscripts data deepgram_path) as [x|[]|].
Qed.

(** X21.  Once its request has been answered, [call_deepgram] returns, or
    raises [JSONDecodeError] (the body is no JSON) or [TypeError] (a value
    on the path to the transcript cannot be subscripted): a missing key or
    index never escapes as [KeyError] or [IndexError]. *)
Theorem call_deepgram_outcomes (api_key wav_path : string) (r : Response) :
  open_wav w = None -> (net w 0).2 = HttpResponse r ->
  (exists p,
     (call_deepgram w json_dumps api_key wav_path (init_state w)).1
     = Returns p)
  \/ (call_deepgram w json_dumps api_key wav_path (init_state w)).1
     = Raises JSONDecodeError
  \/ (call_deepgram w json_dumps api_key wav_path (init_state w)).1
     = Raises TypeError.
Proof.
  intros Hopen Hnet. rewrite call_deepgram_unfold, Hopen. cbn zeta.
  cbn [n_requests init_state]. rewrite Hnet.
  destruct (negb (status_code r =? 200)%Z); [left; by eexists|].
  destruct (json_body r) as [data|]; [|by right; left].
  destruct (subscripts data deepgram_path) as [x|e|] eqn:Hsub.
  - left. by eexists.
  - destruct (subscripts_raises _ _ _ Hsub) as [->|[->| ->]].
    + left. by eexists.
    + left. by eexists.
    + by right; right.
  - by apply subscripts_returns in Hsub.
Qed.

(** X22.  On a response with status 200 [call_elevenlabs] returns the
    value under ["text"] of the JSON object, the empty string when the
    object has no such member, and never an error; on a JSON body that is
    no object it raises [AttributeError]. *)
Theorem call_elevenlabs_ok (api_key wav_path : string) (r : Response)
    (body : json) :
  open_wav w = None -> (net w 0).2 = HttpResponse r ->
  status_code r = 200%Z -> json_body r = Some body ->
  (call_elevenlabs w api_key wav_path (init_state w)).1
  = match body with
    | JObj ms =>
        Returns (default (JStr "") (dict_get ms "text"),
                 (now (after_http w (init_state w)) - clock0 w)%Q, None)
    | _ => Raises AttributeError
    end.
Proof.
  intros Hopen Hnet Hstatus Hbody. rewrite call_elevenlabs_unfold, Hopen.
  cbn zeta. cbn [n_requests init_state]. rewrite Hnet, Hstatus, Hbody.
  by destruct body.
Qed.

(** X23.  [call_assemblyai] stops at the first step that fails: after an
    upload answered with a status other than 200 it returns the error
    ["Upload failed HTTP ..."] having sent one request, and after a
    submission answered with such a status it returns
    ["Submit failed HTTP ..."] having sent two; no poll is sent. *)
Theorem call_assemblyai_short_circuit (api_key wav_path : string)
    (r0 : Response) :
  open_wav w = None -> (net w 0).2 = HttpResponse r0 ->
  (status_code r0 <> 200%Z ->
   call_assemblyai w py_repr api_key wav_path (init_state w)
   = (Returns (JNull,
               (now (after_http w (init_state w)) - clock0 w)%Q,
               Some (http_error "Upload failed HTTP " r0)),
      after_http w (init_state w)))
  /\ (forall b0 url r1,
        status_code r0 = 200%Z -> json_body r0 = Some b0 ->
        subscript b0 (KStr "upload_url") = Returns url ->
        (net w 1).2 = HttpResponse r1 -> status_code r1 <> 200%Z ->
        call_assemblyai w py_repr api_key wav_path (init_state w)
        = (Returns (JNull,
                    (now (after_http w (after_http w (init_state w)))
                     - clock0 w)%Q,
                    Some (http_error "Submit failed HTTP " r1)),
           after_http w (after_http w (init_state w)))).
Proof.
  intros Hopen Hnet. rewrite call_assemblyai_unfold, Hopen. cbn zeta.
  cbn [n_requests init_state after_http]. rewrite Hnet. split.
  - intros Hs%Z.eqb_neq. by rewrite Hs.
  - intros b0 url r1 Hs0 Hb0 Hurl Hnet1 Hs1%Z.eqb_neq.
    by rewrite Hs0, Hb0, Hurl, Hnet1, Hs1.
Qed.

(** X24.  A 200 answer to the upload that lacks ["upload_url"], or to the
    submission that lacks ["id"], is not turned into an error triple: the
    [KeyError] is raised to the caller. *)
Theorem call_assemblyai_missing_field (api_key wav_path : string)
    (r0 : Response) (ms0 : list (string * json)) :
  open_wav w = None -> (net w 0).2 = HttpResponse r0 ->
  status_code r0 = 200%Z -> json_body r0 = Some (JObj ms0) ->
  (dict_get ms0 "upload_url" = None ->
   (call_assemblyai w py_repr api_key wav_path (init_state w)).1
   = Raises KeyError)
  /\ (forall url r1 ms1,
        dict_get ms0 "upload_url" = Some url ->
        (net w 1).2 = HttpResponse r1 -> status_code r1 = 200%Z ->
        json_body r1 = Some (JObj ms1) -> dict_get ms1 "id" = None ->
        (call_assemblyai w py_repr api_key wav_path (init_state w)).1
        = Raises KeyError).
Proof.
  intros Hopen Hnet Hs0 Hb0. rewrite call_assemblyai_unfold, Hopen.
  cbn zeta. cbn [n_requests init_state after_http].
  rewrite Hnet, Hs0, Hb0. cbn [subscript Z.eqb Pos.eqb negb]. split.
  - by intros ->.
  - intros url r1 ms1 -> Hnet1 Hs1 Hb1 Hid.
    rewrite Hnet1, Hs1, Hb1. cbn [subscript Z.eqb Pos.eqb negb].
    by rewrite Hid.
Qed.
End AdapterShape.

Section AdapterClock.
Variable w : World.
Variables py_repr json_dumps : json -> string.
Hypothesis Hmono : monotonic_world w.




Section Bound.
Variables d eps bound : Q.
Hypothesis request_bound : forall k, ((net w k).1 <= d)%Q.
Hypothesis oversleep_bound : forall k, (sleep_extra w k <= eps)%Q.
Hypothesis bound_early : (2 * d <= bound)%Q.
Hypothesis bound_poll : (603 + d + eps <= bound)%Q.


End Bound.
End AdapterClock.

(** The audio file cannot be opened. *)
Definition missing_file_world : World :=
  mkWorld 0 (Some OSError) (fun _ => (1%Q, HttpRaises RequestsConnectionError))
    (fun _ => 0%Q).

(** Every request is answered with status 200 and an empty JSON object. *)
Definition bare_world : World :=
  mkWorld 0 None (fun _ => (1%Q, HttpResponse (ok_response (JObj []))))
    (fun _ => 0%Q).

Lemma adapter_error_excludes_transcript_witness :
  JNull = JNull
  /\ "Upload failed HTTP 503: Service Unavailable" <> EmptyString.
Proof.
  apply (adapter_error_excludes_transcript outage_world no_repr no_repr
           AssemblyAI "key" "a.wav" JNull 2%Q
           "Upload failed HTTP 503: Service Unavailable").
  vm_compute. reflexivity.
Defined.

Lemma adapter_open_failure_witness :
  call_adapter missing_file_world no_repr no_repr Deepgram "key" "a.wav"
    (init_state missing_file_world)
  = (Raises OSError, init_state missing_file_world).
Proof.
  apply (adapter_open_failure missing_file_world no_repr no_repr Deepgram
           "key" "a.wav" OSError (init_state missing_file_world)).
  reflexivity.
Defined.

Lemma sync_adapter_single_request_witness :
  n_requests
    (call_adapter outage_world no_repr no_repr Deepgram "key" "a.wav"
       (init_state outage_world)).2
  = 1.
Proof.
  apply (sync_adapter_single_request outage_world no_repr no_repr Deepgram
           "key" "a.wav").
  - discriminate.
  - reflexivity.
Defined.

Lemma call_deepgram_outcomes_witness :
  (exists p,
     (call_deepgram pending_world no_repr "key" "a.wav"
        (init_state pending_world)).1
     = Returns p)
  \/ (call_deepgram pending_world no_repr "key" "a.wav"
        (init_state pending_world)).1
     = Raises JSONDecodeError
  \/ (call_deepgram pending_world no_repr "key" "a.wav"
        (init_state pending_world)).1
     = Raises TypeError.
Proof.
  apply (call_deepgram_outcomes pending_world no_repr "key" "a.wav"
           (ok_response (JObj [("upload_url", JStr "https://cdn/upload/1")]))).
  - reflexivity.
  - reflexivity.
Defined.

Lemma call_elevenlabs_ok_witness :
  (call_elevenlabs bare_world "key" "a.wav" (init_state bare_world)).1
  = Returns (JStr "",
             (now (after_http bare_world (init_state bare_world))
              - clock0 bare_world)%Q,
             None).
Proof.
  apply (call_elevenlabs_ok bare_world "key" "a.wav"
           (ok_response (JObj [])) (JObj [])); reflexivity.
Defined.

Lemma call_assemblyai_short_circuit_witness :
  (status_code (mkResponse 503 "Service Unavailable" None) <> 200%Z ->
   call_assemblyai outage_world no_repr "key" "a.wav"
     (init_state outage_world)
   = (Returns (JNull,
               (now (after_http outage_world (init_state outage_world))
                - clock0 outage_world)%Q,
               Some (http_error "Upload failed HTTP "
                       (mkResponse 503 "Service Unavailable" None))),
      after_http outage_world (init_state outage_world)))
  /\ (forall b0 url r1,
        status_code (mkResponse 503 "Service Unavailable" None) = 200%Z ->
        json_body (mkResponse 503 "Service Unavailable" None) = Some b0 ->
        subscript b0 (KStr "upload_url") = Returns url ->
        (net outage_world 1).2 = HttpResponse r1 ->
        status_code r1 <> 200%Z ->
        call_assemblyai outage_world no_repr "key" "a.wav"
          (init_state outage_world)
        = (Returns (JNull,
                    (now (after_http outage_world
                            (after_http outage_world
                               (init_state outage_world)))
                     - clock0 outage_world)%Q,
                    Some (http_error "Submit failed HTTP " r1)),
           after_http outage_world
             (after_http outage_world (init_state outage_world)))).
Proof.
  apply (call_assemblyai_short_circuit outage_world no_repr "key" "a.wav"
           (mkResponse 503 "Service Unavailable" None)); reflexivity.
Defined.

Lemma call_assemblyai_missing_field_witness :
  (dict_get [] "upload_url" = @None json ->
   (call_assemblyai bare_world no_repr "key" "a.wav"
      (init_state bare_world)).1
   = Raises KeyError)
  /\ (forall (url : json) r1 ms1,
        dict_get [] "upload_url" = Some url ->
        (net bare_world 1).2 = HttpResponse r1 -> status_code r1 = 200%Z ->
        json_body r1 = Some (JObj ms1) -> dict_get ms1 "id" = None ->
        (call_assemblyai bare_world no_repr "key" "a.wav"
           (init_state bare_world)).1
        = Raises KeyError).
Proof.
  apply (call_assemblyai_missing_field bare_world no_repr "key" "a.wav"
           (ok_response (JObj [])) []); reflexivity.
Defined.



(** ** API key loading *)

Section StripFacts.
Variable p : ascii -> bool.

(** [s] neither begins nor ends with a character that [strip] removes. *)
Definition clean (s : string) : Prop := lstrip p s = s /\ rstrip p s = s.

Lemma lstrip_length (s : string) :
  String.length (lstrip p s) <= String.length s.
Proof.
  induction s as [|c s IH]; simpl; [done|]. destruct (p c); simpl; lia.
Qed.

Lemma lstrip_head (c : ascii) (s : string) :
  lstrip p (String c s) = String c s -> p c = false.
Proof.
  simpl. destruct (p c); [|done]. intros Heq.
  pose proof (lstrip_length s) as Hlen. rewrite Heq in Hlen. simpl in Hlen.
  lia.
Qed.

Lemma lstrip_app (s t : string) :
  lstrip p s = s -> s <> EmptyString -> lstrip p (s +:+ t) = s +:+ t.
Proof.
  destruct s as [|c s]; [done|]. intros Hc%lstrip_head _. simpl.
  by rewrite Hc.
Qed.

Lemma rstrip_app (s t : string) :
  rstrip p t = t -> t <> EmptyString -> rstrip p (s +:+ t) = s +:+ t.
Proof.
  intros Ht Hne. induction s as [|c s IH]; simpl; [done|]. rewrite IH.
  change (String c s +:+ t) with (String c (s +:+ t)).
  destruct (s +:+ t) eqn:Hst; [|done].
  destruct s; simpl in Hst; [done|discriminate].
Qed.

Lemma rstrip_cons (c : ascii) (s : string) :
  p c = false -> rstrip p s = s -> rstrip p (String c s) = String c s.
Proof. intros Hc Hs. simpl. rewrite Hs, Hc. by destruct s. Qed.

Lemma rstrip_snoc (s : string) (c : ascii) :
  p c = true -> rstrip p (s +:+ String c EmptyString) = rstrip p s.
Proof.
  intros Hc. induction s as [|c' s IH]; simpl; [by rewrite Hc|].
  by rewrite IH.
Qed.

Lemma strip_clean (s : string) : clean s -> strip p s = s.
Proof. intros [Hl Hr]. unfold strip. by rewrite Hl. Qed.
End StripFacts.

Lemma contains_char_app (c : ascii) (s t : string) :
  contains_char c (s +:+ String c t) = true.
Proof.
  induction s as [|c' s IH]; simpl.
  - by rewrite Ascii.eqb_refl.
  - by rewrite IH, orb_true_r.
Qed.

Lemma split_first_app (c : ascii) (s t : string) :
  contains_char c s = false -> split_first c (s +:+ String c t) = (s, t).
Proof.
  induction s as [|c' s IH]; simpl.
  - by rewrite Ascii.eqb_refl.
  - intros [Hc Hs]%orb_false_elim. by rewrite Hc, IH.
Qed.

Lemma fold_insert_lookup (f : string -> string) (names : list string)
    (x : string) : forall m : gmap string string,
  fold_left (fun keys name => <[name := f name]> keys) names m !! x
  = if decide (x ∈ names) then Some (f x) else m !! x.
Proof.
  induction names as [|n names IH]; intros m; simpl.
  - destruct (decide (x ∈ [])) as [Hin|]; [by apply elem_of_nil in Hin|done].
  - rewrite IH. destruct (decide (x ∈ names)) as [Hin|Hout].
    + rewrite decide_True; [done|by right].
    + destruct (decide (n = x)) as [->|Hne].
      * rewrite lookup_insert_eq, decide_True; [done|by left].
      * rewrite lookup_insert_ne, decide_False; [done| |done].
        intros [?|?]%elem_of_cons; congruence.
Qed.

Section LoadEnvFacts.
Variable is_space : ascii -> bool.

(** X27.  [load_env] returns a value for the requested names and for no
    other.  A non-empty value of the environment variable takes
    precedence over [.env.local]; an unset or empty environment variable
    falls back to the value that the file gives, and to the empty string
    when the file gives none. *)
Theorem load_env_lookup (environ : gmap string string)
    (env_file : option (list string)) (names : list string) (name : string) :
  (name ∉ names -> load_env is_space environ env_file names !! name = None)
  /\ (name ∈ names ->
      (forall v, environ !! name = Some v -> v <> EmptyString ->
         load_env is_space environ env_file names !! name = Some v)
      /\ (environ !! name = None \/ environ !! name = Some EmptyString ->
          load_env is_space environ env_file names !! name
          = Some (default EmptyString
                    (read_env_lines is_space env_file !! name)))).
Proof.
  unfold load_env. cbn zeta. rewrite fold_insert_lookup. split.
  - intros Hout. by rewrite decide_False.
  - intros Hin. rewrite decide_True by done. unfold lookup_key. split.
    + intros v -> Hv. by destruct v.
    + by intros [-> | ->].
Qed.

(** X28.  As [main] combines them, the providers that [run_eval] treats
    as active are those whose key has a non-empty value in the environment
    or, failing that, in [.env.local]. *)
Theorem main_active_providers (environ : gmap string string)
    (env_file : option (list string)) (names : list string)
    (providers : list Provider) :
  (forall p, p ∈ providers -> key_name p ∈ names) ->
  active_of providers (load_env is_space environ env_file names)
  = List.filter
      (fun p =>
         opt_truthy (environ !! key_name p)
         || opt_truthy (read_env_lines is_space env_file !! key_name p))
      providers.
Proof.
  intros Hnames. unfold active_of. apply List.filter_ext_in.
  intros p Hp%list_elem_of_In. unfold has_key, load_env. cbn zeta.
  rewrite fold_insert_lookup, decide_True by by apply Hnames.
  unfold lookup_key.
  destruct (environ !! key_name p) as [[|c v]|]; simpl; try done;
    by destruct (read_env_lines is_space env_file !! key_name p) as [[|c v]|].
Qed.

Hypothesis space_equals : is_space "=" = false.
Hypothesis space_quote : is_space double_quote = false.

Lemma strip_assignment (k t : string) :
  clean is_space k -> rstrip is_space (String "=" t) = String "=" t ->
  strip is_space (k +:+ String "=" t) = k +:+ String "=" t.
Proof.
  intros [Hl Hr] Ht. unfold strip.
  assert (Hlk : lstrip is_space (k +:+ String "=" t) = k +:+ String "=" t).
  { destruct k as [|c k]; [simpl; by rewrite space_equals|].
    by apply lstrip_app. }
  rewrite Hlk. by apply rstrip_app.
Qed.

Lemma read_line_raw env_lines (k t : string) :
  clean is_space k -> contains_char "=" k = false ->
  starts_with_char "#" k = false ->
  rstrip is_space (String "=" t) = String "=" t ->
  read_line is_space env_lines (k +:+ String "=" t)
  = <[k := unquote is_space t]> env_lines.
Proof.
  intros Hk Heq Hhash Ht. unfold read_line. cbn zeta.
  rewrite strip_assignment, contains_char_app, split_first_app by done.
  rewrite (strip_clean _ _ Hk).
  assert (Hs : starts_with_char "#" (k +:+ String "=" t) = false)
    by (by destruct k).
  by rewrite Hs.
Qed.

(** X29.  A line [KEY=value] of [.env.local] whose key has no ["="], does
    not begin with ["#"] and has no white space around it, defines [KEY]
    as [value] when the value has no white space or quotes at its ends;
    and the line with the value between double quotes defines the same. *)
Theorem read_line_assignment (env_lines : gmap string string) (k v : string) :
  clean is_space k -> contains_char "=" k = false ->
  starts_with_char "#" k = false ->
  clean (is_char double_quote) v -> clean (is_char single_quote) v ->
  (clean is_space v ->
   read_line is_space env_lines (k +:+ "=" +:+ v) = <[k := v]> env_lines)
  /\ read_line is_space env_lines
       (k +:+ "=" +:+ String double_quote v +:+ String double_quote "")
     = <[k := v]> env_lines.
Proof.
  intros Hk Heq Hhash Hdq Hsq. split.
  - intros Hv. change ("=" +:+ v) with (String "=" v).
    rewrite read_line_raw; [|done|done|done|].
    + unfold unquote.
      by rewrite (strip_clean _ _ Hv), (strip_clean _ _ Hdq),
        (strip_clean _ _ Hsq).
    + apply rstrip_cons; [done|apply Hv].
  - change ("=" +:+ String double_quote v +:+ String double_quote "")
      with (String "=" (String double_quote v +:+ String double_quote "")).
    assert (Hq : rstrip is_space
                   (String double_quote v +:+ String double_quote "")
                 = String double_quote v +:+ String double_quote "").
    { apply rstrip_app; [|done]. simpl. by rewrite space_quote. }
    rewrite read_line_raw; [|done|done|done|].
    + f_equal. unfold unquote.
      assert (Hsp : strip is_space
                      (String double_quote v +:+ String double_quote "")
                    = String double_quote v +:+ String double_quote "").
      { unfold strip. simpl lstrip. rewrite space_quote. exact Hq. }
      rewrite Hsp.
      assert (Hun : strip (is_char double_quote)
                      (String double_quote v +:+ String double_quote "")
                    = v).
      { unfold strip. simpl lstrip.
        replace (is_char double_quote double_quote) with true by done.
        destruct v as [|c v]; [simpl; done|].
        destruct Hdq as [Hl Hr].
        rewrite lstrip_app by done. by rewrite rstrip_snoc. }
      rewrite Hun. by apply strip_clean.
    + apply rstrip_cons; [done|exact Hq].
Qed.
End LoadEnvFacts.

(** A [.env.local] with a comment, spaces around a key and quoted values;
    the second key is also set in the environment. *)
Example load_env_demo :
  load_env ascii_is_space
    (<["DEEPGRAM_API_KEY" := "from-env"]> (<["ASSEMBLYAI_API_KEY" := ""]> ∅))
    (Some ["# keys";
           "ELEVENLABS_API_KEY = 'k1' ";
           "DEEPGRAM_API_KEY=" +:+ String double_quote "k2"
             +:+ String double_quote "";
           "no assignment here";
           "ELEVENLABS_API_KEY=k3=x"])
    ["ELEVENLABS_API_KEY"; "DEEPGRAM_API_KEY"; "ASSEMBLYAI_API_KEY"]
  = <["ELEVENLABS_API_KEY" := "k3=x"]>
      (<["DEEPGRAM_API_KEY" := "from-env"]>
         (<["ASSEMBLYAI_API_KEY" := ""]> ∅)).
Proof. vm_compute. reflexivity. Qed.

Lemma main_active_providers_witness :
  active_of PROVIDERS
    (load_env ascii_is_space (<["DEEPGRAM_API_KEY" := "from-env"]> ∅)
       (Some ["ELEVENLABS_API_KEY = 'k1' "])
       ["ELEVENLABS_API_KEY"; "DEEPGRAM_API_KEY"; "ASSEMBLYAI_API_KEY"])
  = List.filter
      (fun p =>
         opt_truthy ((<["DEEPGRAM_API_KEY" := "from-env"]> ∅ : gmap string string)
                       !! key_name p)
         || opt_truthy
              (read_env_lines ascii_is_space
                 (Some ["ELEVENLABS_API_KEY = 'k1' "]) !! key_name p))
      PROVIDERS.
Proof.
  apply (main_active_providers ascii_is_space
           (<["DEEPGRAM_API_KEY" := "from-env"]> ∅)
           (Some ["ELEVENLABS_API_KEY = 'k1' "])
           ["ELEVENLABS_API_KEY"; "DEEPGRAM_API_KEY"; "ASSEMBLYAI_API_KEY"]
           PROVIDERS).
  intros p Hp.
  repeat (apply elem_of_cons in Hp as [->|Hp]);
    [| | |by apply elem_of_nil in Hp];
    apply (bool_decide_unpack _); vm_compute; reflexivity.
Defined.

Lemma read_line_assignment_witness :
  (clean ascii_is_space "abc123" ->
   read_line ascii_is_space ∅ ("DEEPGRAM_API_KEY" +:+ "=" +:+ "abc123")
   = <["DEEPGRAM_API_KEY" := "abc123"]> ∅)
  /\ read_line ascii_is_space ∅
       ("DEEPGRAM_API_KEY" +:+ "=" +:+ String double_quote "abc123"
          +:+ String double_quote "")
     = <["DEEPGRAM_API_KEY" := "abc123"]> ∅.
Proof.
  apply (read_line_assignment ascii_is_space eq_refl eq_refl ∅
           "DEEPGRAM_API_KEY" "abc123").
  - split; reflexivity.
  - reflexivity.
  - reflexivity.
  - split; reflexivity.
  - split; reflexivity.
Defined.
